(** * Uniswap module of rotki: swaps to trades, sync ranges, pagination, prices

    A shallow embedding of [rotkehlchen/chain/ethereum/uniswap/uniswap.py],
    and of the reading and writing of settings in [rotkehlchen/db/settings.py].

    - [FVal] (a wrapper of Python's [Decimal]) is embedded as the canonical
      rationals [Qc]; the finite precision of the decimal context is idealised
      away.  Division by zero raises, as [Decimal] does under its default traps;
      the rounding to 28 digits and the [Overflow] of a quotient out of range
      are not in the model.  The properties of computed amounts and rates are
      therefore stated of runs that return, with the expression the code
      evaluates, or on values whose quotients are exact.
    - The records of the subgraph are taken as decoded: a record that lacks a
      field, or a field that is not a number or an address, is not in the
      model.
    - Python exceptions are an error monad [Outcome]; a [while True] loop takes
      fuel and answers [OutOfFuel] when it has not left the loop.
    - Dictionaries are [gmap]s, Python sets are duplicate-free lists given in
      iteration order, the database and the subgraph are explicit state. *)

From Stdlib Require Import ZArith QArith Qcanon Lia Sorted.
From stdpp Require Import base option list strings gmap fin_maps.

Local Open Scope Z_scope.

(** ** Exceptions and the outcome monad *)

Inductive Exn : Type :=
| IndexError          (* list index out of range *)
| DivisionByZero      (* decimal.DivisionByZero: x / 0 with x <> 0 *)
| InvalidOperation    (* decimal.InvalidOperation: 0 / 0 *)
| RemoteError.        (* the subgraph could not be queried *)

Inductive Outcome (A : Type) : Type :=
| Done (a : A)
| Raise (e : Exn)
| OutOfFuel.

Arguments Done {A} a.
Arguments Raise {A} e.
Arguments OutOfFuel {A}.

#[global] Instance outcome_ret : MRet Outcome := fun A a => Done a.

#[global] Instance outcome_bind : MBind Outcome := fun A B k m =>
  match m with
  | Done a => k a
  | Raise e => Raise e
  | OutOfFuel => OutOfFuel
  end.

(** A [for] loop whose body may raise: the first exception leaves the loop. *)
Fixpoint for_each {A S : Type} (body : S -> A -> Outcome S) (l : list A) (s : S)
  : Outcome S :=
  match l with
  | [] => Done s
  | x :: l' => s' ← body s x; for_each body l' s'
  end.

(** ** Numbers: [FVal], [AssetAmount], [Price], [Timestamp] *)

Definition FVal : Type := Qc.
Definition AssetAmount : Type := FVal.
Definition Price : Type := FVal.
Definition Timestamp : Type := Z.
Definition ChecksumEthAddress : Type := string.

Definition ZERO : FVal := Q2Qc 0.
Definition fval (n : Z) : FVal := Q2Qc (inject_Z n).

(** [a > b] on [FVal]. *)
Definition fval_gt (a b : FVal) : bool := negb (Qle_bool (this a) (this b)).
(** [a != b] on [FVal]. *)
Definition fval_ne (a b : FVal) : bool := negb (Qeq_bool (this a) (this b)).

(** [a / b]: [Decimal] traps a zero divisor. *)
Definition fval_div (a b : FVal) : Outcome FVal :=
  if fval_ne b ZERO then Done (a / b)%Qc
  else if fval_ne a ZERO then Raise DivisionByZero
  else Raise InvalidOperation.

(** [a / 2]: the divisor is the literal [2], which never traps. *)
Definition fval_half (a : FVal) : FVal := (a / fval 2)%Qc.

(** ** Python list indexing, with negative indices *)

Definition py_index {A : Type} (l : list A) (i : Z) : Outcome A :=
  let n := Z.of_nat (length l) in
  let j := if i <? 0 then n + i else i in
  if (0 <=? j) && (j <? n)
  then match l !! Z.to_nat j with
       | Some x => Done x
       | None => Raise IndexError
       end
  else Raise IndexError.

(** ** Data model *)

Record EthereumToken : Type := mkEthereumToken {
  et_identifier : string;
  et_ethereum_address : ChecksumEthAddress;
  et_name : string;
  et_decimals : Z
}.

Record UnknownEthereumToken : Type := mkUnknownEthereumToken {
  ut_ethereum_address : ChecksumEthAddress;
  ut_symbol : string;
  ut_name : string;
  ut_decimals : Z
}.

(** [Union[EthereumToken, UnknownEthereumToken]] *)
Inductive Token : Type :=
| Known (t : EthereumToken)
| Unknown (u : UnknownEthereumToken).

Definition ethereum_address (a : Token) : ChecksumEthAddress :=
  match a with
  | Known t => et_ethereum_address t
  | Unknown u => ut_ethereum_address u
  end.

Variant Location : Type := UNISWAP.
Variant TradeType : Type := BUY | SELL.

Record AMMSwap : Type := mkAMMSwap {
  tx_hash : string;
  log_index : Z;
  address : ChecksumEthAddress;
  from_address : ChecksumEthAddress;
  to_address : ChecksumEthAddress;
  timestamp : Timestamp;
  location : Location;
  token0 : Token;
  token1 : Token;
  amount0_in : AssetAmount;
  amount1_in : AssetAmount;
  amount0_out : AssetAmount;
  amount1_out : AssetAmount
}.

Record AMMTrade : Type := mkAMMTrade {
  trade_type : TradeType;
  base_asset : Token;
  quote_asset : Token;
  amount : AssetAmount;
  rate : FVal;
  swaps : list AMMSwap;
  trade_index : Z
}.

(** ** Trade derivation *)

(** The body of the loop of [add_trades_from_swaps]; the loop state is
    [(trades, trade_index)]. *)
Definition add_trade (swaps : list AMMSwap) (token : Token) (bought_amount : AssetAmount)
    (st : list AMMTrade * Z) (entry : Token * AssetAmount) : Outcome (list AMMTrade * Z) :=
  let '(trades, trade_index) := st in
  let quote_asset := entry.1 in
  let sold_amount := entry.2 in
  rate ← fval_div bought_amount sold_amount;
  let trade := {| trade_type := BUY;
                  base_asset := token;
                  quote_asset := quote_asset;
                  amount := bought_amount;
                  rate := rate;
                  swaps := swaps;
                  trade_index := trade_index |} in
  Done (trades ++ [trade], trade_index + 1).

Definition add_trades_from_swaps (swaps : list AMMSwap) (trades : list AMMTrade)
    (both_in : bool) (quote_assets : list (Token * AssetAmount))
    (token_amount : AssetAmount) (token : Token) (trade_index : Z)
  : Outcome (list AMMTrade) :=
  let bought_amount := if both_in then fval_half token_amount else token_amount in
  st ← for_each (add_trade swaps token bought_amount) quote_assets (trades, trade_index);
  Done st.1.

(** The quote legs chosen by [_tx_swaps_to_trades] from the first swap. *)
Definition quote_legs (first : AMMSwap) (both_in both_out : bool)
  : list (Token * AssetAmount) :=
  if both_in then
    [ (token0 first, if negb both_out then amount0_in first else fval_half (amount0_in first));
      (token1 first, if negb both_out then amount1_in first else fval_half (amount1_in first)) ]
  else if fval_gt (amount0_in first) ZERO then
    [ (token0 first, amount0_in first) ]
  else
    [ (token1 first, amount1_in first) ].

Definition _tx_swaps_to_trades (swaps : list AMMSwap) : Outcome (list AMMTrade) :=
  let trades : list AMMTrade := [] in
  first ← py_index swaps 0;
  last ← py_index swaps (-1);
  let both_in := fval_gt (amount0_in first) ZERO && fval_gt (amount1_in first) ZERO in
  let both_out := fval_gt (amount0_out last) ZERO && fval_gt (amount1_out last) ZERO in
  let quote_assets := quote_legs first both_in both_out in
  let trade_index := 0 in
  '(trades, trade_index) ←
     (if fval_gt (amount0_out last) ZERO then
        trades ← add_trades_from_swaps swaps trades both_in quote_assets
                   (amount0_out last) (token0 last) trade_index;
        Done (trades, trade_index + Z.of_nat (length trades))
      else Done (trades, trade_index));
  if fval_gt (amount1_out last) ZERO then
    add_trades_from_swaps swaps trades both_in quote_assets
      (amount1_out last) (token1 last) trade_index
  else Done trades.

(** ** Swap grouping: [Uniswap.swaps_to_trades] *)

(** The sort key [(trade.timestamp, -trade.log_index)]; Python compares tuples
    lexicographically. *)
Definition sort_key (trade : AMMSwap) : Z * Z := (timestamp trade, - log_index trade).

Definition key_lt (a b : Z * Z) : bool :=
  (a.1 <? b.1) || ((a.1 =? b.1) && (a.2 <? b.2)).

(** [list.sort(key=..., reverse=True)]: descending in the key and stable, so
    records of equal key keep their relative order.  [insert_desc x l] puts [x],
    which stood before every record of [l], in front of the records of [l]
    whose key is not greater than its own. *)
Fixpoint insert_desc (x : AMMSwap) (l : list AMMSwap) : list AMMSwap :=
  match l with
  | [] => [x]
  | y :: l' =>
      if key_lt (sort_key x) (sort_key y) then y :: insert_desc x l'
      else x :: y :: l'
  end.

Definition sort_reverse (l : list AMMSwap) : list AMMSwap := foldr insert_desc [] l.

Section SwapsToTrades.
(** The loop of [swaps_to_trades], over the function it hands each group to. *)
Context {T : Type} (tx_swaps_to_trades : list AMMSwap -> Outcome (list T)).

(** Loop state: [(trades, current_swaps, last_tx_hash)]. *)
Definition group_step (st : list T * list AMMSwap * string) (swap : AMMSwap)
  : Outcome (list T * list AMMSwap * string) :=
  let '(trades, current_swaps, last_tx_hash) := st in
  '(trades, current_swaps) ←
     (if decide (tx_hash swap = last_tx_hash) then Done (trades, current_swaps)
      else new ← tx_swaps_to_trades current_swaps;
           Done (trades ++ new, []));
  Done (trades, current_swaps ++ [swap], tx_hash swap).

Definition swaps_to_trades_with (swaps : list AMMSwap) : Outcome (list T) :=
  let trades : list T := [] in
  match swaps with
  | [] => Done trades
  | _ :: _ =>
      let swaps := sort_reverse swaps in
      first ← py_index swaps 0;
      let last_tx_hash := tx_hash first in
      '(trades, current_swaps, _) ← for_each group_step swaps (trades, [], last_tx_hash);
      if negb (length current_swaps =? 0)%nat then
        new ← tx_swaps_to_trades current_swaps;
        Done (trades ++ new)
      else Done trades
  end.

End SwapsToTrades.

Definition swaps_to_trades (swaps : list AMMSwap) : Outcome (list AMMTrade) :=
  swaps_to_trades_with _tx_swaps_to_trades swaps.

(** The groups [swaps_to_trades] hands over, in order: the same loop run with a
    callee that answers the group it was given. *)
Definition tx_groups (swaps : list AMMSwap) : Outcome (list (list AMMSwap)) :=
  swaps_to_trades_with (fun group => Done [group]) swaps.

(** Calling [f] on each group in turn and extending the result list. *)
Fixpoint extend_all {A T : Type} (f : A -> Outcome (list T)) (groups : list A)
  : Outcome (list T) :=
  match groups with
  | [] => Done []
  | g :: gs => new ← f g; rest ← extend_all f gs; Done (new ++ rest)
  end.


(** ** Liquidity pools and balances *)

Module Balance.
Record t : Type := mk { amount : FVal; usd_value : FVal }.
(** [Balance(amount=a)]: the USD value defaults to zero. *)
Definition of_amount (a : FVal) : t := {| amount := a; usd_value := ZERO |}.
End Balance.

Module LiquidityPoolAsset.
Record t : Type := mk {
  asset : Token;
  total_amount : FVal;
  user_balance : Balance.t;
  usd_price : Price
}.
End LiquidityPoolAsset.

Module LiquidityPool.
Record t : Type := mk {
  address : ChecksumEthAddress;
  assets : list LiquidityPoolAsset.t;
  total_supply : FVal;
  user_balance : Balance.t
}.
End LiquidityPool.

Abbreviation AddressBalances := (gmap ChecksumEthAddress (list LiquidityPool.t)).
Abbreviation AssetPrice := (gmap ChecksumEthAddress Price).
Abbreviation AddressTrades := (gmap ChecksumEthAddress (list AMMTrade)).

Record ProtocolBalance : Type := mkProtocolBalance {
  address_balances : AddressBalances;
  known_assets : list EthereumToken;
  unknown_assets : list UnknownEthereumToken
}.

#[global] Instance EthereumToken_eq_dec : EqDecision EthereumToken.
Proof. solve_decision. Defined.

#[global] Instance UnknownEthereumToken_eq_dec : EqDecision UnknownEthereumToken.
Proof. solve_decision. Defined.

(** [s.add(x)] on a Python set, kept as the list of its elements. *)
Definition set_add {A : Type} `{EqDecision A} (x : A) (s : list A) : list A :=
  if decide (x ∈ s) then s else s ++ [x].

(** ** Records of the subgraph's answers, after parsing *)

Record GraphToken : Type := mkGraphToken {
  gt_symbol : string;
  gt_id : string;
  gt_name : string;
  gt_decimals : Z
}.

(** One entry of [result['liquidityPositions']]. *)
Record LiquidityPosition : Type := mkLiquidityPosition {
  lp_user_id : string;
  lp_liquidityTokenBalance : FVal;
  lp_pair_id : string;
  lp_pair_totalSupply : FVal;
  lp_pair_reserve0 : FVal;
  lp_pair_reserve1 : FVal;
  lp_pair_token0 : GraphToken;
  lp_pair_token1 : GraphToken
}.

(** One swap of [entry['transaction']['swaps']]. *)
Record GraphSwap : Type := mkGraphSwap {
  gs_id : string;
  gs_logIndex : Z;
  gs_sender : string;
  gs_to : string;
  gs_timestamp : Z;
  gs_pair_token0 : GraphToken;
  gs_pair_token1 : GraphToken;
  gs_amount0In : FVal;
  gs_amount1In : FVal;
  gs_amount0Out : FVal;
  gs_amount1Out : FVal
}.

(** One entry of [result['tokenDayDatas']]. *)
Record TokenDayData : Type := mkTokenDayData {
  tdd_token_id : string;
  tdd_priceUSD : FVal
}.

(** [param_values]: the page size, the offset and the bindings of the query. *)
Record ParamValues (X : Type) : Type := mkParamValues {
  limit : Z;
  offset : Z;
  bindings : X
}.
Arguments mkParamValues {X} _ _ _.
Arguments limit {X} _.
Arguments offset {X} _.
Arguments bindings {X} _.

(** [s.split('-')[0]]: what stands before the first dash. *)
Fixpoint before_dash (s : string) : string :=
  match s with
  | EmptyString => EmptyString
  | String c s' => if Ascii.eqb c (Ascii.Ascii true false true true false true false false) then EmptyString else String c (before_dash s')
  end.

(** ** Programs over a state: the subgraph and the database *)

Definition Prog (St A : Type) : Type := St -> St * Outcome A.

#[global] Instance prog_ret {St} : MRet (Prog St) := fun A a s => (s, Done a).

#[global] Instance prog_bind {St} : MBind (Prog St) := fun A B k m s =>
  let '(s', r) := m s in
  match r with
  | Done a => k a s'
  | Raise e => (s', Raise e)
  | OutOfFuel => (s', OutOfFuel)
  end.

(** A computation that touches no state. *)
Definition lift {St A : Type} (o : Outcome A) : Prog St A := fun s => (s, o).

(** A [for] loop whose body runs in [Prog]. *)
Fixpoint for_each_p {St A S : Type} (body : S -> A -> Prog St S) (l : list A) (s : S)
  : Prog St S :=
  match l with
  | [] => mret s
  | x :: l' => s' ← body s x; for_each_p body l' s'
  end.

(** What [_get_trades] runs over: the subgraph ([self.graph]) and the two
    tables of the database it uses. *)
Record Env (World SwapStore : Type) : Type := mkEnv {
  graph : World;
  used_query_ranges : gmap string (Timestamp * Timestamp);
  amm_swaps : SwapStore
}.
Arguments mkEnv {World SwapStore} _ _ _.
Arguments graph {World SwapStore} _.
Arguments used_query_ranges {World SwapStore} _.
Arguments amm_swaps {World SwapStore} _.

(** One call of [_get_trades], as its caller makes it. *)
Record Call : Type := mkCall {
  call_fuel : nat;
  call_addresses : list ChecksumEthAddress;
  call_from_timestamp : Timestamp;
  call_to_timestamp : Timestamp
}.

Section Uniswap.

(** A proof depends on the parameters its statement names, and on no other. *)
Local Set Default Proof Using "Type".

(** The page size of [rotkehlchen.chain.ethereum.graph]. *)
Variable GRAPH_QUERY_LIMIT : Z.
(** The prefix of the names of the used query ranges ([.typing]). *)
Variable UNISWAP_TRADES_PREFIX : string.
(** [eth_utils.to_checksum_address], [str.lower] and the asset resolver
    [rotkehlchen.assets.utils.get_ethereum_token]. *)
Variable to_checksum_address : string -> ChecksumEthAddress.
Variable lower : string -> string.
Variable get_ethereum_token : string -> ChecksumEthAddress -> string -> Z -> Token.

(** ** The pagination loop *)

Section Pagination.
Context {St X Rec Acc : Type}.
(** [graph_query(querystr, param_types, param_values)] for one query string,
    answering the records under the query's top-level key. *)
Variable graph_query : ParamValues X -> Prog St (list Rec).
(** What the loop does with one record. *)
Variable parse : Acc -> Rec -> Outcome Acc.

(** [{**param_values, 'offset': param_values['offset'] + GRAPH_QUERY_LIMIT}] *)
Definition next_page (param_values : ParamValues X) : ParamValues X :=
  {| limit := limit param_values;
     offset := offset param_values + GRAPH_QUERY_LIMIT;
     bindings := bindings param_values |}.

(** [while True: ...], with [fuel] bounding the number of requests. *)
Fixpoint paginate (fuel : nat) (param_values : ParamValues X) (acc : Acc) : Prog St Acc :=
  match fuel with
  | O => lift OutOfFuel
  | S fuel' =>
      result_data ← graph_query param_values;
      acc ← lift (for_each parse result_data acc);
      if Z.of_nat (length result_data) <? GRAPH_QUERY_LIMIT then mret acc
      else paginate fuel' (next_page param_values) acc
  end.

(** The requests of the loop, should it make [n] of them. *)
Fixpoint loop_queries (n : nat) (param_values : ParamValues X) : list (ParamValues X) :=
  match n with
  | O => []
  | S n' => param_values :: loop_queries n' (next_page param_values)
  end.

(** Sending the requests [qs] one after the other: the final state and the answers. *)
Fixpoint ask (qs : list (ParamValues X)) (s : St) : St * list (Outcome (list Rec)) :=
  match qs with
  | [] => (s, [])
  | q :: qs' =>
      let '(s1, r) := graph_query q s in
      let '(s2, rs) := ask qs' s1 in
      (s2, r :: rs)
  end.

(** The loop's run ends on a short page after [k] full ones: its [k + 1]
    requests were answered by [k] pages of at least [GRAPH_QUERY_LIMIT] records
    and then one of fewer, leaving the source in [s'], and the records of all
    these pages, parsed in order from [acc], give [r]. *)
Definition short_page_run (param_values : ParamValues X) (acc : Acc) (s : St)
    (k : nat) (s' : St) (r : Acc) : Prop :=
  exists (pages : list (list Rec)) (last : list Rec),
    length pages = k /\
    ask (loop_queries (S k) param_values) s = (s', Done <$> (pages ++ [last])) /\
    Forall (fun page => GRAPH_QUERY_LIMIT <= Z.of_nat (length page)) pages /\
    Z.of_nat (length last) < GRAPH_QUERY_LIMIT /\
    for_each parse (concat (pages ++ [last])) acc = Done r.
End Pagination.

(** ** Liquidity positions: [Uniswap._get_balances_graph] *)

(** The inner loop [for token in token0, token1], for one token and its reserve;
    the loop state is [(known_assets, unknown_assets, liquidity_pool_assets)]. *)
Definition add_pool_asset (user_lp_balance lp_total_supply : FVal)
    (st : list EthereumToken * list UnknownEthereumToken * list LiquidityPoolAsset.t)
    (token : GraphToken * FVal)
  : Outcome (list EthereumToken * list UnknownEthereumToken * list LiquidityPoolAsset.t) :=
  let '(known_assets, unknown_assets, liquidity_pool_assets) := st in
  let asset := get_ethereum_token (gt_symbol token.1) (to_checksum_address (gt_id token.1))
                 (gt_name token.1) (gt_decimals token.1) in
  let '(known_assets, unknown_assets) :=
    match asset with
    | Known t => (set_add t known_assets, unknown_assets)
    | Unknown u => (known_assets, set_add u unknown_assets)
    end in
  let asset_total_amount := token.2 in
  share ← fval_div user_lp_balance lp_total_supply;
  let user_asset_balance := (share * asset_total_amount)%Qc in
  let liquidity_pool_asset :=
    {| LiquidityPoolAsset.asset := asset;
       LiquidityPoolAsset.total_amount := asset_total_amount;
       LiquidityPoolAsset.user_balance := Balance.of_amount user_asset_balance;
       LiquidityPoolAsset.usd_price := ZERO |} in
  Done (known_assets, unknown_assets, liquidity_pool_assets ++ [liquidity_pool_asset]).

(** The body of [for lp in result_data]; the state is the balance under
    construction. *)
Definition add_liquidity_position (acc : ProtocolBalance) (lp : LiquidityPosition)
  : Outcome ProtocolBalance :=
  let user_address := to_checksum_address (lp_user_id lp) in
  let user_lp_balance := lp_liquidityTokenBalance lp in
  let lp_address := to_checksum_address (lp_pair_id lp) in
  let lp_total_supply := lp_pair_totalSupply lp in
  let token0 := (lp_pair_token0 lp, lp_pair_reserve0 lp) in
  let token1 := (lp_pair_token1 lp, lp_pair_reserve1 lp) in
  '(known_assets, unknown_assets, liquidity_pool_assets) ←
     for_each (add_pool_asset user_lp_balance lp_total_supply) [token0; token1]
       (known_assets acc, unknown_assets acc, []);
  let liquidity_pool :=
    {| LiquidityPool.address := lp_address;
       LiquidityPool.assets := liquidity_pool_assets;
       LiquidityPool.total_supply := lp_total_supply;
       LiquidityPool.user_balance := Balance.of_amount user_lp_balance |} in
  Done {| address_balances :=
            <[user_address := default [] (address_balances acc !! user_address) ++ [liquidity_pool]]>
              (address_balances acc);
          known_assets := known_assets;
          unknown_assets := unknown_assets |}.

Definition _get_balances_graph {St : Type} (fuel : nat) (addresses : list ChecksumEthAddress)
    (graph_query : ParamValues (list string * string) -> Prog St (list LiquidityPosition))
  : Prog St ProtocolBalance :=
  let addresses_lower := lower <$> addresses in
  let param_values :=
    {| limit := GRAPH_QUERY_LIMIT; offset := 0; bindings := (addresses_lower, "0"%string) |} in
  paginate graph_query add_liquidity_position fuel param_values
    {| address_balances := ∅; known_assets := []; unknown_assets := [] |}.

(** ** Swaps of an address: [Uniswap._get_trades_graph_for_address] *)

(** The subgraph the module holds ([self.graph]), queried for swaps with the
    bindings [(address, start_ts, end_ts)]. *)
Variable World : Type.
Variable graph_query_swaps :
  ParamValues (string * Timestamp * Timestamp) -> Prog World (list (list GraphSwap)).

Definition swap_of_graph (address_ : ChecksumEthAddress) (swap : GraphSwap) : AMMSwap :=
  let swap_token0 := gs_pair_token0 swap in
  let swap_token1 := gs_pair_token1 swap in
  {| tx_hash := before_dash (gs_id swap);
     log_index := gs_logIndex swap;
     address := address_;
     from_address := to_checksum_address (gs_sender swap);
     to_address := to_checksum_address (gs_to swap);
     timestamp := gs_timestamp swap;
     location := UNISWAP;
     token0 := get_ethereum_token (gt_symbol swap_token0) (to_checksum_address (gt_id swap_token0))
                 (gt_name swap_token0) (gt_decimals swap_token0);
     token1 := get_ethereum_token (gt_symbol swap_token1) (to_checksum_address (gt_id swap_token1))
                 (gt_name swap_token1) (gt_decimals swap_token1);
     amount0_in := gs_amount0In swap;
     amount1_in := gs_amount1In swap;
     amount0_out := gs_amount0Out swap;
     amount1_out := gs_amount1Out swap |}.

(** The body of [for entry in result_data]: [entry] is the list
    [entry['transaction']['swaps']]. *)
Definition add_transaction_trades (address : ChecksumEthAddress) (trades : list AMMTrade)
    (entry : list GraphSwap) : Outcome (list AMMTrade) :=
  let swaps := swap_of_graph address <$> entry in
  new ← _tx_swaps_to_trades swaps;
  Done (trades ++ new).

Definition _get_trades_graph_for_address (fuel : nat) (address : ChecksumEthAddress)
    (start_ts end_ts : Timestamp) : Prog World (list AMMTrade) :=
  let trades : list AMMTrade := [] in
  let param_values :=
    {| limit := GRAPH_QUERY_LIMIT; offset := 0; bindings := (lower address, start_ts, end_ts) |} in
  paginate graph_query_swaps (add_transaction_trades address) fuel param_values trades.

Definition _get_trades_graph (fuel : nat) (addresses : list ChecksumEthAddress)
    (start_ts end_ts : Timestamp) : Prog World AddressTrades :=
  for_each_p (fun (address_trades : AddressTrades) address =>
      trades ← _get_trades_graph_for_address fuel address start_ts end_ts;
      if negb (length trades =? 0)%nat then mret (<[address := trades]> address_trades)
      else mret address_trades)
    addresses ∅.

(** ** Daily prices: [Uniswap._get_unknown_asset_price_graph] *)

Definition add_token_price (asset_price : AssetPrice) (tdd : TokenDayData) : Outcome AssetPrice :=
  let token_address := to_checksum_address (tdd_token_id tdd) in
  Done (<[token_address := tdd_priceUSD tdd]> asset_price).

(** [today_epoch] is read from the clock by the source; it is an argument here. *)
Definition _get_unknown_asset_price_graph {St : Type} (fuel : nat) (today_epoch : Z)
    (unknown_assets : list UnknownEthereumToken)
    (graph_query : ParamValues (list string * Z) -> Prog St (list TokenDayData))
  : Prog St AssetPrice :=
  let asset_price : AssetPrice := ∅ in
  let unknown_assets_addresses := ut_ethereum_address <$> unknown_assets in
  let unknown_assets_addresses_lower := lower <$> unknown_assets_addresses in
  let param_values :=
    {| limit := GRAPH_QUERY_LIMIT; offset := 0;
       bindings := (unknown_assets_addresses_lower, today_epoch) |} in
  paginate graph_query add_token_price fuel param_values asset_price.

(** ** The database and [Uniswap._get_trades] *)

(** The swaps table of the database ([DBHandler.add_amm_swaps] and
    [DBHandler.get_amm_swaps]), and [list(all_swaps)] for the set of swaps. *)
Variable SwapStore : Type.
Variable add_amm_swaps : list AMMSwap -> SwapStore -> SwapStore.
Variable get_amm_swaps :
  Timestamp -> Timestamp -> Location -> ChecksumEthAddress -> SwapStore -> list AMMSwap.
Variable list_of_set : list AMMSwap -> list AMMSwap.

(** A request to the subgraph leaves the database alone. *)
Definition on_graph {A : Type} (m : Prog World A) : Prog (Env World SwapStore) A := fun env =>
  let '(w, r) := m (graph env) in
  ({| graph := w; used_query_ranges := used_query_ranges env; amm_swaps := amm_swaps env |}, r).

(** Modelled from the spec: the range store of [DBHandler], which is not in the
    sources; [get_range(key) -> Optional[(start_ts, end_ts)]] answers what
    [set_range(key, start_ts, end_ts)] recorded last under the key. *)
Definition get_used_query_range (name : string) : Prog (Env World SwapStore) (option (Timestamp * Timestamp)) :=
  fun env => (env, Done (used_query_ranges env !! name)).

(** Modelled from the spec: [set_range(key, start_ts, end_ts)] of the range store. *)
Definition update_used_query_range (name : string) (start_ts end_ts : Timestamp)
  : Prog (Env World SwapStore) unit :=
  fun env =>
    ({| graph := graph env;
        used_query_ranges := <[name := (start_ts, end_ts)]> (used_query_ranges env);
        amm_swaps := amm_swaps env |}, Done tt).

Definition db_add_amm_swaps (swaps : list AMMSwap) : Prog (Env World SwapStore) unit := fun env =>
  ({| graph := graph env;
      used_query_ranges := used_query_ranges env;
      amm_swaps := add_amm_swaps swaps (amm_swaps env) |}, Done tt).

Definition db_get_amm_swaps (from_ts to_ts : Timestamp) (loc : Location)
    (address : ChecksumEthAddress) : Prog (Env World SwapStore) (list AMMSwap) := fun env =>
  (env, Done (get_amm_swaps from_ts to_ts loc address (amm_swaps env))).

(** [f'{UNISWAP_TRADES_PREFIX}_{address}'] *)
Definition entry_name (address : ChecksumEthAddress) : string :=
  UNISWAP_TRADES_PREFIX +:+ "_" +:+ address.

(** The first loop of [_get_trades]; its state is
    [(new_addresses, existing_addresses, min_end_ts)]. *)
Definition classify_address
    (st : list ChecksumEthAddress * list ChecksumEthAddress * Timestamp)
    (address : ChecksumEthAddress)
  : Prog (Env World SwapStore) (list ChecksumEthAddress * list ChecksumEthAddress * Timestamp) :=
  let '(new_addresses, existing_addresses, min_end_ts) := st in
  trades_range ← get_used_query_range (entry_name address);
  match trades_range with
  | None => mret (new_addresses ++ [address], existing_addresses, min_end_ts)
  | Some range => mret (new_addresses, existing_addresses ++ [address], Z.min min_end_ts range.2)
  end.

(** [for address in addresses: update_used_query_range(name, start_ts, end_ts)] *)
Definition commit_ranges (addresses : list ChecksumEthAddress) (start_ts end_ts : Timestamp)
  : Prog (Env World SwapStore) unit :=
  for_each_p (fun (_ : unit) address =>
      update_used_query_range (entry_name address) start_ts end_ts)
    addresses tt.

(** The swaps of the trades fetched for [addresses], in the order the source
    adds them to [all_swaps]. *)
Definition fetched_swaps (addresses : list ChecksumEthAddress)
    (address_amm_trades : AddressTrades) : list AMMSwap :=
  address ← filter (fun address => is_Some (address_amm_trades !! address)) addresses;
  trade ← default [] (address_amm_trades !! address);
  swaps trade.

Definition _get_trades (fuel : nat) (addresses : list ChecksumEthAddress)
    (from_timestamp to_timestamp : Timestamp) : Prog (Env World SwapStore) AddressTrades :=
  let address_amm_trades : AddressTrades := ∅ in
  let min_end_ts := to_timestamp in
  '(new_addresses, existing_addresses, min_end_ts) ←
     for_each_p classify_address addresses ([], [], min_end_ts);
  address_amm_trades ←
    (if negb (length new_addresses =? 0)%nat then
       let start_ts := 0 in
       new_address_trades ← on_graph (_get_trades_graph fuel new_addresses start_ts to_timestamp);
       _ ← commit_ranges new_addresses start_ts to_timestamp;
       mret (new_address_trades ∪ address_amm_trades)
     else mret address_amm_trades);
  address_amm_trades ←
    (if negb (length existing_addresses =? 0)%nat && (min_end_ts <=? to_timestamp) then
       address_new_trades ←
         on_graph (_get_trades_graph fuel existing_addresses min_end_ts to_timestamp);
       _ ← commit_ranges existing_addresses min_end_ts to_timestamp;
       mret (address_new_trades ∪ address_amm_trades)
     else mret address_amm_trades);
  let all_swaps := fetched_swaps addresses address_amm_trades in
  _ ← db_add_amm_swaps (list_of_set all_swaps);
  for_each_p (fun (db_address_trades : AddressTrades) address =>
      db_swaps ← db_get_amm_swaps from_timestamp to_timestamp UNISWAP address;
      db_trades ← lift (swaps_to_trades db_swaps);
      if negb (length db_trades =? 0)%nat then mret (<[address := db_trades]> db_address_trades)
      else mret db_address_trades)
    addresses ∅.

(** The environments left by calls made one after the other, whatever each
    call's outcome (an exception leaves what was written before it). *)
Fixpoint run_calls (env : Env World SwapStore) (calls : list Call) : list (Env World SwapStore) :=
  match calls with
  | [] => []
  | c :: calls' =>
      let env' := (_get_trades (call_fuel c) (call_addresses c)
                     (call_from_timestamp c) (call_to_timestamp c) env).1 in
      env' :: run_calls env' calls'
  end.

(** The range recorded for an address. *)
Definition range_of (env : Env World SwapStore) (address : ChecksumEthAddress) : option (Timestamp * Timestamp) :=
  used_query_ranges env !! entry_name address.

(** Every range written between two states of the range store ends at [to_ts]. *)
Definition writes_end (to_ts : Timestamp) (r r' : gmap string (Timestamp * Timestamp)) : Prop :=
  forall name : string,
    r' !! name = r !! name \/ exists start_ts, r' !! name = Some (start_ts, to_ts).

(** A program that writes no range but ones that end at [to_ts], whatever its
    outcome. *)
Definition commits_only {A : Type} (to_ts : Timestamp) (m : Prog (Env World SwapStore) A) : Prop :=
  forall (env env' : Env World SwapStore) (o : Outcome A),
    m env = (env', o) -> writes_end to_ts (used_query_ranges env) (used_query_ranges env').

(** ** Prices: [_get_known_asset_price] and
       [_update_assets_prices_in_address_balances] *)

(** [UnknownEthereumToken(ethereum_address=..., symbol=known_asset.identifier,
    name=..., decimals=...)] *)
Definition unknown_of_known (known_asset : EthereumToken) : UnknownEthereumToken :=
  {| ut_ethereum_address := et_ethereum_address known_asset;
     ut_symbol := et_identifier known_asset;
     ut_name := et_name known_asset;
     ut_decimals := et_decimals known_asset |}.

(** The body of [for known_asset in known_assets]; the state is
    [(asset_price, unknown_assets)]. *)
Definition price_known_asset (price_query : EthereumToken -> Price)
    (st : AssetPrice * list UnknownEthereumToken) (known_asset : EthereumToken)
  : AssetPrice * list UnknownEthereumToken :=
  let '(asset_price, unknown_assets) := st in
  let asset_usd_price := price_query known_asset in
  if fval_ne asset_usd_price ZERO then
    (<[et_ethereum_address known_asset := asset_usd_price]> asset_price, unknown_assets)
  else
    let unknown_asset := unknown_of_known known_asset in
    (asset_price, set_add unknown_asset unknown_assets).

(** The source returns [asset_price] and mutates [unknown_assets]; both are
    returned here.  [known_assets] is only read. *)
Definition _get_known_asset_price (known_assets : list EthereumToken)
    (unknown_assets : list UnknownEthereumToken) (price_query : EthereumToken -> Price)
  : AssetPrice * list UnknownEthereumToken :=
  foldl (price_known_asset price_query) (∅, unknown_assets) known_assets.

(** [known_asset_price.get(a, unknown_asset_price.get(a, Price(ZERO)))] *)
Definition lookup_price (known_asset_price unknown_asset_price : AssetPrice)
    (a : ChecksumEthAddress) : Price :=
  default (default ZERO (unknown_asset_price !! a)) (known_asset_price !! a).

(** What the loop body does to one [LiquidityPoolAsset]. *)
Definition update_asset (known_asset_price unknown_asset_price : AssetPrice)
    (asset : LiquidityPoolAsset.t) : LiquidityPoolAsset.t :=
  let asset_ethereum_address := ethereum_address (LiquidityPoolAsset.asset asset) in
  let asset_usd_price := lookup_price known_asset_price unknown_asset_price asset_ethereum_address in
  if fval_ne asset_usd_price ZERO then
    {| LiquidityPoolAsset.asset := LiquidityPoolAsset.asset asset;
       LiquidityPoolAsset.total_amount := LiquidityPoolAsset.total_amount asset;
       LiquidityPoolAsset.user_balance :=
         {| Balance.amount := Balance.amount (LiquidityPoolAsset.user_balance asset);
            Balance.usd_value :=
              (Balance.amount (LiquidityPoolAsset.user_balance asset) * asset_usd_price)%Qc |};
       LiquidityPoolAsset.usd_price := asset_usd_price |}
  else asset.

(** The loop [for asset in lp.assets]; the state is the assets updated so far
    and [total_user_balance]. *)
Definition update_pool_asset (known_asset_price unknown_asset_price : AssetPrice)
    (st : list LiquidityPoolAsset.t * FVal) (asset : LiquidityPoolAsset.t)
  : list LiquidityPoolAsset.t * FVal :=
  let '(assets, total_user_balance) := st in
  let asset := update_asset known_asset_price unknown_asset_price asset in
  (assets ++ [asset],
   (total_user_balance + Balance.usd_value (LiquidityPoolAsset.user_balance asset))%Qc).

Definition update_pool (known_asset_price unknown_asset_price : AssetPrice)
    (lp : LiquidityPool.t) : LiquidityPool.t :=
  let '(assets, total_user_balance) :=
    foldl (update_pool_asset known_asset_price unknown_asset_price) ([], fval 0)
      (LiquidityPool.assets lp) in
  {| LiquidityPool.address := LiquidityPool.address lp;
     LiquidityPool.assets := assets;
     LiquidityPool.total_supply := LiquidityPool.total_supply lp;
     LiquidityPool.user_balance :=
       {| Balance.amount := Balance.amount (LiquidityPool.user_balance lp);
          Balance.usd_value := total_user_balance |} |}.

(** The pools are updated in place by the source; the updated balances are the
    result here.  Each pool, asset and balance is taken as an object of its
    own, as [_get_balances_graph] builds them. *)
Definition _update_assets_prices_in_address_balances (address_balances : AddressBalances)
    (known_asset_price unknown_asset_price : AssetPrice) : AddressBalances :=
  (fun lps : list LiquidityPool.t =>
     update_pool known_asset_price unknown_asset_price <$> lps) <$> address_balances.

(** No address stands both in [known_assets] and in [unknown_assets]. *)
Definition exclusive (known_assets : list EthereumToken)
    (unknown_assets : list UnknownEthereumToken) : Prop :=
  forall a : ChecksumEthAddress,
    a ∈ (et_ethereum_address <$> known_assets) ->
    a ∉ (ut_ethereum_address <$> unknown_assets).

(** The sum of the assets' USD values, added up from [FVal(0)] in list order. *)
Definition sum_usd_values (assets : list LiquidityPoolAsset.t) : FVal :=
  foldl (fun total asset =>
           (total + Balance.usd_value (LiquidityPoolAsset.user_balance asset))%Qc)
    (fval 0) assets.

(** ** Specification helpers *)

(** The trades [add_trades_from_swaps] appends: one per quote leg, in order,
    numbered from [trade_index]. *)
Definition trades_of_legs (swaps : list AMMSwap) (token : Token) (bought_amount : AssetAmount)
    (trade_index : Z) (quote_assets : list (Token * AssetAmount)) : list AMMTrade :=
  imap (fun (i : nat) (entry : Token * AssetAmount) =>
          {| trade_type := BUY;
             base_asset := token;
             quote_asset := entry.1;
             amount := bought_amount;
             rate := (bought_amount / entry.2)%Qc;
             swaps := swaps;
             trade_index := trade_index + Z.of_nat i |})
    quote_assets.

(** All the swaps of a group are of one transaction. *)
Definition one_transaction (group : list AMMSwap) : Prop :=
  exists h : string, Forall (fun s => tx_hash s = h) group.

(** No swap of a group has the transaction hash of a swap of the next group. *)
Definition distinct_neighbours (groups : list (list AMMSwap)) : Prop :=
  forall (i : nat) (g1 g2 : list AMMSwap),
    groups !! i = Some g1 -> groups !! S i = Some g2 ->
    forall s1 s2, s1 ∈ g1 -> s2 ∈ g2 -> tx_hash s1 <> tx_hash s2.

(** What the first loop of [_get_trades] computes, read off the range store:
    the addresses without a recorded range, those with one, and the least of
    [to_timestamp] and the recorded ends. *)
Definition new_addresses_of (env : Env World SwapStore) (addresses : list ChecksumEthAddress)
  : list ChecksumEthAddress :=
  filter (fun a => range_of env a = None) addresses.

Definition existing_addresses_of (env : Env World SwapStore)
    (addresses : list ChecksumEthAddress) : list ChecksumEthAddress :=
  filter (fun a => is_Some (range_of env a)) addresses.

Definition min_end_ts_of (env : Env World SwapStore) (to_timestamp : Timestamp)
    (addresses : list ChecksumEthAddress) : Timestamp :=
  foldl (fun m a => match range_of env a with
                    | Some range => Z.min m range.2
                    | None => m
                    end)
    to_timestamp addresses.

(** A program that leaves the range store as it is, whatever its outcome. *)
Definition keeps_ranges {A : Type} (m : Prog (Env World SwapStore) A) : Prop :=
  forall (env env' : Env World SwapStore) (o : Outcome A),
    m env = (env', o) -> used_query_ranges env' = used_query_ranges env.

(** ** Balances: [Uniswap.get_balances_chain] and [Uniswap.get_balances] *)

(** The body of [for address in addresses] of [get_balances_chain]; the state is
    [(address_mapping, (known_assets, unknown_assets))].  The callee
    [uniswap_lp_token_balances] comes from [.utils]; it is the argument
    [lp_token_balances], which answers the pools of an address and the two
    asset sets as it leaves them. *)
Definition add_address_pools {St : Type}
    (lp_token_balances :
       ChecksumEthAddress -> list EthereumToken * list UnknownEthereumToken ->
       Prog St (list LiquidityPool.t * (list EthereumToken * list UnknownEthereumToken)))
    (st : AddressBalances * (list EthereumToken * list UnknownEthereumToken))
    (address_ : ChecksumEthAddress)
  : Prog St (AddressBalances * (list EthereumToken * list UnknownEthereumToken)) :=
  '(pool_balances, sets) ← lp_token_balances address_ st.2;
  if negb (length pool_balances =? 0)%nat
  then mret (<[address_ := pool_balances]> st.1, sets)
  else mret (st.1, sets).

Definition get_balances_chain {St : Type}
    (lp_token_balances :
       ChecksumEthAddress -> list EthereumToken * list UnknownEthereumToken ->
       Prog St (list LiquidityPool.t * (list EthereumToken * list UnknownEthereumToken)))
    (addresses : list ChecksumEthAddress) : Prog St ProtocolBalance :=
  '(address_mapping, sets) ←
     for_each_p (add_address_pools lp_token_balances) addresses (∅, ([], []));
  mret {| address_balances := address_mapping;
          known_assets := sets.1;
          unknown_assets := sets.2 |}.

(** [is_graph_mode] is [self.graph and self.premium]; both requests of the
    graph mode go to the same subgraph, whose state is [St], and the chain
    queries change the same state. *)
Definition get_balances {St : Type} (is_graph_mode : bool) (fuel : nat) (today_epoch : Z)
    (price_query : EthereumToken -> Price)
    (graph_query_positions :
       ParamValues (list string * string) -> Prog St (list LiquidityPosition))
    (graph_query_prices : ParamValues (list string * Z) -> Prog St (list TokenDayData))
    (lp_token_balances :
       ChecksumEthAddress -> list EthereumToken * list UnknownEthereumToken ->
       Prog St (list LiquidityPool.t * (list EthereumToken * list UnknownEthereumToken)))
    (addresses : list ChecksumEthAddress) : Prog St AddressBalances :=
  protocol_balance ←
    (if is_graph_mode
     then _get_balances_graph fuel addresses graph_query_positions
     else get_balances_chain lp_token_balances addresses);
  let known_assets := known_assets protocol_balance in
  let unknown_assets := unknown_assets protocol_balance in
  let '(known_asset_price, unknown_assets) :=
    _get_known_asset_price known_assets unknown_assets price_query in
  unknown_asset_price ←
    (if is_graph_mode
     then _get_unknown_asset_price_graph fuel today_epoch unknown_assets graph_query_prices
     else mret (∅ : AssetPrice));
  mret (_update_assets_prices_in_address_balances (address_balances protocol_balance)
          known_asset_price unknown_asset_price).

(** The token the resolver gives for a token record of the subgraph. *)
Definition token_of_graph (token : GraphToken) : Token :=
  get_ethereum_token (gt_symbol token) (to_checksum_address (gt_id token))
    (gt_name token) (gt_decimals token).

(** The asset and the pool a liquidity position stands for. *)
Definition pool_asset_of (lp : LiquidityPosition) (token : GraphToken) (reserve : FVal)
  : LiquidityPoolAsset.t :=
  {| LiquidityPoolAsset.asset := token_of_graph token;
     LiquidityPoolAsset.total_amount := reserve;
     LiquidityPoolAsset.user_balance :=
       Balance.of_amount
         (lp_liquidityTokenBalance lp / lp_pair_totalSupply lp * reserve)%Qc;
     LiquidityPoolAsset.usd_price := ZERO |}.

Definition pool_of_position (lp : LiquidityPosition) : LiquidityPool.t :=
  {| LiquidityPool.address := to_checksum_address (lp_pair_id lp);
     LiquidityPool.assets :=
       [ pool_asset_of lp (lp_pair_token0 lp) (lp_pair_reserve0 lp);
         pool_asset_of lp (lp_pair_token1 lp) (lp_pair_reserve1 lp) ];
     LiquidityPool.total_supply := lp_pair_totalSupply lp;
     LiquidityPool.user_balance := Balance.of_amount (lp_liquidityTokenBalance lp) |}.

(** The asset's token is in the set of its kind. *)
Definition classified (known_assets : list EthereumToken)
    (unknown_assets : list UnknownEthereumToken) (token : Token) : Prop :=
  match token with
  | Known t => t ∈ known_assets
  | Unknown u => u ∈ unknown_assets
  end.

(** A pool as [_get_balances_graph] leaves it: two assets, each with the user's
    share of its reserve, nothing priced yet. *)
Definition unpriced_pool (known_assets : list EthereumToken)
    (unknown_assets : list UnknownEthereumToken) (lp : LiquidityPool.t) : Prop :=
  length (LiquidityPool.assets lp) = 2%nat /\
  LiquidityPool.total_supply lp <> ZERO /\
  Balance.usd_value (LiquidityPool.user_balance lp) = ZERO /\
  Forall (fun a =>
            LiquidityPoolAsset.usd_price a = ZERO /\
            Balance.usd_value (LiquidityPoolAsset.user_balance a) = ZERO /\
            Balance.amount (LiquidityPoolAsset.user_balance a)
              = (Balance.amount (LiquidityPool.user_balance lp)
                 / LiquidityPool.total_supply lp * LiquidityPoolAsset.total_amount a)%Qc /\
            classified known_assets unknown_assets (LiquidityPoolAsset.asset a))
    (LiquidityPool.assets lp).

(** The sets of assets after a position: those before, and the position's two
    tokens, each in the set of its kind. *)
Definition known_after (lp : LiquidityPosition) (known_assets : list EthereumToken)
  : list EthereumToken :=
  let after0 := match token_of_graph (lp_pair_token0 lp) with
                | Known t => set_add t known_assets
                | Unknown _ => known_assets
                end in
  match token_of_graph (lp_pair_token1 lp) with
  | Known t => set_add t after0
  | Unknown _ => after0
  end.

Definition unknown_after (lp : LiquidityPosition) (unknown_assets : list UnknownEthereumToken)
  : list UnknownEthereumToken :=
  let after0 := match token_of_graph (lp_pair_token0 lp) with
                | Known _ => unknown_assets
                | Unknown u => set_add u unknown_assets
                end in
  match token_of_graph (lp_pair_token1 lp) with
  | Known _ => after0
  | Unknown u => set_add u after0
  end.

(** What holds of the balance under construction throughout the loop. *)
Definition positions_invariant (acc : ProtocolBalance) : Prop :=
  (forall user lps,
      address_balances acc !! user = Some lps ->
      lps <> [] /\ Forall (unpriced_pool (known_assets acc) (unknown_assets acc)) lps) /\
  (forall t, t ∈ known_assets acc -> exists token, token_of_graph token = Known t) /\
  (forall u, u ∈ unknown_assets acc -> exists token, token_of_graph token = Unknown u).

(** The price of the last of [records] that names the address [a]. *)
Definition last_price_of (records : list TokenDayData) (a : ChecksumEthAddress)
  : option Price :=
  tdd_priceUSD <$>
    last (filter (fun tdd => to_checksum_address (tdd_token_id tdd) = a) records).

(** * The settings of the database: [rotkehlchen/db/settings.py] *)

(** A value of a settings dictionary: [None], a [bool], an [int] or a [str]. *)
Inductive PyVal : Type :=
| PNone
| PBool (b : bool)
| PInt (z : Z)
| PStr (s : string).

(** What reading a setting may raise: [DeserializationError] in [read_boolean],
    and what [int], [str_to_bool], [Asset], [KrakenAccountType.deserialize] and
    [json.loads] raise. *)
Inductive SettingsExn : Type :=
| DeserializationError
| ValueError
| TypeError
| UnknownAsset
| JSONDecodeError.

Inductive Checked (A : Type) : Type :=
| Ok (a : A)
| Fail (e : SettingsExn).
#[global] Arguments Ok {A} a.
#[global] Arguments Fail {A} e.

#[global] Instance checked_ret : MRet Checked := fun A a => Ok a.

#[global] Instance checked_bind : MBind Checked := fun A B k m =>
  match m with
  | Ok a => k a
  | Fail e => Fail e
  end.

#[global] Instance checked_fmap : FMap Checked := fun A B f m =>
  match m with
  | Ok a => Ok (f a)
  | Fail e => Fail e
  end.

(** The warnings [db_settings_from_dict] hands to the [MessagesAggregator]: the
    text of a warning is kept as the value it is built from. *)
Inductive Warning : Type :=
| NonPositiveTaxfree (int_value : Z)
| UnknownSetting (key : string).

(** The collaborators of the module: [Asset] with [A_USD], [Asset(...)] and
    [.identifier]; [KrakenAccountType] with [STARTER], [deserialize] and
    [serialize]; the constants [YEAR_IN_SECONDS] and [AVAILABLE_MODULES];
    [str_to_bool]; Python's [int(...)] and [str(...)] on a value of the
    dictionary; [json.loads] and [json.dumps] on the list of modules. *)
Variable Asset : Type.
Variable A_USD : Asset.
Variable Asset_of_str : string -> Checked Asset.
Variable identifier : Asset -> string.
Variable KrakenAccountType : Type.
Variable STARTER : KrakenAccountType.
Variable KrakenAccountType_deserialize : PyVal -> Checked KrakenAccountType.
Variable KrakenAccountType_serialize : KrakenAccountType -> string.
Variable YEAR_IN_SECONDS : Z.
Variable AVAILABLE_MODULES : list string.
Variable str_to_bool : string -> Checked bool.
Variable int : PyVal -> Checked Z.
Variable str : PyVal -> string.
Variable json_loads : PyVal -> Checked (list string).
Variable json_dumps : list string -> string.

Definition ROTKEHLCHEN_DB_VERSION : Z := 21.
Definition DEFAULT_TAXFREE_AFTER_PERIOD : Z := YEAR_IN_SECONDS.
Definition DEFAULT_INCLUDE_CRYPTO2CRYPTO : bool := true.
Definition DEFAULT_INCLUDE_GAS_COSTS : bool := true.
Definition DEFAULT_ANONYMIZED_LOGS : bool := false.
Definition DEFAULT_PREMIUM_SHOULD_SYNC : bool := false.
Definition DEFAULT_START_DATE : string := "01/08/2015".
Definition DEFAULT_UI_FLOATING_PRECISION : Z := 2.
Definition DEFAULT_BALANCE_SAVE_FREQUENCY : Z := 24.
Definition DEFAULT_MAIN_CURRENCY : Asset := A_USD.
Definition DEFAULT_DATE_DISPLAY_FORMAT : string := "%d/%m/%Y %H:%M:%S %Z".
Definition DEFAULT_THOUSAND_SEPARATOR : string := ",".
Definition DEFAULT_DECIMAL_SEPARATOR : string := ".".
Definition DEFAULT_CURRENCY_LOCATION : string := "after".
Definition DEFAULT_SUBMIT_USAGE_ANALYTICS : bool := true.
Definition DEFAULT_KRAKEN_ACCOUNT_TYPE : KrakenAccountType := STARTER.
Definition DEFAULT_ACTIVE_MODULES : list string := AVAILABLE_MODULES.

Record DBSettings : Type := mkDBSettings {
  have_premium : bool;
  version : Z;
  last_write_ts : Timestamp;
  premium_should_sync : bool;
  include_crypto2crypto : bool;
  anonymized_logs : bool;
  last_data_upload_ts : Timestamp;
  ui_floating_precision : Z;
  taxfree_after_period : option Z;
  balance_save_frequency : Z;
  include_gas_costs : bool;
  historical_data_start : string;
  eth_rpc_endpoint : string;
  main_currency : Asset;
  date_display_format : string;
  thousand_separator : string;
  decimal_separator : string;
  currency_location : string;
  last_balance_save : Timestamp;
  submit_usage_analytics : bool;
  kraken_account_type : KrakenAccountType;
  active_modules : list string;
  frontend_settings : string
}.

(** The fields of [ModifiableDBSettings] have the names of those of [DBSettings];
    they are told apart here by the prefix [new_]. *)
Record ModifiableDBSettings : Type := mkModifiableDBSettings {
  new_premium_should_sync : option bool;
  new_include_crypto2crypto : option bool;
  new_anonymized_logs : option bool;
  new_ui_floating_precision : option Z;
  new_taxfree_after_period : option Z;
  new_balance_save_frequency : option Z;
  new_include_gas_costs : option bool;
  new_historical_data_start : option string;
  new_eth_rpc_endpoint : option string;
  new_main_currency : option Asset;
  new_date_display_format : option string;
  new_thousand_separator : option string;
  new_decimal_separator : option string;
  new_currency_location : option string;
  new_submit_usage_analytics : option bool;
  new_kraken_account_type : option KrakenAccountType;
  new_active_modules : option (list string);
  new_frontend_settings : option string
}.

(** [str(value)] on a [bool]. *)
Definition str_of_bool (b : bool) : string := if b then "True" else "False".

(** ** [ModifiableDBSettings.serialize] *)

(** The loop over [_fields], one kind of field at a time: a field that is
    [None] adds nothing; a [bool] is written as its [str]; the other values are
    written as they are, but for the fields the loop names. *)
Definition serialize_bool (setting : string) (value : option bool) : list (string * PyVal) :=
  match value with
  | None => []
  | Some b => [(setting, PStr (str_of_bool b))]
  end.

Definition serialize_int (setting : string) (value : option Z) : list (string * PyVal) :=
  match value with
  | None => []
  | Some z =>
      if String.eqb setting "taxfree_after_period" && (z =? -1)
      then [(setting, PNone)]
      else [(setting, PInt z)]
  end.

Definition serialize_str (setting : string) (value : option string) : list (string * PyVal) :=
  match value with
  | None => []
  | Some s => [(setting, PStr s)]
  end.

(** The dictionary is given as the list of its items, in insertion order. *)
Definition serialize (self : ModifiableDBSettings) : list (string * PyVal) :=
  serialize_bool "premium_should_sync" (new_premium_should_sync self) ++
  serialize_bool "include_crypto2crypto" (new_include_crypto2crypto self) ++
  serialize_bool "anonymized_logs" (new_anonymized_logs self) ++
  serialize_int "ui_floating_precision" (new_ui_floating_precision self) ++
  serialize_int "taxfree_after_period" (new_taxfree_after_period self) ++
  serialize_int "balance_save_frequency" (new_balance_save_frequency self) ++
  serialize_bool "include_gas_costs" (new_include_gas_costs self) ++
  serialize_str "historical_data_start" (new_historical_data_start self) ++
  serialize_str "eth_rpc_endpoint" (new_eth_rpc_endpoint self) ++
  serialize_str "main_currency" (identifier <$> new_main_currency self) ++
  serialize_str "date_display_format" (new_date_display_format self) ++
  serialize_str "thousand_separator" (new_thousand_separator self) ++
  serialize_str "decimal_separator" (new_decimal_separator self) ++
  serialize_str "currency_location" (new_currency_location self) ++
  serialize_bool "submit_usage_analytics" (new_submit_usage_analytics self) ++
  serialize_str "kraken_account_type"
    (KrakenAccountType_serialize <$> new_kraken_account_type self) ++
  serialize_str "active_modules" (json_dumps <$> new_active_modules self) ++
  serialize_str "frontend_settings" (new_frontend_settings self).

(** ** [read_boolean] and [db_settings_from_dict] *)

Definition read_boolean (value : PyVal) : Checked bool :=
  match value with
  | PBool b => Ok b
  | PStr s => str_to_bool s
  | _ => Fail DeserializationError
  end.

(** A value of [specified_args]. *)
Inductive SettingVal : Type :=
| VBool (b : bool)
| VInt (z : Z)
| VOptInt (o : option Z)
| VStr (s : string)
| VAsset (a : Asset)
| VKraken (k : KrakenAccountType)
| VModules (l : list string).

(** [specified_args[key] = v], when computing [v] did not raise. *)
Definition assign (key : string) (v : Checked SettingVal) (warnings : list Warning)
    (specified_args : gmap string SettingVal)
  : list Warning * Checked (gmap string SettingVal) :=
  (warnings, v ← v; Ok (<[key := v]> specified_args)).

(** The body of [for key, value in settings_dict.items()]; the state is the
    warnings of the aggregator and [specified_args]. *)
Definition add_setting (key : string) (value : PyVal) (warnings : list Warning)
    (specified_args : gmap string SettingVal)
  : list Warning * Checked (gmap string SettingVal) :=
  if String.eqb key "have_premium" then
    assign key (VBool <$> read_boolean value) warnings specified_args
  else if String.eqb key "version" then
    assign key (VInt <$> int value) warnings specified_args
  else if String.eqb key "historical_data_start" then
    assign key (Ok (VStr (str value))) warnings specified_args
  else if String.eqb key "eth_rpc_endpoint" then
    assign key (Ok (VStr (str value))) warnings specified_args
  else if String.eqb key "ui_floating_precision" then
    assign key (VInt <$> int value) warnings specified_args
  else if String.eqb key "include_crypto2crypto" then
    assign key (VBool <$> read_boolean value) warnings specified_args
  else if String.eqb key "taxfree_after_period" then
    match value with
    | PNone => assign key (Ok (VOptInt None)) warnings specified_args
    | _ =>
        match int value with
        | Fail e => (warnings, Fail e)
        | Ok int_value =>
            if int_value <=? 0 then
              assign key (Ok (VOptInt None)) (warnings ++ [NonPositiveTaxfree int_value])
                specified_args
            else
              assign key (Ok (VOptInt (Some int_value))) warnings specified_args
        end
    end
  else if String.eqb key "balance_save_frequency" then
    assign key (VInt <$> int value) warnings specified_args
  else if String.eqb key "main_currency" then
    assign key (VAsset <$> Asset_of_str (str value)) warnings specified_args
  else if String.eqb key "anonymized_logs" then
    assign key (VBool <$> read_boolean value) warnings specified_args
  else if String.eqb key "include_gas_costs" then
    assign key (VBool <$> read_boolean value) warnings specified_args
  else if String.eqb key "date_display_format" then
    assign key (Ok (VStr (str value))) warnings specified_args
  else if String.eqb key "thousand_separator" then
    assign key (Ok (VStr (str value))) warnings specified_args
  else if String.eqb key "decimal_separator" then
    assign key (Ok (VStr (str value))) warnings specified_args
  else if String.eqb key "currency_location" then
    assign key (Ok (VStr (str value))) warnings specified_args
  else if String.eqb key "premium_should_sync" then
    assign key (VBool <$> read_boolean value) warnings specified_args
  else if String.eqb key "last_write_ts" then
    assign key (VInt <$> int value) warnings specified_args
  else if String.eqb key "last_data_upload_ts" then
    assign key (VInt <$> int value) warnings specified_args
  else if String.eqb key "last_balance_save" then
    assign key (VInt <$> int value) warnings specified_args
  else if String.eqb key "submit_usage_analytics" then
    assign key (VBool <$> read_boolean value) warnings specified_args
  else if String.eqb key "kraken_account_type" then
    assign key (VKraken <$> KrakenAccountType_deserialize value) warnings specified_args
  else if String.eqb key "active_modules" then
    assign key (VModules <$> json_loads value) warnings specified_args
  else if String.eqb key "frontend_settings" then
    assign key (Ok (VStr (str value))) warnings specified_args
  else
    (warnings ++ [UnknownSetting key], Ok specified_args).

Fixpoint settings_loop (items : list (string * PyVal)) (warnings : list Warning)
    (specified_args : gmap string SettingVal)
  : list Warning * Checked (gmap string SettingVal) :=
  match items with
  | [] => (warnings, Ok specified_args)
  | (key, value) :: items' =>
      let '(warnings, r) := add_setting key value warnings specified_args in
      match r with
      | Ok specified_args => settings_loop items' warnings specified_args
      | Fail e => (warnings, Fail e)
      end
  end.

(** [specified_args.get(key, default)] for each kind of field. *)
Definition arg_bool (args : gmap string SettingVal) (key : string) (default_ : bool) : bool :=
  match args !! key with Some (VBool b) => b | _ => default_ end.
Definition arg_int (args : gmap string SettingVal) (key : string) (default_ : Z) : Z :=
  match args !! key with Some (VInt z) => z | _ => default_ end.
Definition arg_opt_int (args : gmap string SettingVal) (key : string) (default_ : option Z)
  : option Z :=
  match args !! key with Some (VOptInt o) => o | _ => default_ end.
Definition arg_str (args : gmap string SettingVal) (key : string) (default_ : string) : string :=
  match args !! key with Some (VStr s) => s | _ => default_ end.
Definition arg_asset (args : gmap string SettingVal) (key : string) (default_ : Asset) : Asset :=
  match args !! key with Some (VAsset a) => a | _ => default_ end.
Definition arg_kraken (args : gmap string SettingVal) (key : string)
    (default_ : KrakenAccountType) : KrakenAccountType :=
  match args !! key with Some (VKraken k) => k | _ => default_ end.
Definition arg_modules (args : gmap string SettingVal) (key : string)
    (default_ : list string) : list string :=
  match args !! key with Some (VModules l) => l | _ => default_ end.

(** [DBSettings] built from the keywords [specified_args]: a field that is not
    specified has its default. *)
Definition DBSettings_of_args (args : gmap string SettingVal) : DBSettings :=
  {| have_premium := arg_bool args "have_premium" false;
     version := arg_int args "version" ROTKEHLCHEN_DB_VERSION;
     last_write_ts := arg_int args "last_write_ts" 0;
     premium_should_sync := arg_bool args "premium_should_sync" DEFAULT_PREMIUM_SHOULD_SYNC;
     include_crypto2crypto :=
       arg_bool args "include_crypto2crypto" DEFAULT_INCLUDE_CRYPTO2CRYPTO;
     anonymized_logs := arg_bool args "anonymized_logs" DEFAULT_ANONYMIZED_LOGS;
     last_data_upload_ts := arg_int args "last_data_upload_ts" 0;
     ui_floating_precision :=
       arg_int args "ui_floating_precision" DEFAULT_UI_FLOATING_PRECISION;
     taxfree_after_period :=
       arg_opt_int args "taxfree_after_period" (Some DEFAULT_TAXFREE_AFTER_PERIOD);
     balance_save_frequency :=
       arg_int args "balance_save_frequency" DEFAULT_BALANCE_SAVE_FREQUENCY;
     include_gas_costs := arg_bool args "include_gas_costs" DEFAULT_INCLUDE_GAS_COSTS;
     historical_data_start := arg_str args "historical_data_start" DEFAULT_START_DATE;
     eth_rpc_endpoint := arg_str args "eth_rpc_endpoint" "http://localhost:8545";
     main_currency := arg_asset args "main_currency" DEFAULT_MAIN_CURRENCY;
     date_display_format := arg_str args "date_display_format" DEFAULT_DATE_DISPLAY_FORMAT;
     thousand_separator := arg_str args "thousand_separator" DEFAULT_THOUSAND_SEPARATOR;
     decimal_separator := arg_str args "decimal_separator" DEFAULT_DECIMAL_SEPARATOR;
     currency_location := arg_str args "currency_location" DEFAULT_CURRENCY_LOCATION;
     last_balance_save := arg_int args "last_balance_save" 0;
     submit_usage_analytics :=
       arg_bool args "submit_usage_analytics" DEFAULT_SUBMIT_USAGE_ANALYTICS;
     kraken_account_type := arg_kraken args "kraken_account_type" DEFAULT_KRAKEN_ACCOUNT_TYPE;
     active_modules := arg_modules args "active_modules" DEFAULT_ACTIVE_MODULES;
     frontend_settings := arg_str args "frontend_settings" "" |}.

(** [settings_dict] is given as the list of its items, in the order of
    [settings_dict.items()]; the result comes with the warnings of the
    aggregator. *)
Definition db_settings_from_dict (settings_dict : list (string * PyVal))
    (warnings : list Warning) : list Warning * Checked DBSettings :=
  let '(warnings, r) := settings_loop settings_dict warnings ∅ in
  (warnings, DBSettings_of_args <$> r).

(** The keys [db_settings_from_dict] reads, and the fields
    [ModifiableDBSettings.serialize] writes. *)
Definition KNOWN_SETTINGS : list string :=
  [ "have_premium"; "version"; "historical_data_start"; "eth_rpc_endpoint";
    "ui_floating_precision"; "include_crypto2crypto"; "taxfree_after_period";
    "balance_save_frequency"; "main_currency"; "anonymized_logs"; "include_gas_costs";
    "date_display_format"; "thousand_separator"; "decimal_separator"; "currency_location";
    "premium_should_sync"; "last_write_ts"; "last_data_upload_ts"; "last_balance_save";
    "submit_usage_analytics"; "kraken_account_type"; "active_modules";
    "frontend_settings" ]%string.

Definition MODIFIABLE_SETTINGS : list string :=
  [ "premium_should_sync"; "include_crypto2crypto"; "anonymized_logs";
    "ui_floating_precision"; "taxfree_after_period"; "balance_save_frequency";
    "include_gas_costs"; "historical_data_start"; "eth_rpc_endpoint"; "main_currency";
    "date_display_format"; "thousand_separator"; "decimal_separator"; "currency_location";
    "submit_usage_analytics"; "kraken_account_type"; "active_modules";
    "frontend_settings" ]%string.

(** What the body of the loop does for an item of key [key], as [run]: it adds
    the warnings [new], and it either raises ([r] is [Fail]), or leaves
    [specified_args] alone ([Ok None]), or sets the entry of the key
    ([Ok (Some v)]).  A key that is not known only adds its warning; a known
    key adds none, or the one on a value of [taxfree_after_period] that is not
    positive; [taxfree_after_period] is set to [None] or to a positive number. *)
Definition setting_effect (key : string)
    (run : list Warning -> gmap string SettingVal ->
           list Warning * Checked (gmap string SettingVal))
    (new : list Warning) (r : Checked (option SettingVal)) : Prop :=
  (forall warnings specified_args,
      run warnings specified_args
      = (warnings ++ new,
         match r with
         | Ok (Some v) => Ok (<[key := v]> specified_args)
         | Ok None => Ok specified_args
         | Fail e => Fail e
         end)) /\
  (key ∉ KNOWN_SETTINGS -> new = [UnknownSetting key] /\ r = Ok None) /\
  (key ∈ KNOWN_SETTINGS ->
     r <> Ok None /\
     (new = [] \/
      exists int_value, new = [NonPositiveTaxfree int_value] /\ int_value <= 0 /\
                        key = "taxfree_after_period"%string /\
                        r = Ok (Some (VOptInt None)))) /\
  (key = "taxfree_after_period"%string ->
     forall v, r = Ok (Some v) ->
               v = VOptInt None \/ exists n, 0 < n /\ v = VOptInt (Some n)).

(** ** The loops over the addresses *)

(** The requests of a loop over [l], made one after the other until one
    fails: the state the last one left, and the outcomes. *)
Fixpoint ask_each {St A B : Type} (request : A -> Prog St B) (l : list A) (s : St)
  : St * list (Outcome B) :=
  match l with
  | [] => (s, [])
  | x :: l' =>
      let '(s1, o) := request x s in
      match o with
      | Done _ => let '(s2, os) := ask_each request l' s1 in (s2, o :: os)
      | _ => (s1, [o])
      end
  end.

(** What a dictionary filled by [if len(v) != 0: d[k] = v], for the pairs
    [(k, v)] of [items] in order, holds under [a]: the last value given for
    [a] that is not empty. *)
Definition last_nonempty {A : Type} (items : list (ChecksumEthAddress * list A))
    (a : ChecksumEthAddress) : option (list A) :=
  snd <$> last (filter (fun item => item.1 = a /\ length item.2 <> 0%nat) items).

(** The chain queries of [get_balances_chain], each given the two sets of
    assets as the query before left them, until one fails. *)
Fixpoint chain_queries {St : Type}
    (lp_token_balances :
       ChecksumEthAddress -> list EthereumToken * list UnknownEthereumToken ->
       Prog St (list LiquidityPool.t * (list EthereumToken * list UnknownEthereumToken)))
    (addresses : list ChecksumEthAddress)
    (sets : list EthereumToken * list UnknownEthereumToken) (s : St)
  : St * list (Outcome (list LiquidityPool.t * (list EthereumToken * list UnknownEthereumToken))) :=
  match addresses with
  | [] => (s, [])
  | address_ :: addresses' =>
      let '(s1, o) := lp_token_balances address_ sets s in
      match o with
      | Done (_, sets1) =>
          let '(s2, os) := chain_queries lp_token_balances addresses' sets1 s1 in (s2, o :: os)
      | _ => (s1, [o])
      end
  end.

(** ** Sample inputs *)

Definition DAI : Token := Known (mkEthereumToken "DAI" "0x6B17" "Multi Collateral Dai" 18).
Definition WETH : Token := Known (mkEthereumToken "WETH" "0xC02a" "Wrapped Ether" 18).

Definition sample_swap (tx : string) (ts log : Z) (a0_in a1_in a0_out a1_out : Z) : AMMSwap :=
  {| tx_hash := tx; log_index := log; address := "0xUser"; from_address := "0xRouter";
     to_address := "0xUser"; timestamp := ts; location := UNISWAP;
     token0 := DAI; token1 := WETH;
     amount0_in := fval a0_in; amount1_in := fval a1_in;
     amount0_out := fval a0_out; amount1_out := fval a1_out |}.

Definition DAI_token : EthereumToken :=
  mkEthereumToken "DAI" "0x6B17" "Multi Collateral Dai" 18.

(** A resolver that knows no token. *)
Definition sample_resolver (symbol : string) (addr : ChecksumEthAddress) (name : string)
    (decimals : Z) : Token :=
  Unknown {| ut_ethereum_address := addr; ut_symbol := symbol;
             ut_name := name; ut_decimals := decimals |}.

(** A subgraph without swaps, whose state is the list of the requests it got. *)
Definition sample_graph_query_swaps (param_values : ParamValues (string * Timestamp * Timestamp))
  : Prog (list (ParamValues (string * Timestamp * Timestamp))) (list (list GraphSwap)) :=
  fun requests => (requests ++ [param_values], Done []).

(** A swaps table kept as a list. *)
Definition sample_add_amm_swaps (new : list AMMSwap) (store : list AMMSwap) : list AMMSwap :=
  store ++ new.

Definition sample_get_amm_swaps (from_ts to_ts : Timestamp) (loc : Location)
    (addr : ChecksumEthAddress) (store : list AMMSwap) : list AMMSwap :=
  filter (fun s => address s = addr /\ from_ts <= timestamp s <= to_ts) store.

(** A fresh database, and one in which the range [(0, 100)] is recorded for
    the address [0xA]. *)
Definition sample_env0 : Env (list (ParamValues (string * Timestamp * Timestamp))) (list AMMSwap) :=
  {| graph := []; used_query_ranges := ∅; amm_swaps := [] |}.

Definition sample_env_synced
  : Env (list (ParamValues (string * Timestamp * Timestamp))) (list AMMSwap) :=
  {| graph := [];
     used_query_ranges := {[ "uniswap_trades_0xA"%string := (0, 100) ]};
     amm_swaps := [] |}.

(** A source of daily prices that holds three records and serves them by pages
    of two; its state is the list of the offsets it was asked for. *)
Definition sample_day_datas : list TokenDayData :=
  [ mkTokenDayData "0xa" (fval 1); mkTokenDayData "0xb" (fval 2); mkTokenDayData "0xc" (fval 3) ].

Definition sample_graph_query_prices (param_values : ParamValues (list string * Z))
  : Prog (list Z) (list TokenDayData) :=
  fun offsets =>
    (offsets ++ [offset param_values],
     Done (take (Z.to_nat (limit param_values))
             (drop (Z.to_nat (offset param_values)) sample_day_datas))).

(** A pool of two assets, none priced yet. *)
Definition sample_pool : LiquidityPool.t :=
  {| LiquidityPool.address := "0xPair";
     LiquidityPool.assets :=
       [ LiquidityPoolAsset.mk DAI (fval 1000) (Balance.of_amount (fval 10)) ZERO;
         LiquidityPoolAsset.mk WETH (fval 5) (Balance.of_amount (fval 2)) ZERO ];
     LiquidityPool.total_supply := fval 100;
     LiquidityPool.user_balance := Balance.of_amount (fval 1) |}.

(** A resolver that knows DAI by its address and no other token. *)
Definition sample_known_resolver (symbol : string) (addr : ChecksumEthAddress) (name : string)
    (decimals : Z) : Token :=
  if decide (addr = "0x6B17"%string) then DAI
  else Unknown {| ut_ethereum_address := addr; ut_symbol := symbol;
                  ut_name := name; ut_decimals := decimals |}.

(** One swap of the subgraph, alone in its transaction: 100 of token 0 in, 40
    of token 1 out. *)
Definition sample_graph_swap : GraphSwap :=
  {| gs_id := "0xaa-0"; gs_logIndex := 0; gs_sender := "0xRouter"; gs_to := "0xUser";
     gs_timestamp := 7;
     gs_pair_token0 := mkGraphToken "DAI" "0x6B17" "Multi Collateral Dai" 18;
     gs_pair_token1 := mkGraphToken "WETH" "0xC02a" "Wrapped Ether" 18;
     gs_amount0In := fval 100; gs_amount1In := fval 0;
     gs_amount0Out := fval 0; gs_amount1Out := fval 40 |}.

(** A subgraph that holds this one transaction and one that holds a transaction
    without swaps; the state of each is the list of the offsets it was asked
    for. *)
Definition sample_graph_query_tx (param_values : ParamValues (string * Timestamp * Timestamp))
  : Prog (list Z) (list (list GraphSwap)) :=
  fun offsets =>
    (offsets ++ [offset param_values],
     Done (if offset param_values =? 0 then [[sample_graph_swap]] else [])).

Definition sample_graph_query_empty_tx
    (param_values : ParamValues (string * Timestamp * Timestamp))
  : Prog (list Z) (list (list GraphSwap)) :=
  fun offsets => (offsets ++ [offset param_values], Done [[]]).

(** A liquidity position: 1 of the 100 pool tokens of a DAI/WETH pair. *)
Definition sample_position : LiquidityPosition :=
  {| lp_user_id := "0xUser"; lp_liquidityTokenBalance := fval 1;
     lp_pair_id := "0xPair"; lp_pair_totalSupply := fval 100;
     lp_pair_reserve0 := fval 1000; lp_pair_reserve1 := fval 5;
     lp_pair_token0 := mkGraphToken "DAI" "0x6B17" "Multi Collateral Dai" 18;
     lp_pair_token1 := mkGraphToken "WETH" "0xC02a" "Wrapped Ether" 18 |}.

Definition sample_graph_query_positions (param_values : ParamValues (list string * string))
  : Prog (list Z) (list LiquidityPosition) :=
  fun offsets =>
    (offsets ++ [offset param_values],
     Done (take (Z.to_nat (limit param_values))
             (drop (Z.to_nat (offset param_values)) [sample_position]))).

(** Chain queries that find the sample pool for [0xA] and nothing for any other
    address. *)
Definition sample_lp_token_balances (address_ : ChecksumEthAddress)
    (sets : list EthereumToken * list UnknownEthereumToken)
  : Prog (list Z) (list LiquidityPool.t * (list EthereumToken * list UnknownEthereumToken)) :=
  fun offsets =>
    (offsets,
     Done (if decide (address_ = "0xA"%string) then [sample_pool] else [],
           (set_add DAI_token sets.1, sets.2))).

(** Stand-ins for the collaborators of the settings: assets and account types
    are their names, [int] reads integers and booleans and no string, and the
    list of modules is always empty. *)
Definition sample_int (value : PyVal) : Checked Z :=
  match value with
  | PInt z => Ok z
  | PBool b => Ok (if b then 1 else 0)
  | PNone => Fail TypeError
  | PStr _ => Fail ValueError
  end.

Definition sample_str (value : PyVal) : string :=
  match value with
  | PStr s => s
  | PBool b => str_of_bool b
  | PNone => "None"
  | PInt _ => "int"
  end.

Definition sample_str_to_bool (s : string) : Checked bool :=
  if String.eqb s "True" then Ok true
  else if String.eqb s "False" then Ok false
  else Fail DeserializationError.

Definition sample_kraken_deserialize (value : PyVal) : Checked string :=
  match value with
  | PStr s => Ok s
  | _ => Fail DeserializationError
  end.

Definition sample_json_loads (value : PyVal) : Checked (list string) := Ok [].

Definition sample_json_dumps (modules : list string) : string := "[]".

(** A subgraph that holds the sample transaction for the address [0xUser] and
    nothing for any other address; its state is the list of the addresses it
    was asked about. *)
Definition sample_graph_query_user
    (param_values : ParamValues (string * Timestamp * Timestamp))
  : Prog (list string) (list (list GraphSwap)) :=
  fun asked =>
    (asked ++ [(bindings param_values).1.1],
     Done (if decide ((bindings param_values).1.1 = "0xUser"%string)
           then (if offset param_values =? 0 then [[sample_graph_swap]] else [])
           else [])).

(** Over that subgraph, a database in which the range [(0, 100)] is recorded
    for the address [0xB]. *)
Definition sample_env_user : Env (list string) (list AMMSwap) :=
  {| graph := [];
     used_query_ranges := {[ "uniswap_trades_0xB"%string := (0, 100) ]};
     amm_swaps := [] |}.

(** * Properties *)

(** ** Numbers and indexing *)

Lemma fval_gt_spec (a b : FVal) : fval_gt a b = true <-> (b < a)%Qc.
Proof.
  unfold fval_gt, Qclt. rewrite negb_true_iff.
  destruct (Qle_bool (this a) (this b)) eqn:E.
  - apply Qle_bool_iff in E. split; [discriminate | intros H; exfalso; now apply (Qlt_not_le _ _ H)].
  - split; [intros _ | reflexivity].
    apply Qnot_le_lt. intros H. apply Qle_bool_iff in H. congruence.
Qed.

Lemma fval_ne_spec (a b : FVal) : fval_ne a b = true <-> a <> b.
Proof.
  unfold fval_ne. rewrite negb_true_iff.
  destruct (Qeq_bool (this a) (this b)) eqn:E.
  - apply Qeq_bool_iff in E. apply Qc_is_canon in E. split; [discriminate | congruence].
  - split; [intros _ Heq | reflexivity]. subst b.
    assert (Qeq_bool (this a) (this a) = true) by (apply Qeq_bool_iff; reflexivity). congruence.
Qed.

Lemma fval_ne_refl (a : FVal) : fval_ne a a = false.
Proof.
  destruct (fval_ne a a) eqn:E; [|reflexivity]. apply fval_ne_spec in E. congruence.
Qed.

Lemma fval_gt_ne (a : FVal) : fval_gt a ZERO = true -> fval_ne a ZERO = true.
Proof.
  intros H. apply fval_ne_spec. intros ->. apply fval_gt_spec in H.
  now apply Qclt_not_eq in H.
Qed.

Lemma py_index_nil {A : Type} (i : Z) : py_index (@nil A) i = Raise IndexError.
Proof.
  unfold py_index. simpl length.
  set (j := if i <? 0 then Z.of_nat 0 + i else i).
  destruct ((0 <=? j) && (j <? Z.of_nat 0)) eqn:E; [|reflexivity].
  apply andb_true_iff in E as [E1 E2].
  apply Z.leb_le in E1. apply Z.ltb_lt in E2. lia.
Qed.

Lemma py_index_head {A : Type} (l : list A) (x : A) :
  head l = Some x -> py_index l 0 = Done x.
Proof.
  destruct l as [|y l]; [discriminate|]. intros [= ->].
  unfold py_index. replace (0 <? 0) with false by reflexivity.
  destruct (Z.leb_spec 0 0); [|lia].
  destruct (Z.ltb_spec 0 (Z.of_nat (length (x :: l)))); [reflexivity | simpl in *; lia].
Qed.

Lemma py_index_last {A : Type} (l : list A) (x : A) :
  last l = Some x -> py_index l (-1) = Done x.
Proof.
  intros H. rewrite last_lookup in H.
  assert (length l <> 0%nat) by (intros E; rewrite E in H; destruct l; discriminate).
  unfold py_index. replace (-1 <? 0) with true by reflexivity.
  replace (Z.to_nat (Z.of_nat (length l) + -1)) with (Nat.pred (length l)) by lia.
  rewrite H.
  destruct (Z.leb_spec 0 (Z.of_nat (length l) + -1)); [|lia].
  destruct (Z.ltb_spec (Z.of_nat (length l) + -1) (Z.of_nat (length l))); [reflexivity | lia].
Qed.

Lemma py_index_cons_ok {A : Type} (x : A) (l : list A) :
  (exists y, py_index (x :: l) 0 = Done y) /\ (exists z, py_index (x :: l) (-1) = Done z).
Proof.
  split.
  - exists x. now apply py_index_head.
  - destruct (last (x :: l)) as [z|] eqn:E.
    + exists z. now apply py_index_last.
    + apply last_None in E. discriminate.
Qed.
(** ** Trade derivation *)

(** Equal records and lists up to the canonical form of the numbers in them. *)
Ltac fval_fields :=
  repeat first [ apply Qc_is_canon; reflexivity | reflexivity | progress f_equal ].

(** [_tx_swaps_to_trades] reads only the first and the last swap of the group. *)
Lemma tx_swaps_to_trades_unfold (swaps : list AMMSwap) (first last_ : AMMSwap) :
  head swaps = Some first -> last swaps = Some last_ ->
  _tx_swaps_to_trades swaps =
    (let both_in := fval_gt (amount0_in first) ZERO && fval_gt (amount1_in first) ZERO in
     let both_out := fval_gt (amount0_out last_) ZERO && fval_gt (amount1_out last_) ZERO in
     let quote_assets := quote_legs first both_in both_out in
     '(trades, trade_index) ←
        (if fval_gt (amount0_out last_) ZERO then
           trades ← add_trades_from_swaps swaps [] both_in quote_assets
                      (amount0_out last_) (token0 last_) 0;
           Done (trades, 0 + Z.of_nat (length trades))
         else Done ([], 0));
     if fval_gt (amount1_out last_) ZERO then
       add_trades_from_swaps swaps trades both_in quote_assets
         (amount1_out last_) (token1 last_) trade_index
     else Done trades).
Proof.
  intros Hf Hl. unfold _tx_swaps_to_trades.
  rewrite (py_index_head _ _ Hf), (py_index_last _ _ Hl). reflexivity.
Qed.

(** C1, as the code has it: one swap with [amount0_in = 100], [amount1_out = 40]
    and the two other amounts zero gives exactly one trade, a BUY of index 0
    with base asset [token1], quote asset [token0] and bought amount 40; its
    rate is bought over sold, 40/100 = 0.4. *)
Theorem single_sided_derivation (s : AMMSwap) :
  amount0_in s = fval 100 -> amount1_in s = fval 0 ->
  amount0_out s = fval 0 -> amount1_out s = fval 40 ->
  exists t : AMMTrade,
    (_tx_swaps_to_trades [s] = Done [t]) /\
    (trade_type t = BUY) /\
    (base_asset t = token1 s) /\
    (quote_asset t = token0 s) /\
    (amount t = fval 40) /\
    (rate t = (fval 40 / fval 100)%Qc) /\
    (rate t = Q2Qc (4 # 10)) /\
    (swaps t = [s]) /\
    (trade_index t = 0).
Proof.
  intros H0i H1i H0o H1o.
  rewrite (tx_swaps_to_trades_unfold [s] s s eq_refl eq_refl).
  unfold quote_legs, add_trades_from_swaps.
  rewrite H0i, H1i, H0o, H1o.
  eexists; split; [vm_compute; reflexivity|].
  cbn [trade_type base_asset quote_asset amount rate swaps trade_index].
  repeat split; apply Qc_is_canon; reflexivity.
Qed.

Lemma single_sided_derivation_witness :
  exists t : AMMTrade,
    (_tx_swaps_to_trades [sample_swap "0xaa" 7 0 100 0 0 40] = Done [t]) /\
    (base_asset t = WETH) /\ (quote_asset t = DAI) /\
    (amount t = fval 40) /\ (rate t = Q2Qc (4 # 10)).
Proof.
  destruct (single_sided_derivation (sample_swap "0xaa" 7 0 100 0 0 40)
              eq_refl eq_refl eq_refl eq_refl)
    as (t & Hrun & _ & Hbase & Hquote & Hamount & _ & Hrate & _).
  exists t. repeat split; assumption.
Defined.

(** C1 as the claim words it fails: the rate of the trade is not 100/40 = 2.5. *)
Lemma single_sided_rate_is_not_sold_over_bought :
  ~ (exists t : AMMTrade,
       (_tx_swaps_to_trades [sample_swap "0xaa" 7 0 100 0 0 40] = Done [t]) /\
       (base_asset t = WETH) /\ (quote_asset t = DAI) /\
       (amount t = fval 40) /\ (rate t = (fval 100 / fval 40)%Qc)).
Proof.
  intros (t & Hrun & _ & _ & _ & Hrate).
  vm_compute in Hrun. injection Hrun as <-.
  apply (f_equal this) in Hrate. vm_compute in Hrate. discriminate.
Qed.

(** C2: a group whose first swap has [amount0_in = 10] and [amount1_in = 20]
    and whose last swap has [amount0_out = 6] and [amount1_out = 3] has the two
    quote legs [(token0, 5)] and [(token1, 10)] and gives exactly four BUY
    trades, of indices 0, 1, 2, 3: two of base [token0] buying 3 each, then two
    of base [token1] buying 1.5 each, each against the quote legs in order, at
    the rates 3/5, 3/10, 1.5/5 and 1.5/10. *)
Theorem both_in_both_out_split (group : list AMMSwap) (first last_ : AMMSwap) :
  head group = Some first -> last group = Some last_ ->
  amount0_in first = fval 10 -> amount1_in first = fval 20 ->
  amount0_out last_ = fval 6 -> amount1_out last_ = fval 3 ->
  (quote_legs first true true = [(token0 first, fval 5); (token1 first, fval 10)]) /\
  (_tx_swaps_to_trades group =
     Done [ mkAMMTrade BUY (token0 last_) (token0 first) (fval 3) (Q2Qc (3 # 5)) group 0;
            mkAMMTrade BUY (token0 last_) (token1 first) (fval 3) (Q2Qc (3 # 10)) group 1;
            mkAMMTrade BUY (token1 last_) (token0 first) (Q2Qc (3 # 2)) (Q2Qc (3 # 10)) group 2;
            mkAMMTrade BUY (token1 last_) (token1 first) (Q2Qc (3 # 2)) (Q2Qc (3 # 20)) group 3 ]).
Proof.
  intros Hf Hl H0i H1i H0o H1o.
  rewrite (tx_swaps_to_trades_unfold group first last_ Hf Hl).
  unfold quote_legs, add_trades_from_swaps.
  rewrite H0i, H1i, H0o, H1o.
  split.
  - cbn [negb]. fval_fields.
  - cbv -[token0 token1 Qred_involutive]. fval_fields.
Qed.

Lemma both_in_both_out_split_witness :
  let first := sample_swap "0xbb" 9 0 10 20 0 0 in
  let last_ := sample_swap "0xbb" 9 1 0 0 6 3 in
  _tx_swaps_to_trades [first; last_] =
    Done [ mkAMMTrade BUY DAI DAI (fval 3) (Q2Qc (3 # 5)) [first; last_] 0;
           mkAMMTrade BUY DAI WETH (fval 3) (Q2Qc (3 # 10)) [first; last_] 1;
           mkAMMTrade BUY WETH DAI (Q2Qc (3 # 2)) (Q2Qc (3 # 10)) [first; last_] 2;
           mkAMMTrade BUY WETH WETH (Q2Qc (3 # 2)) (Q2Qc (3 # 20)) [first; last_] 3 ].
Proof.
  intros first last_.
  exact (proj2 (both_in_both_out_split [first; last_] first last_
                  eq_refl eq_refl eq_refl eq_refl eq_refl eq_refl)).
Defined.

(** A leg whose sold amount is zero makes [add_trades_from_swaps] divide a
    positive bought amount by zero. *)
Lemma add_trades_zero_sold (group : list AMMSwap) (trades : list AMMTrade)
    (quote : Token) (token_amount : AssetAmount) (token : Token) (i : Z) :
  fval_gt token_amount ZERO = true ->
  add_trades_from_swaps group trades false [(quote, ZERO)] token_amount token i
  = Raise DivisionByZero.
Proof.
  intros Hpos. unfold add_trades_from_swaps. cbn [for_each add_trade fst snd].
  unfold fval_div. rewrite fval_ne_refl, (fval_gt_ne _ Hpos). reflexivity.
Qed.

(** C4: when both inbound amounts of the first swap are zero, the [else]
    branch selects the quote leg [(token1, 0)]; if the last swap has a positive
    outbound amount, the rate [bought_amount / sold_amount] divides by that
    zero and nothing guards it: [decimal.DivisionByZero] is raised. *)
Theorem zero_inbound_divides_by_zero (group : list AMMSwap) (first last_ : AMMSwap) :
  head group = Some first -> last group = Some last_ ->
  amount0_in first = ZERO -> amount1_in first = ZERO ->
  (0 < amount0_out last_)%Qc \/ (0 < amount1_out last_)%Qc ->
  (quote_legs first
     (fval_gt (amount0_in first) ZERO && fval_gt (amount1_in first) ZERO)
     (fval_gt (amount0_out last_) ZERO && fval_gt (amount1_out last_) ZERO)
   = [(token1 first, ZERO)]) /\
  (_tx_swaps_to_trades group = Raise DivisionByZero).
Proof.
  intros Hf Hl H0i H1i Hout.
  rewrite (tx_swaps_to_trades_unfold group first last_ Hf Hl).
  unfold quote_legs. rewrite H0i, H1i.
  replace (fval_gt ZERO ZERO) with false by reflexivity. cbn [andb].
  split; [reflexivity|].
  destruct (fval_gt (amount0_out last_) ZERO) eqn:E0.
  - rewrite add_trades_zero_sold by assumption. reflexivity.
  - destruct Hout as [H|H]; apply fval_gt_spec in H; [unfold ZERO in E0; congruence|].
    cbn [mbind outcome_bind]. unfold ZERO. rewrite H.
    apply add_trades_zero_sold. exact H.
Qed.

Lemma zero_inbound_divides_by_zero_witness :
  exists group : list AMMSwap,
    group <> [] /\
    _tx_swaps_to_trades group = Raise DivisionByZero.
Proof.
  exists [sample_swap "0xcc" 11 0 0 0 0 40]. split; [discriminate|].
  refine (proj2 (zero_inbound_divides_by_zero [sample_swap "0xcc" 11 0 0 0 0 40]
                   (sample_swap "0xcc" 11 0 0 0 0 40)
                   (sample_swap "0xcc" 11 0 0 0 0 40) eq_refl eq_refl _ _ _)).
  - apply Qc_is_canon; reflexivity.
  - apply Qc_is_canon; reflexivity.
  - right. reflexivity.
Defined.

(** ** The sort of [swaps_to_trades] *)

Lemma key_lt_spec (a b : Z * Z) :
  key_lt a b = true <-> a.1 < b.1 \/ (a.1 = b.1 /\ a.2 < b.2).
Proof.
  unfold key_lt. rewrite orb_true_iff, andb_true_iff, Z.ltb_lt, Z.eqb_eq, Z.ltb_lt.
  reflexivity.
Qed.

Lemma key_lt_false (a b : Z * Z) :
  key_lt a b = false <-> b.1 < a.1 \/ (a.1 = b.1 /\ b.2 <= a.2).
Proof.
  destruct (key_lt a b) eqn:E.
  - apply key_lt_spec in E. split; [discriminate | lia].
  - split; [intros _ | reflexivity].
    destruct (Z.lt_trichotomy a.1 b.1) as [H | [H | H]].
    + assert (key_lt a b = true) by (apply key_lt_spec; lia). congruence.
    + destruct (Z.lt_ge_cases a.2 b.2) as [H' | H']; [|lia].
      assert (key_lt a b = true) by (apply key_lt_spec; lia). congruence.
    + lia.
Qed.

(** [a] may stand before [b] in the sorted list: the key of [a] is not less. *)
Definition not_below (a b : AMMSwap) : Prop := key_lt (sort_key a) (sort_key b) = false.

Lemma not_below_trans (a b c : AMMSwap) : not_below a b -> not_below b c -> not_below a c.
Proof. unfold not_below. rewrite !key_lt_false. lia. Qed.

Lemma insert_desc_perm (x : AMMSwap) (l : list AMMSwap) : insert_desc x l ≡ₚ x :: l.
Proof.
  induction l as [|y l IH]; simpl; [reflexivity|].
  destruct (key_lt _ _); [|reflexivity].
  rewrite IH. apply Permutation_swap.
Qed.

Lemma sort_reverse_perm (l : list AMMSwap) : sort_reverse l ≡ₚ l.
Proof.
  induction l as [|x l IH]; simpl; [reflexivity|].
  fold (sort_reverse l). rewrite insert_desc_perm. now rewrite IH.
Qed.

Lemma sort_reverse_length (l : list AMMSwap) : length (sort_reverse l) = length l.
Proof. apply Permutation_length, sort_reverse_perm. Qed.

Lemma insert_desc_sorted (x : AMMSwap) (l : list AMMSwap) :
  StronglySorted not_below l -> StronglySorted not_below (insert_desc x l).
Proof.
  induction 1 as [|y l Hs IH Hy]; simpl.
  - repeat constructor.
  - destruct (key_lt (sort_key x) (sort_key y)) eqn:E.
    + constructor; [exact IH|].
      rewrite insert_desc_perm. constructor; [|exact Hy].
      unfold not_below. apply key_lt_spec in E. apply key_lt_false. lia.
    + constructor; [now constructor|].
      constructor; [exact E|].
      eapply Forall_impl; [exact Hy|]. intros z Hz. eapply not_below_trans; eauto.
Qed.

(** The sort is descending in the key ... *)
Lemma sort_reverse_sorted (l : list AMMSwap) : StronglySorted not_below (sort_reverse l).
Proof.
  induction l as [|x l IH]; simpl; [constructor|]. now apply insert_desc_sorted.
Qed.

Lemma insert_desc_stable (k : Z * Z) (x : AMMSwap) (l : list AMMSwap) :
  filter (fun s => sort_key s = k) (insert_desc x l) = filter (fun s => sort_key s = k) (x :: l).
Proof.
  induction l as [|y l IH]; simpl; [reflexivity|].
  destruct (key_lt (sort_key x) (sort_key y)) eqn:E; [|reflexivity].
  rewrite filter_cons, IH, !filter_cons.
  destruct (decide (sort_key y = k)) as [Hy|Hy], (decide (sort_key x = k)) as [Hx|Hx];
    try reflexivity.
  exfalso. rewrite Hx, Hy in E. apply key_lt_spec in E. lia.
Qed.

(** ... and stable: the records of one key keep the order they came in. *)
Lemma sort_reverse_stable (k : Z * Z) (l : list AMMSwap) :
  filter (fun s => sort_key s = k) (sort_reverse l) = filter (fun s => sort_key s = k) l.
Proof.
  induction l as [|x l IH]; simpl; [reflexivity|].
  fold (sort_reverse l). rewrite insert_desc_stable, !filter_cons, IH. reflexivity.
Qed.

(** ** The grouping loop *)

Lemma extend_all_app {A T : Type} (f : A -> Outcome (list T)) (g1 g2 : list A) :
  extend_all f (g1 ++ g2) =
    (new1 ← extend_all f g1; new2 ← extend_all f g2; Done (new1 ++ new2)).
Proof.
  induction g1 as [|g g1 IH]; simpl.
  - destruct (extend_all f g2); reflexivity.
  - destruct (f g) as [n| |]; simpl; [|reflexivity..].
    rewrite IH. destruct (extend_all f g1) as [n1| |]; simpl; [|reflexivity..].
    destruct (extend_all f g2) as [n2| |]; simpl; [|reflexivity..].
    now rewrite app_assoc.
Qed.

Lemma extend_all_record {A : Type} (groups : list A) :
  extend_all (fun group => Done [group]) groups = Done groups.
Proof. induction groups as [|g groups IH]; simpl; [reflexivity|]. now rewrite IH. Qed.

Lemma group_step_same {T : Type} (f : list AMMSwap -> Outcome (list T))
    (trades : list T) (cur : list AMMSwap) (h : string) (swap : AMMSwap) :
  tx_hash swap = h ->
  group_step f (trades, cur, h) swap = Done (trades, cur ++ [swap], tx_hash swap).
Proof. intros H. unfold group_step. destruct (decide _); [reflexivity | contradiction]. Qed.

Lemma group_step_new {T : Type} (f : list AMMSwap -> Outcome (list T))
    (trades : list T) (cur : list AMMSwap) (h : string) (swap : AMMSwap) :
  tx_hash swap <> h ->
  group_step f (trades, cur, h) swap =
    (new ← f cur; Done (trades ++ new, [swap], tx_hash swap)).
Proof.
  intros H. unfold group_step. destruct (decide _); [contradiction|].
  destruct (f cur); reflexivity.
Qed.

(** The loop of [swaps_to_trades] cuts the sorted list into groups that do not
    depend on the callee: it hands over [groups], one after the other, and is
    left with [current_swaps].  No group is empty when the loop starts with
    pending swaps or on a swap of the hash it was set up with. *)
Lemma group_loop_groups (l : list AMMSwap) :
  forall (current_swaps : list AMMSwap) (last_tx_hash : string),
  exists (groups : list (list AMMSwap)) (current_swaps' : list AMMSwap) (last_tx_hash' : string),
    (forall (T : Type) (f : list AMMSwap -> Outcome (list T)) (trades : list T),
        for_each (group_step f) l (trades, current_swaps, last_tx_hash) =
          (new ← extend_all f groups; Done (trades ++ new, current_swaps', last_tx_hash'))) /\
    (current_swaps <> [] \/ (exists x, head l = Some x /\ tx_hash x = last_tx_hash) ->
       Forall (fun group => group <> []) groups /\ current_swaps' <> []).
Proof.
  induction l as [|swap l IH]; intros cur h.
  - exists [], cur, h. split.
    + intros T f trades. simpl. now rewrite app_nil_r.
    + intros [H | (x & Hx & _)]; [auto | discriminate].
  - destruct (decide (tx_hash swap = h)) as [Heq | Hne].
    + destruct (IH (cur ++ [swap]) (tx_hash swap)) as (gs & cur' & h' & Hrun & Hne).
      exists gs, cur', h'. split.
      * intros T f trades. cbn [for_each]. rewrite group_step_same by assumption.
        cbn [mbind outcome_bind]. apply Hrun.
      * intros _. apply Hne. left. now destruct cur.
    + destruct (IH [swap] (tx_hash swap)) as (gs & cur' & h' & Hrun & Hnonempty).
      exists (cur :: gs), cur', h'. split.
      * intros T f trades. cbn [for_each]. rewrite group_step_new by assumption.
        cbn [extend_all].
        destruct (f cur) as [n| |]; [|reflexivity..].
        cbn [mbind outcome_bind]. rewrite Hrun.
        destruct (extend_all f gs) as [n'| |]; [|reflexivity..].
        cbn. now rewrite app_assoc.
      * intros [Hcur | (x & [= <-] & Hx)]; [|contradiction].
        destruct Hnonempty as [Hgs Hcur']; [left; discriminate|].
        split; [constructor|]; assumption.
Qed.

(** [swaps_to_trades] over any callee: the groups are those of [tx_groups], the
    callee gets each in turn and the results are joined; no group is empty. *)
Lemma swaps_to_trades_with_groups (swaps : list AMMSwap) :
  exists groups : list (list AMMSwap),
    tx_groups swaps = Done groups /\
    Forall (fun group => group <> []) groups /\
    (swaps = [] -> groups = []) /\
    forall (T : Type) (f : list AMMSwap -> Outcome (list T)),
      swaps_to_trades_with f swaps = extend_all f groups.
Proof.
  destruct swaps as [|s0 swaps'].
  - exists []. repeat split; auto.
  - set (swaps := s0 :: swaps').
    destruct (sort_reverse swaps) as [|x sorted] eqn:Hs.
    { pose proof (sort_reverse_length swaps) as Hlen. rewrite Hs in Hlen. discriminate. }
    destruct (group_loop_groups (x :: sorted) [] (tx_hash x))
      as (gs & cur' & h' & Hrun & Hnonempty).
    destruct Hnonempty as [Hgs Hcur']; [right; exists x; now split|].
    assert (Hgen : forall (T : Type) (f : list AMMSwap -> Outcome (list T)),
               swaps_to_trades_with f swaps = extend_all f (gs ++ [cur'])).
    { intros T f. unfold swaps_to_trades_with, swaps.
      fold swaps. rewrite Hs. rewrite (py_index_head (x :: sorted) x eq_refl).
      cbn [mbind outcome_bind]. rewrite Hrun. rewrite extend_all_app.
      destruct (extend_all f gs) as [n| |]; [|reflexivity..].
      cbn [mbind outcome_bind app extend_all].
      destruct cur' as [|c cur']; [contradiction|].
      cbn [length Nat.eqb negb].
      destruct (f (c :: cur')) as [n'| |]; [|reflexivity..].
      cbn. now rewrite app_nil_r. }
    exists (gs ++ [cur']). repeat split.
    + unfold tx_groups. rewrite Hgen. apply extend_all_record.
    + apply Forall_app. split; [exact Hgs|]. now constructor.
    + discriminate.
    + exact Hgen.
Qed.

Lemma add_trade_loop_no_index_error (group : list AMMSwap) (token : Token)
    (bought : AssetAmount) (quote_assets : list (Token * AssetAmount)) :
  forall st, for_each (add_trade group token bought) quote_assets st <> Raise IndexError.
Proof.
  induction quote_assets as [|[q sold] quote_assets IH]; intros [trades i]; [discriminate|].
  cbn [for_each add_trade fst snd]. unfold fval_div.
  destruct (fval_ne sold ZERO); [|destruct (fval_ne bought ZERO); discriminate].
  cbn [mbind outcome_bind]. apply IH.
Qed.

Lemma add_trades_no_index_error group trades both_in quote_assets token_amount token i :
  add_trades_from_swaps group trades both_in quote_assets token_amount token i
  <> Raise IndexError.
Proof.
  unfold add_trades_from_swaps.
  pose proof (add_trade_loop_no_index_error group token
                (if both_in then fval_half token_amount else token_amount)
                quote_assets (trades, i)) as H.
  destruct (for_each _ _ _) as [st|e|]; [discriminate | | discriminate].
  cbn. intros [= ->]. now apply H.
Qed.

(** Only the empty group makes [_tx_swaps_to_trades] index out of range. *)
Lemma tx_swaps_index_error (group : list AMMSwap) :
  _tx_swaps_to_trades group = Raise IndexError <-> group = [].
Proof.
  split; [|intros ->; reflexivity].
  destruct group as [|x l]; [reflexivity|]. intros H. exfalso.
  destruct (last (x :: l)) as [z|] eqn:El; [|apply last_None in El; discriminate].
  rewrite (tx_swaps_to_trades_unfold (x :: l) x z eq_refl El) in H. cbv zeta in H.
  set (both_in := fval_gt (amount0_in x) ZERO && fval_gt (amount1_in x) ZERO) in H.
  set (legs := quote_legs _ _ _) in H.
  destruct (fval_gt (amount0_out z) ZERO).
  - pose proof (add_trades_no_index_error (x :: l) [] both_in legs
                  (amount0_out z) (token0 z) 0) as H0.
    destruct (add_trades_from_swaps (x :: l) [] both_in legs (amount0_out z) (token0 z) 0)
      as [trades| |]; [|contradiction | discriminate].
    cbn [mbind outcome_bind] in H.
    destruct (fval_gt (amount1_out z) ZERO); [|discriminate].
    now apply add_trades_no_index_error in H.
  - cbn [mbind outcome_bind] in H.
    destruct (fval_gt (amount1_out z) ZERO); [|discriminate].
    now apply add_trades_no_index_error in H.
Qed.

Lemma extend_all_no_index_error (groups : list (list AMMSwap)) :
  Forall (fun group => group <> []) groups ->
  extend_all _tx_swaps_to_trades groups <> Raise IndexError.
Proof.
  induction 1 as [|g groups Hg _ IH]; [discriminate|]. cbn [extend_all].
  destruct (_tx_swaps_to_trades g) as [n|e|] eqn:E; cbn [mbind outcome_bind].
  - destruct (extend_all _ groups); [discriminate | exact IH | discriminate].
  - intros [= ->]. apply tx_swaps_index_error in E. contradiction.
  - discriminate.
Qed.

(** C10: on the empty list [swaps_to_trades] answers the empty list and hands
    nothing to [_tx_swaps_to_trades] (whatever function stands in its place is
    not run); on any list, every group handed over is non-empty, so the
    accesses [swaps[0]] and [swaps[-1]] are in bounds: no [IndexError] comes
    out of [swaps_to_trades]. *)
Theorem swaps_to_trades_groups_nonempty :
  (forall (T : Type) (f : list AMMSwap -> Outcome (list T)), swaps_to_trades_with f [] = Done []) /\
  (swaps_to_trades [] = Done []) /\
  (tx_groups [] = Done []) /\
  (forall swaps : list AMMSwap,
      exists groups : list (list AMMSwap),
        (tx_groups swaps = Done groups) /\
        (swaps_to_trades swaps = extend_all _tx_swaps_to_trades groups) /\
        Forall (fun group =>
                  group <> [] /\
                  (exists first, py_index group 0 = Done first) /\
                  (exists last_, py_index group (-1) = Done last_)) groups) /\
  (forall swaps : list AMMSwap, swaps_to_trades swaps <> Raise IndexError).
Proof.
  split; [reflexivity|]. split; [reflexivity|]. split; [reflexivity|]. split.
  - intros swaps.
    destruct (swaps_to_trades_with_groups swaps) as (groups & Hg & Hne & _ & Hrun).
    exists groups. split; [exact Hg|]. split; [apply Hrun|].
    eapply Forall_impl; [exact Hne|]. intros [|x l] Hx; [contradiction|].
    split; [exact Hx|]. apply py_index_cons_ok.
  - intros swaps.
    destruct (swaps_to_trades_with_groups swaps) as (groups & _ & Hne & _ & Hrun).
    unfold swaps_to_trades. rewrite Hrun. now apply extend_all_no_index_error.
Qed.

(** C3, as the code has it: the swaps [(tx=A, ts=10, log=2)], [(tx=A, ts=10,
    log=1)], [(tx=B, ts=5, log=0)] are sorted by [(timestamp, -log_index)]
    descending into [log=1], [log=2] of A and then the swap of B; the A-group
    is handed over first, in the order [log=1, log=2], and the B-group second. *)
Theorem grouping_order (hA hB : string) (a2 a1 b : AMMSwap) :
  hA <> hB ->
  tx_hash a2 = hA -> timestamp a2 = 10 -> log_index a2 = 2 ->
  tx_hash a1 = hA -> timestamp a1 = 10 -> log_index a1 = 1 ->
  tx_hash b = hB -> timestamp b = 5 -> log_index b = 0 ->
  (sort_reverse [a2; a1; b] = [a1; a2; b]) /\
  (tx_groups [a2; a1; b] = Done [[a1; a2]; [b]]) /\
  (swaps_to_trades [a2; a1; b] = extend_all _tx_swaps_to_trades [[a1; a2]; [b]]).
Proof.
  intros Hne Ha2 Ta2 La2 Ha1 Ta1 La1 Hb Tb Lb.
  assert (Hsort : sort_reverse [a2; a1; b] = [a1; a2; b]).
  { assert (K1 : key_lt (sort_key a1) (sort_key b) = false)
      by (unfold sort_key; rewrite Ta1, La1, Tb, Lb; reflexivity).
    assert (K2 : key_lt (sort_key a2) (sort_key a1) = true)
      by (unfold sort_key; rewrite Ta2, La2, Ta1, La1; reflexivity).
    assert (K3 : key_lt (sort_key a2) (sort_key b) = false)
      by (unfold sort_key; rewrite Ta2, La2, Tb, Lb; reflexivity).
    unfold sort_reverse. cbn [foldr insert_desc]. rewrite K1.
    cbn [insert_desc]. now rewrite K2, K3. }
  assert (Hrun : forall (T : Type) (f : list AMMSwap -> Outcome (list T)),
             swaps_to_trades_with f [a2; a1; b] = extend_all f [[a1; a2]; [b]]).
  { intros T f. unfold swaps_to_trades_with. rewrite Hsort.
    rewrite (py_index_head [a1; a2; b] a1 eq_refl).
    cbn [mbind outcome_bind for_each].
    rewrite group_step_same by reflexivity. cbn [mbind outcome_bind].
    rewrite group_step_same by congruence. cbn [mbind outcome_bind].
    rewrite group_step_new by congruence. cbn [app extend_all].
    destruct (f [a1; a2]) as [n| |]; [|reflexivity..]. cbn [mbind outcome_bind length Nat.eqb negb].
    destruct (f [b]) as [n'| |]; [|reflexivity..]. cbn. now rewrite app_nil_r. }
  split; [exact Hsort|]. split; [|apply Hrun].
  unfold tx_groups. now rewrite Hrun.
Qed.

Lemma grouping_order_witness :
  tx_groups [sample_swap "A" 10 2 100 0 0 40; sample_swap "A" 10 1 100 0 0 40;
             sample_swap "B" 5 0 100 0 0 40]
  = Done [[sample_swap "A" 10 1 100 0 0 40; sample_swap "A" 10 2 100 0 0 40];
          [sample_swap "B" 5 0 100 0 0 40]].
Proof.
  refine (proj1 (proj2 (grouping_order "A" "B" (sample_swap "A" 10 2 100 0 0 40)
            (sample_swap "A" 10 1 100 0 0 40) (sample_swap "B" 5 0 100 0 0 40)
            _ eq_refl eq_refl eq_refl eq_refl eq_refl eq_refl eq_refl eq_refl eq_refl))).
  discriminate.
Defined.

(** C3 as the claim words it fails: the B-group does not come first, and the
    A-group is not in the order [log=2, log=1]. *)
Lemma grouping_order_is_not_B_first :
  tx_groups [sample_swap "A" 10 2 100 0 0 40; sample_swap "A" 10 1 100 0 0 40;
             sample_swap "B" 5 0 100 0 0 40]
  <> Done [[sample_swap "B" 5 0 100 0 0 40];
           [sample_swap "A" 10 2 100 0 0 40; sample_swap "A" 10 1 100 0 0 40]].
Proof.
  vm_compute. intros H. discriminate H.
Qed.

(** ** The pagination loop *)

Lemma for_each_app {A S : Type} (body : S -> A -> Outcome S) (l1 l2 : list A) (s : S) :
  for_each body (l1 ++ l2) s = (s' ← for_each body l1 s; for_each body l2 s').
Proof.
  revert s. induction l1 as [|x l1 IH]; intros s; [reflexivity|].
  cbn [app for_each]. destruct (body s x); [apply IH | reflexivity..].
Qed.

Section PaginationProperties.
Context {St X Rec Acc : Type}.
Variable graph_query : ParamValues X -> Prog St (list Rec).
Variable parse : Acc -> Rec -> Outcome Acc.

Lemma paginate_step (fuel : nat) (pv : ParamValues X) (acc : Acc) (s : St) :
  paginate graph_query parse (S fuel) pv acc s =
    match graph_query pv s with
    | (s1, Done result_data) =>
        match for_each parse result_data acc with
        | Done acc1 =>
            if Z.of_nat (length result_data) <? GRAPH_QUERY_LIMIT then (s1, Done acc1)
            else paginate graph_query parse fuel (next_page pv) acc1 s1
        | Raise e => (s1, Raise e)
        | OutOfFuel => (s1, OutOfFuel)
        end
    | (s1, Raise e) => (s1, Raise e)
    | (s1, OutOfFuel) => (s1, OutOfFuel)
    end.
Proof.
  cbn [paginate]. unfold mbind at 1, prog_bind.
  destruct (graph_query pv s) as [s1 [data|e|]]; [|reflexivity..].
  unfold mbind at 1, prog_bind, lift.
  destruct (for_each parse data acc) as [acc1|e|]; [|reflexivity..].
  destruct (_ <? _); reflexivity.
Qed.

Lemma ask_cons (q : ParamValues X) (qs : list (ParamValues X)) (s : St) :
  ask graph_query (q :: qs) s =
    (let '(s1, r) := graph_query q s in
     let '(s2, rs) := ask graph_query qs s1 in
     (s2, r :: rs)).
Proof. reflexivity. Qed.

(** Each request repeats the one before it, its offset moved by the page size. *)
Lemma loop_queries_offsets (n : nat) (pv : ParamValues X) :
  loop_queries n pv =
    (fun i : nat => {| limit := limit pv;
                       offset := offset pv + Z.of_nat i * GRAPH_QUERY_LIMIT;
                       bindings := bindings pv |}) <$> seq 0 n.
Proof.
  revert pv. induction n as [|n IH]; intros pv; [reflexivity|].
  cbn [loop_queries seq fmap list_fmap]. f_equal.
  - destruct pv; cbn; f_equal; lia.
  - rewrite IH, <- seq_shift, <- list_fmap_compose. apply list_fmap_ext.
    intros _ i _. cbn. f_equal. lia.
Qed.

Lemma paginate_done (fuel : nat) :
  forall (pv : ParamValues X) (acc : Acc) (s s' : St) (r : Acc),
    paginate graph_query parse fuel pv acc s = (s', Done r) ->
    exists k, (k < fuel)%nat /\ short_page_run graph_query parse pv acc s k s' r.
Proof.
  induction fuel as [|fuel IH]; intros pv acc s s' r H; [discriminate|].
  rewrite paginate_step in H.
  destruct (graph_query pv s) as [s1 [data|e|]] eqn:Hq; [|discriminate..].
  destruct (for_each parse data acc) as [acc1|e|] eqn:Hp; [|discriminate..].
  destruct (Z.ltb_spec (Z.of_nat (length data)) GRAPH_QUERY_LIMIT) as [Hshort | Hfull].
  - injection H as <- <-. exists 0%nat. split; [lia|].
    exists [], data. repeat split; [| constructor | exact Hshort |].
    + cbn [loop_queries ask]. now rewrite Hq.
    + cbn [app concat]. now rewrite app_nil_r.
  - destruct (IH _ _ _ _ _ H) as (k & Hk & pages & last_ & Hlen & Hask & Hfulls & Hlast & Hparse).
    exists (S k). split; [lia|].
    exists (data :: pages), last_. repeat split.
    + cbn [length]. now rewrite Hlen.
    + change (loop_queries (S (S k)) pv) with (pv :: loop_queries (S k) (next_page pv)).
      rewrite ask_cons, Hq, Hask. reflexivity.
    + now constructor.
    + exact Hlast.
    + cbn [app concat]. rewrite for_each_app, Hp. exact Hparse.
Qed.

Lemma paginate_short_page (pages : list (list Rec)) :
  forall (last_ : list Rec) (fuel : nat) (pv : ParamValues X) (acc : Acc) (s s' : St) (r : Acc),
    (length pages < fuel)%nat ->
    ask graph_query (loop_queries (S (length pages)) pv) s = (s', Done <$> (pages ++ [last_])) ->
    Forall (fun page => GRAPH_QUERY_LIMIT <= Z.of_nat (length page)) pages ->
    Z.of_nat (length last_) < GRAPH_QUERY_LIMIT ->
    for_each parse (concat (pages ++ [last_])) acc = Done r ->
    paginate graph_query parse fuel pv acc s = (s', Done r).
Proof.
  induction pages as [|page pages IH]; intros last_ fuel pv acc s s' r Hfuel Hask Hfull Hshort Hparse;
    (destruct fuel as [|fuel]; [cbn in Hfuel; lia|]);
    rewrite paginate_step;
    change (loop_queries (S (length ?l)) pv)
      with (pv :: loop_queries (length l) (next_page pv)) in Hask;
    rewrite ask_cons in Hask;
    destruct (graph_query pv s) as [s1 r1].
  - cbn [length loop_queries ask] in Hask. injection Hask as -> ->. cbn [app concat] in Hparse. rewrite app_nil_r in Hparse.
    rewrite Hparse. destruct (Z.ltb_spec (Z.of_nat (length last_)) GRAPH_QUERY_LIMIT); [reflexivity | lia].
  - destruct (ask _ _ _) as [s2 rs] eqn:Hrest. injection Hask as -> -> ->.
    cbn [app concat] in Hparse. rewrite for_each_app in Hparse.
    destruct (for_each parse page acc) as [acc1|e|]; [|discriminate..].
    inversion Hfull as [|? ? Hpage Hpages]; subst.
    destruct (Z.ltb_spec (Z.of_nat (length page)) GRAPH_QUERY_LIMIT); [lia|].
    apply (IH last_); auto. cbn [length] in Hfuel. lia.
Qed.

(** The loop returns exactly when a short page comes: it then has asked for the
    pages at [offset], [offset + GRAPH_QUERY_LIMIT], ... up to the first short
    one, and its result holds every record of every page it fetched. *)
Lemma paginate_returns_iff (fuel : nat) (pv : ParamValues X) (acc : Acc) (s s' : St) (r : Acc) :
  paginate graph_query parse fuel pv acc s = (s', Done r) <->
  exists k, (k < fuel)%nat /\ short_page_run graph_query parse pv acc s k s' r.
Proof.
  split; [apply paginate_done|].
  intros (k & Hk & pages & last_ & Hlen & Hask & Hfull & Hshort & Hparse). subst k.
  now apply (paginate_short_page pages last_).
Qed.

End PaginationProperties.

(** ** Prices in the balances *)

Lemma update_pool_loop (known unknown : AssetPrice) (l : list LiquidityPoolAsset.t) :
  forall (done_ : list LiquidityPoolAsset.t) (total : FVal),
    foldl (update_pool_asset known unknown) (done_, total) l =
      (done_ ++ (update_asset known unknown <$> l),
       foldl (fun total asset =>
                (total + Balance.usd_value (LiquidityPoolAsset.user_balance asset))%Qc)
         total (update_asset known unknown <$> l)).
Proof.
  induction l as [|a l IH]; intros done_ total; cbn [foldl fmap list_fmap].
  - now rewrite app_nil_r.
  - unfold update_pool_asset at 2. rewrite IH, <- app_assoc. reflexivity.
Qed.

Lemma update_pool_assets (known unknown : AssetPrice) (lp : LiquidityPool.t) :
  LiquidityPool.assets (update_pool known unknown lp)
  = update_asset known unknown <$> LiquidityPool.assets lp.
Proof. unfold update_pool. rewrite update_pool_loop. reflexivity. Qed.

Lemma update_pool_usd_value (known unknown : AssetPrice) (lp : LiquidityPool.t) :
  Balance.usd_value (LiquidityPool.user_balance (update_pool known unknown lp))
  = sum_usd_values (LiquidityPool.assets (update_pool known unknown lp)).
Proof.
  rewrite update_pool_assets. unfold update_pool. rewrite update_pool_loop. reflexivity.
Qed.

(** The price looked up for an asset: the known price when the known map has
    the address, else the unknown price when the unknown map has it, else zero. *)
Lemma lookup_price_spec (known unknown : AssetPrice) (a : ChecksumEthAddress) :
  lookup_price known unknown a =
    match known !! a, unknown !! a with
    | Some p, _ => p
    | None, Some p => p
    | None, None => ZERO
    end.
Proof. unfold lookup_price. destruct (known !! a), (unknown !! a); reflexivity. Qed.

Lemma update_asset_spec (known unknown : AssetPrice) (a : LiquidityPoolAsset.t) :
  let p := lookup_price known unknown (ethereum_address (LiquidityPoolAsset.asset a)) in
  let a' := update_asset known unknown a in
  LiquidityPoolAsset.asset a' = LiquidityPoolAsset.asset a /\
  LiquidityPoolAsset.total_amount a' = LiquidityPoolAsset.total_amount a /\
  Balance.amount (LiquidityPoolAsset.user_balance a')
    = Balance.amount (LiquidityPoolAsset.user_balance a) /\
  (p <> ZERO ->
     LiquidityPoolAsset.usd_price a' = p /\
     Balance.usd_value (LiquidityPoolAsset.user_balance a')
       = (Balance.amount (LiquidityPoolAsset.user_balance a) * p)%Qc) /\
  (p = ZERO -> a' = a).
Proof.
  cbv zeta. unfold update_asset.
  destruct (fval_ne _ ZERO) eqn:E.
  - apply fval_ne_spec in E. cbn. repeat split; intros; auto; contradiction.
  - assert (lookup_price known unknown (ethereum_address (LiquidityPoolAsset.asset a)) = ZERO)
      as Hz.
    { destruct (decide (lookup_price known unknown
                          (ethereum_address (LiquidityPoolAsset.asset a)) = ZERO)) as [|Hn];
        [assumption|]. apply fval_ne_spec in Hn. congruence. }
    repeat split; intros; auto; contradiction.
Qed.

(** C9: after [_update_assets_prices_in_address_balances], the USD value of
    every pool of every address is the sum of the USD values of its assets.
    The pool is the one that stood there before, with each asset updated: an
    asset whose looked-up price (known map first, unknown map otherwise) is not
    zero has that price and the USD value [amount * price]; any other asset is
    left as it was. *)
Theorem pool_usd_value_is_sum (address_balances : AddressBalances)
    (known_asset_price unknown_asset_price : AssetPrice)
    (user : ChecksumEthAddress) (lps : list LiquidityPool.t) (i : nat) (lp : LiquidityPool.t) :
  _update_assets_prices_in_address_balances address_balances
    known_asset_price unknown_asset_price !! user = Some lps ->
  lps !! i = Some lp ->
  Balance.usd_value (LiquidityPool.user_balance lp) = sum_usd_values (LiquidityPool.assets lp) /\
  exists (lps0 : list LiquidityPool.t) (lp0 : LiquidityPool.t),
    address_balances !! user = Some lps0 /\ lps0 !! i = Some lp0 /\
    length lps = length lps0 /\
    LiquidityPool.assets lp
      = update_asset known_asset_price unknown_asset_price <$> LiquidityPool.assets lp0 /\
    Forall (fun a =>
        let p := lookup_price known_asset_price unknown_asset_price
                   (ethereum_address (LiquidityPoolAsset.asset a)) in
        let a' := update_asset known_asset_price unknown_asset_price a in
        (p <> ZERO ->
           LiquidityPoolAsset.usd_price a' = p /\
           Balance.usd_value (LiquidityPoolAsset.user_balance a')
             = (Balance.amount (LiquidityPoolAsset.user_balance a) * p)%Qc) /\
        (p = ZERO -> a' = a))
      (LiquidityPool.assets lp0).
Proof.
  unfold _update_assets_prices_in_address_balances. intros Hm Hi.
  rewrite lookup_fmap in Hm.
  destruct (address_balances !! user) as [lps0|] eqn:E; [|discriminate].
  injection Hm as <-. rewrite list_lookup_fmap in Hi.
  destruct (lps0 !! i) as [lp0|] eqn:Ei; [|discriminate]. injection Hi as <-.
  split; [apply update_pool_usd_value|].
  exists lps0, lp0. repeat split; auto.
  - now rewrite length_fmap.
  - apply update_pool_assets.
  - apply Forall_forall. intros a _. cbv zeta. split; apply update_asset_spec.
Qed.

(** ** Known and unknown assets *)

Lemma fval_ne_false (a b : FVal) : fval_ne a b = false <-> a = b.
Proof.
  split; [|intros ->; apply fval_ne_refl].
  intros H. destruct (decide (a = b)) as [|Hn]; [assumption|].
  apply fval_ne_spec in Hn. congruence.
Qed.

Lemma elem_of_set_add {A : Type} `{EqDecision A} (x y : A) (s : list A) :
  y ∈ set_add x s <-> y = x \/ y ∈ s.
Proof.
  unfold set_add. destruct (decide (x ∈ s)) as [Hin|Hout].
  - split; [auto | intros [-> | H]; assumption].
  - rewrite elem_of_app, list_elem_of_singleton. split; intros [H|H]; auto.
Qed.

Lemma price_known_assets_loop (price_query : EthereumToken -> Price) (l : list EthereumToken) :
  forall (asset_price : AssetPrice) (unknown_assets : list UnknownEthereumToken),
    let res := foldl (price_known_asset price_query) (asset_price, unknown_assets) l in
    (forall u, u ∈ res.2 <->
       u ∈ unknown_assets \/
       exists t, t ∈ l /\ price_query t = ZERO /\ u = unknown_of_known t) /\
    (forall a p, res.1 !! a = Some p ->
       asset_price !! a = Some p \/
       exists t, t ∈ l /\ et_ethereum_address t = a /\ price_query t = p /\ p <> ZERO) /\
    (forall a,
       is_Some (asset_price !! a) \/
       (exists t, t ∈ l /\ et_ethereum_address t = a /\ price_query t <> ZERO) ->
       is_Some (res.1 !! a)).
Proof.
  induction l as [|t l IH]; intros asset_price unknown_assets; cbn [foldl].
  - cbv zeta. cbn [fst snd]. split; [|split].
    + intros u. split; [auto|].
      intros [H | (t & Ht & _)]; [assumption | inversion Ht].
    + auto.
    + intros a [H | (t & Ht & _)]; [assumption | inversion Ht].
  - destruct (fval_ne (price_query t) ZERO) eqn:E.
    + replace (price_known_asset price_query (asset_price, unknown_assets) t)
        with (<[et_ethereum_address t := price_query t]> asset_price, unknown_assets)
        by (unfold price_known_asset; now rewrite E).
      apply fval_ne_spec in E.
      specialize (IH (<[et_ethereum_address t := price_query t]> asset_price) unknown_assets).
      cbv zeta in IH |- *. destruct IH as (IHu & IHp & IHd). split; [|split].
      * intros u. split.
        -- intros Hu. apply IHu in Hu as [Hu | (t' & Ht' & Hz & ->)]; [now left|].
           right. exists t'. split; [now right | auto].
        -- intros [Hu | (t' & Ht' & Hz & ->)]; apply IHu; [now left|].
           apply elem_of_cons in Ht' as [-> | Ht']; [contradiction|].
           right. exists t'. auto.
      * intros a p Hp. apply IHp in Hp as [Hp | (t' & Ht' & Ha & Hq & Hn)].
        -- destruct (decide (et_ethereum_address t = a)) as [<- | Hne].
           ++ rewrite lookup_insert_eq in Hp. injection Hp as <-.
              right. exists t. split; [now left | auto].
           ++ rewrite lookup_insert_ne in Hp by assumption. now left.
        -- right. exists t'. split; [now right | auto].
      * intros a [Ha | (t' & Ht' & Ha & Hn)]; apply IHd.
        -- left. destruct (decide (et_ethereum_address t = a)) as [<- | Hne].
           ++ rewrite lookup_insert_eq. eauto.
           ++ now rewrite lookup_insert_ne by assumption.
        -- apply elem_of_cons in Ht' as [-> | Ht'].
           ++ left. subst a. rewrite lookup_insert_eq. eauto.
           ++ right. exists t'. auto.
    + replace (price_known_asset price_query (asset_price, unknown_assets) t)
        with (asset_price, set_add (unknown_of_known t) unknown_assets)
        by (unfold price_known_asset; now rewrite E).
      apply fval_ne_false in E.
      specialize (IH asset_price (set_add (unknown_of_known t) unknown_assets)).
      cbv zeta in IH |- *. destruct IH as (IHu & IHp & IHd). split; [|split].
      * intros u. split.
        -- intros Hu. apply IHu in Hu as [Hu | (t' & Ht' & Hz & ->)].
           ++ apply elem_of_set_add in Hu as [-> | Hu]; [|now left].
              right. exists t. split; [now left | auto].
           ++ right. exists t'. split; [now right | auto].
        -- intros [Hu | (t' & Ht' & Hz & ->)]; apply IHu.
           ++ left. apply elem_of_set_add. now right.
           ++ apply elem_of_cons in Ht' as [-> | Ht'].
              ** left. apply elem_of_set_add. now left.
              ** right. exists t'. auto.
      * intros a p Hp. apply IHp in Hp as [Hp | (t' & Ht' & Ha & Hq & Hn)]; [now left|].
        right. exists t'. split; [now right | auto].
      * intros a [Ha | (t' & Ht' & Ha & Hn)]; apply IHd; [now left|].
        apply elem_of_cons in Ht' as [-> | Ht']; [congruence|].
        right. exists t'. auto.
Qed.

(** C8, as the code has it: [_get_known_asset_price] leaves [known_assets] as
    it is and only adds to [unknown_assets]: the unknown assets afterwards are
    those from before and, for every known asset whose price query answers
    zero, its unknown twin of the same address, which thus stands in both
    sets.  The price map holds exactly the addresses of the known assets
    priced above zero, each with such a price, so a zero-priced asset has no
    entry of its own in it. *)
Theorem known_asset_price_reclassification (known_assets : list EthereumToken)
    (unknown_assets : list UnknownEthereumToken) (price_query : EthereumToken -> Price) :
  let res := _get_known_asset_price known_assets unknown_assets price_query in
  (forall u, u ∈ res.2 <->
     u ∈ unknown_assets \/
     exists t, t ∈ known_assets /\ price_query t = ZERO /\ u = unknown_of_known t) /\
  (forall t, t ∈ known_assets -> price_query t = ZERO ->
     et_ethereum_address t ∈ (et_ethereum_address <$> known_assets) /\
     et_ethereum_address t ∈ (ut_ethereum_address <$> res.2)) /\
  (forall a p, res.1 !! a = Some p ->
     p <> ZERO /\
     exists t, t ∈ known_assets /\ et_ethereum_address t = a /\ price_query t = p) /\
  (forall a, is_Some (res.1 !! a) <->
     exists t, t ∈ known_assets /\ et_ethereum_address t = a /\ price_query t <> ZERO).
Proof.
  destruct (price_known_assets_loop price_query known_assets ∅ unknown_assets)
    as (Hu & Hp & Hd).
  cbv zeta in *. fold (_get_known_asset_price known_assets unknown_assets price_query) in *.
  split; [exact Hu|]. split; [|split].
  - intros t Ht Hz. split.
    + apply list_elem_of_fmap. eauto.
    + apply list_elem_of_fmap. exists (unknown_of_known t). split; [reflexivity|].
      apply Hu. right. eauto.
  - intros a p H. apply Hp in H as [H | (t & Ht & Ha & Hq & Hn)].
    + rewrite lookup_empty in H. discriminate.
    + split; [assumption | eauto].
  - intros a. split.
    + intros [p H]. apply Hp in H as [H | (t & Ht & Ha & Hq & Hn)].
      * rewrite lookup_empty in H. discriminate.
      * exists t. repeat split; auto. congruence.
    + intros H. apply Hd. now right.
Qed.

(** ** The used query ranges *)

Lemma writes_end_refl (to_ts : Timestamp) r : writes_end to_ts r r.
Proof. intros name. now left. Qed.

Lemma writes_end_trans (to_ts : Timestamp) r1 r2 r3 :
  writes_end to_ts r1 r2 -> writes_end to_ts r2 r3 -> writes_end to_ts r1 r3.
Proof.
  intros H12 H23 name. destruct (H23 name) as [H | H]; [|now right].
  rewrite H. apply H12.
Qed.

Lemma commits_only_ret {A : Type} (to_ts : Timestamp) (a : A) :
  commits_only to_ts (mret a : Prog (Env World SwapStore) A).
Proof. intros env env' o [= <- _]. apply writes_end_refl. Qed.

Lemma commits_only_lift {A : Type} (to_ts : Timestamp) (o : Outcome A) :
  commits_only to_ts (lift o : Prog (Env World SwapStore) A).
Proof. intros env env' o' [= <- _]. apply writes_end_refl. Qed.

Lemma commits_only_bind {A B : Type} (to_ts : Timestamp) (m : Prog (Env World SwapStore) A) (k : A -> Prog (Env World SwapStore) B) :
  commits_only to_ts m -> (forall a, commits_only to_ts (k a)) ->
  commits_only to_ts (m ≫= k).
Proof.
  intros Hm Hk env env' o H. unfold mbind, prog_bind in H.
  destruct (m env) as [env1 [a|e|]] eqn:E.
  - eapply writes_end_trans; [eapply Hm, E | eapply Hk, H].
  - injection H as <- _. eapply Hm, E.
  - injection H as <- _. eapply Hm, E.
Qed.

Lemma commits_only_on_graph {A : Type} (to_ts : Timestamp) (m : Prog World A) :
  commits_only to_ts (on_graph m).
Proof.
  intros env env' o H. unfold on_graph in H.
  destruct (m (graph env)) as [w r]. injection H as <- _. apply writes_end_refl.
Qed.

Lemma commits_only_for_each {A S : Type} (to_ts : Timestamp)
    (body : S -> A -> Prog (Env World SwapStore) S) (l : list A) :
  (forall s x, commits_only to_ts (body s x)) ->
  forall s, commits_only to_ts (for_each_p body l s).
Proof.
  intros Hbody. induction l as [|x l IH]; intros s; cbn [for_each_p].
  - apply commits_only_ret.
  - apply commits_only_bind; [apply Hbody | exact IH].
Qed.

Lemma commits_only_get_range (to_ts : Timestamp) (name : string) :
  commits_only to_ts (get_used_query_range name).
Proof. intros env env' o [= <- _]. apply writes_end_refl. Qed.

Lemma commits_only_update_range (name : string) (start_ts to_ts : Timestamp) :
  commits_only to_ts (update_used_query_range name start_ts to_ts).
Proof.
  intros env env' o [= <- _] name'. cbn.
  destruct (decide (name = name')) as [<- | Hne].
  - right. exists start_ts. apply lookup_insert_eq.
  - left. now apply lookup_insert_ne.
Qed.

Lemma commits_only_commit_ranges (addresses : list ChecksumEthAddress)
    (start_ts to_ts : Timestamp) :
  commits_only to_ts (commit_ranges addresses start_ts to_ts).
Proof.
  apply commits_only_for_each. intros _ a. apply commits_only_update_range.
Qed.

Lemma commits_only_classify (to_ts : Timestamp) st (a : ChecksumEthAddress) :
  commits_only to_ts (classify_address st a).
Proof.
  destruct st as [[new existing] m]. unfold classify_address.
  apply commits_only_bind; [apply commits_only_get_range|].
  intros [range|]; apply commits_only_ret.
Qed.

Lemma commits_only_add_amm_swaps (to_ts : Timestamp) (l : list AMMSwap) :
  commits_only to_ts (db_add_amm_swaps l).
Proof. intros env env' o [= <- _]. apply writes_end_refl. Qed.

Lemma commits_only_get_amm_swaps (to_ts from_ts to_ts' : Timestamp) loc a :
  commits_only to_ts (db_get_amm_swaps from_ts to_ts' loc a).
Proof. intros env env' o [= <- _]. apply writes_end_refl. Qed.

(** [_get_trades] writes only ranges that end at its [to_timestamp], for the
    new addresses and for the existing ones, and whatever its outcome. *)
Lemma get_trades_commits_only (fuel : nat) (addresses : list ChecksumEthAddress)
    (from_timestamp to_timestamp : Timestamp) :
  commits_only to_timestamp (_get_trades fuel addresses from_timestamp to_timestamp).
Proof.
  unfold _get_trades.
  apply commits_only_bind.
  { apply commits_only_for_each. intros st a. apply commits_only_classify. }
  intros [[new_addresses existing_addresses] min_end_ts].
  apply commits_only_bind.
  { destruct (negb _); [|apply commits_only_ret].
    apply commits_only_bind; [apply commits_only_on_graph|]. intros trades.
    apply commits_only_bind; [apply commits_only_commit_ranges|]. intros _.
    apply commits_only_ret. }
  intros address_amm_trades.
  apply commits_only_bind.
  { destruct (_ && _); [|apply commits_only_ret].
    apply commits_only_bind; [apply commits_only_on_graph|]. intros trades.
    apply commits_only_bind; [apply commits_only_commit_ranges|]. intros _.
    apply commits_only_ret. }
  intros address_amm_trades'.
  apply commits_only_bind; [apply commits_only_add_amm_swaps|]. intros _.
  apply commits_only_for_each. intros acc a.
  apply commits_only_bind; [apply commits_only_get_amm_swaps|]. intros db_swaps.
  apply commits_only_bind; [apply commits_only_lift|]. intros db_trades.
  destruct (negb _); apply commits_only_ret.
Qed.

(** The first loop of [_get_trades] reads the ranges and writes nothing; the
    minimum it tracks starts from [to_timestamp] and only goes down. *)
Lemma classify_addresses_min (addresses : list ChecksumEthAddress) :
  forall new_addresses existing_addresses (min_end_ts : Timestamp) (env env' : Env World SwapStore) o,
    for_each_p classify_address addresses (new_addresses, existing_addresses, min_end_ts) env
      = (env', o) ->
    env' = env /\
    exists new' existing' min_end_ts',
      o = Done (new', existing', min_end_ts') /\ min_end_ts' <= min_end_ts.
Proof.
  induction addresses as [|a addresses IH]; intros new existing m env env' o H.
  - injection H as <- <-. split; [reflexivity|]. exists new, existing, m. split; [reflexivity | lia].
  - cbn [for_each_p] in H. unfold mbind at 1, prog_bind in H.
    unfold classify_address at 1 in H. unfold mbind at 1, prog_bind, get_used_query_range in H.
    destruct (used_query_ranges env !! entry_name a) as [range|]; cbn in H.
    + apply IH in H as (-> & new' & existing' & m' & -> & Hle).
      split; [reflexivity|]. exists new', existing', m'. split; [reflexivity | lia].
    + apply IH in H as (-> & new' & existing' & m' & -> & Hle).
      split; [reflexivity|]. exists new', existing', m'. split; [reflexivity | lia].
Qed.

(** So the comparison [min_end_ts <= to_timestamp] that guards the request for
    the existing addresses holds at every call. *)
Lemma existing_batch_guard_holds (addresses : list ChecksumEthAddress)
    (to_timestamp : Timestamp) (env env' : Env World SwapStore) new_addresses existing_addresses min_end_ts :
  for_each_p classify_address addresses ([], [], to_timestamp) env
    = (env', Done (new_addresses, existing_addresses, min_end_ts)) ->
  (min_end_ts <=? to_timestamp) = true.
Proof.
  intros H. apply classify_addresses_min in H as (_ & n & e & m & [= -> -> ->] & Hle).
  now apply Z.leb_le.
Qed.

(** What a returning computation in sequence went through. *)
Lemma prog_bind_done {St A B : Type} (m : Prog St A) (k : A -> Prog St B)
    (s s' : St) (b : B) :
  (m ≫= k) s = (s', Done b) ->
  exists a s1, m s = (s1, Done a) /\ k a s1 = (s', Done b).
Proof.
  unfold mbind, prog_bind. destruct (m s) as [s1 [a|e|]]; [eauto | discriminate..].
Qed.

Lemma classify_addresses_cover (addresses : list ChecksumEthAddress) :
  forall new existing (m : Timestamp) (env env' : Env World SwapStore) new' existing' m',
    for_each_p classify_address addresses (new, existing, m) env
      = (env', Done (new', existing', m')) ->
    (forall a, a ∈ new \/ a ∈ existing \/ a ∈ addresses -> a ∈ new' \/ a ∈ existing').
Proof.
  induction addresses as [|x addresses IH]; intros new existing m env env' new' existing' m' H a Ha.
  - injection H as _ <- <- _. destruct Ha as [Ha | [Ha | Ha]]; [auto | auto | inversion Ha].
  - cbn [for_each_p] in H. apply prog_bind_done in H as ([[n1 e1] m1] & env1 & Hstep & Hrest).
    apply (IH _ _ _ _ _ _ _ _ Hrest).
    unfold classify_address, mbind, prog_bind, get_used_query_range in Hstep.
    destruct (used_query_ranges env !! entry_name x) as [range|];
      injection Hstep as _ <- <- _; rewrite !elem_of_app, !list_elem_of_singleton;
      destruct Ha as [Ha | [Ha | Ha]]; auto;
      apply elem_of_cons in Ha as [-> | Ha]; auto.
Qed.

Lemma writes_end_keeps (to_ts : Timestamp) r r' (name : string) (start_ts : Timestamp) :
  writes_end to_ts r r' -> r !! name = Some (start_ts, to_ts) ->
  exists start_ts', r' !! name = Some (start_ts', to_ts).
Proof. intros Hw H. destruct (Hw name) as [E | E]; [rewrite E, H|]; eauto. Qed.

Lemma commit_ranges_keeps (addresses : list ChecksumEthAddress) (start_ts to_ts : Timestamp)
    (name : string) :
  forall (env env' : Env World SwapStore) o,
    commit_ranges addresses start_ts to_ts env = (env', o) ->
    used_query_ranges env !! name = Some (start_ts, to_ts) ->
    used_query_ranges env' !! name = Some (start_ts, to_ts).
Proof.
  unfold commit_ranges.
  induction addresses as [|x addresses IH]; intros env env' o H Hn.
  - now injection H as <- _.
  - cbn [for_each_p] in H. unfold mbind at 1, prog_bind, update_used_query_range at 1 in H.
    apply IH in H; [exact H|]. cbn.
    destruct (decide (entry_name x = name)) as [<- | Hne].
    + apply lookup_insert_eq.
    + now rewrite lookup_insert_ne.
Qed.

(** The commit loop always returns, and records [(start_ts, to_ts)] for each
    of its addresses. *)
Lemma commit_ranges_done (addresses : list ChecksumEthAddress) (start_ts to_ts : Timestamp) :
  forall (env env' : Env World SwapStore) o,
    commit_ranges addresses start_ts to_ts env = (env', o) ->
    o = Done tt /\
    forall a, a ∈ addresses -> range_of env' a = Some (start_ts, to_ts).
Proof.
  induction addresses as [|x addresses IH]; intros env env' o H.
  - injection H as _ <-. split; [reflexivity|]. intros a Ha. inversion Ha.
  - unfold commit_ranges in H. cbn [for_each_p] in H.
    unfold mbind at 1, prog_bind, update_used_query_range at 1 in H.
    fold (commit_ranges addresses start_ts to_ts) in H.
    pose proof (IH _ _ _ H) as [-> Hin]. split; [reflexivity|].
    intros a Ha. apply elem_of_cons in Ha as [-> | Ha]; [|now apply Hin].
    apply (commit_ranges_keeps _ _ _ _ _ _ _ H). cbn. apply lookup_insert_eq.
Qed.

(** A call of [_get_trades] that returns has recorded, for each of its
    addresses, new or existing, a range that ends at its [to_timestamp]. *)
Lemma get_trades_done_commits (fuel : nat) (addresses : list ChecksumEthAddress)
    (from_timestamp to_timestamp : Timestamp) (env env' : Env World SwapStore)
    (r : AddressTrades) :
  _get_trades fuel addresses from_timestamp to_timestamp env = (env', Done r) ->
  forall a, a ∈ addresses -> exists start_ts, range_of env' a = Some (start_ts, to_timestamp).
Proof.
  unfold _get_trades. intros H a Ha.
  apply prog_bind_done in H as ([[new existing] m] & env1 & Hclassify & H).
  apply prog_bind_done in H as (t1 & env2 & Hnew & H).
  apply prog_bind_done in H as (t2 & env3 & Hexisting & H).
  pose proof (existing_batch_guard_holds _ _ _ _ _ _ _ Hclassify) as Hguard.
  assert (Hrest : writes_end to_timestamp (used_query_ranges env3) (used_query_ranges env')).
  { revert H. generalize env3 env' (Done r). change (commits_only to_timestamp
      (db_add_amm_swaps (list_of_set (fetched_swaps addresses t2)) ≫= (fun _ : unit =>
         for_each_p (fun (db_address_trades : AddressTrades) address =>
             db_swaps ← db_get_amm_swaps from_timestamp to_timestamp UNISWAP address;
             db_trades ← lift (swaps_to_trades db_swaps);
             if negb (length db_trades =? 0)%nat
             then mret (<[address := db_trades]> db_address_trades)
             else mret db_address_trades) addresses ∅))).
    apply commits_only_bind; [apply commits_only_add_amm_swaps|]. intros _.
    apply commits_only_for_each. intros acc x.
    apply commits_only_bind; [apply commits_only_get_amm_swaps|]. intros db_swaps.
    apply commits_only_bind; [apply commits_only_lift|]. intros db_trades.
    destruct (negb (length db_trades =? 0)%nat); apply commits_only_ret. }
  assert (Hex : writes_end to_timestamp (used_query_ranges env2) (used_query_ranges env3)).
  { revert Hexisting. generalize env2 env3 (Done t2).
    change (commits_only to_timestamp
      (if negb (length existing =? 0)%nat && (m <=? to_timestamp)
       then address_new_trades ← on_graph (_get_trades_graph fuel existing m to_timestamp);
            _ ← commit_ranges existing m to_timestamp;
            mret (address_new_trades ∪ t1)
       else mret t1)).
    destruct (negb (length existing =? 0)%nat && (m <=? to_timestamp)); [|apply commits_only_ret].
    apply commits_only_bind; [apply commits_only_on_graph|]. intros trades.
    apply commits_only_bind; [apply commits_only_commit_ranges|]. intros _.
    apply commits_only_ret. }
  unfold range_of.
  destruct (classify_addresses_cover _ _ _ _ _ _ _ _ _ Hclassify a (or_intror (or_intror Ha)))
    as [Hin | Hin].
  - (* a new address *)
    destruct new as [|n0 new']; [inversion Hin|]. cbn [length Nat.eqb negb] in Hnew.
    apply prog_bind_done in Hnew as (trades & env1' & _ & Hnew).
    apply prog_bind_done in Hnew as ([] & env1'' & Hcommit & Hret).
    injection Hret as <- _.
    apply commit_ranges_done in Hcommit as [_ Hcommit]. specialize (Hcommit a Hin).
    unfold range_of in Hcommit.
    destruct (writes_end_keeps _ _ _ _ _ Hex Hcommit) as [st Hst].
    exact (writes_end_keeps _ _ _ _ _ Hrest Hst).
  - (* an existing address *)
    destruct existing as [|e0 existing']; [inversion Hin|].
    rewrite Hguard in Hexisting. cbn [length Nat.eqb negb andb] in Hexisting.
    apply prog_bind_done in Hexisting as (trades & env2' & _ & Hexisting).
    apply prog_bind_done in Hexisting as ([] & env2'' & Hcommit & Hret).
    injection Hret as <- _.
    apply commit_ranges_done in Hcommit as [_ Hcommit]. specialize (Hcommit a Hin).
    unfold range_of in Hcommit.
    exact (writes_end_keeps _ _ _ _ _ Hrest Hcommit).
Qed.

(** One call, made when no recorded range ends after [bound] and asking for a
    [to_timestamp] that is not before [bound]. *)
Lemma get_trades_range_step (c : Call) (env : Env World SwapStore) (bound : Timestamp) :
  (forall a start_ts end_ts, range_of env a = Some (start_ts, end_ts) -> end_ts <= bound) ->
  bound <= call_to_timestamp c ->
  let env' := (_get_trades (call_fuel c) (call_addresses c)
                 (call_from_timestamp c) (call_to_timestamp c) env).1 in
  forall a : ChecksumEthAddress,
    (range_of env' a = range_of env a \/
     exists start_ts, range_of env' a = Some (start_ts, call_to_timestamp c)) /\
    (forall start_ts end_ts,
        range_of env' a = Some (start_ts, end_ts) -> end_ts <= call_to_timestamp c) /\
    (forall start_ts end_ts,
        range_of env a = Some (start_ts, end_ts) ->
        exists start_ts' end_ts',
          range_of env' a = Some (start_ts', end_ts') /\ end_ts <= end_ts') /\
    (a ∈ call_addresses c ->
     (exists r, (_get_trades (call_fuel c) (call_addresses c)
                   (call_from_timestamp c) (call_to_timestamp c) env).2 = Done r) ->
     exists start_ts, range_of env' a = Some (start_ts, call_to_timestamp c)).
Proof.
  intros Hbound Hle env' a.
  assert (Hdone : a ∈ call_addresses c ->
           (exists r, (_get_trades (call_fuel c) (call_addresses c)
                         (call_from_timestamp c) (call_to_timestamp c) env).2 = Done r) ->
           exists start_ts, range_of env' a = Some (start_ts, call_to_timestamp c)).
  { intros Ha [r Hr]. subst env'.
    destruct (_get_trades (call_fuel c) (call_addresses c) (call_from_timestamp c)
                (call_to_timestamp c) env) as [env1 o] eqn:E.
    cbn [snd] in Hr. subst o. cbn [fst].
    exact (get_trades_done_commits _ _ _ _ _ _ _ E a Ha). }
  assert (Hw : writes_end (call_to_timestamp c) (used_query_ranges env) (used_query_ranges env')).
  { subst env'.
    destruct (_get_trades (call_fuel c) (call_addresses c) (call_from_timestamp c)
                (call_to_timestamp c) env) as [env1 o] eqn:E.
    exact (get_trades_commits_only _ _ _ _ _ _ _ E). }
  unfold range_of in *. specialize (Hw (entry_name a)).
  split; [exact Hw|]. split; [|split; [|exact Hdone]].
  - intros start_ts end_ts H. destruct Hw as [Hw | [st Hw]].
    + rewrite Hw in H. apply Hbound in H. lia.
    + rewrite Hw in H. injection H as _ <-. lia.
  - intros start_ts end_ts H. destruct Hw as [Hw | [st Hw]].
    + exists start_ts, end_ts. rewrite Hw. split; [assumption | lia].
    + exists st, (call_to_timestamp c). split; [assumption|].
      apply Hbound in H. lia.
Qed.

(** C5: calls of [_get_trades] made one after the other with non-decreasing
    [to_timestamp], from a range store in which no range ends after the first
    of them (the empty store, for one).  At every call and for every address:
    the call either leaves the address's range alone or writes one whose end is
    the call's [to_timestamp] (new and existing addresses alike); after the
    call the recorded end does not exceed that [to_timestamp], the latest
    asked for; a range recorded before the call is still recorded after it,
    with an end that is not smaller; and when the call returns, each of its
    addresses has a range that ends at its [to_timestamp]. *)
Theorem range_monotonicity (calls : list Call) :
  forall (env0 : Env World SwapStore) (bound : Timestamp),
    (forall a start_ts end_ts, range_of env0 a = Some (start_ts, end_ts) -> end_ts <= bound) ->
    Sorted Z.le (bound :: (call_to_timestamp <$> calls)) ->
    forall (i : nat) (c : Call) (env env' : Env World SwapStore),
      calls !! i = Some c ->
      (env0 :: run_calls env0 calls) !! i = Some env ->
      run_calls env0 calls !! i = Some env' ->
      forall a : ChecksumEthAddress,
        (range_of env' a = range_of env a \/
         exists start_ts, range_of env' a = Some (start_ts, call_to_timestamp c)) /\
        (forall start_ts end_ts,
            range_of env' a = Some (start_ts, end_ts) -> end_ts <= call_to_timestamp c) /\
        (forall start_ts end_ts,
            range_of env a = Some (start_ts, end_ts) ->
            exists start_ts' end_ts',
              range_of env' a = Some (start_ts', end_ts') /\ end_ts <= end_ts') /\
        (a ∈ call_addresses c ->
         (exists r, (_get_trades (call_fuel c) (call_addresses c)
                       (call_from_timestamp c) (call_to_timestamp c) env).2 = Done r) ->
         exists start_ts, range_of env' a = Some (start_ts, call_to_timestamp c)).
Proof.
  induction calls as [|c0 calls IH]; intros env0 bound Hbound Hsorted i c env env' Hc Henv Henv';
    [discriminate|].
  cbn [fmap list_fmap] in Hsorted.
  apply Sorted_inv in Hsorted as [Hsorted Hhd]. apply HdRel_inv in Hhd.
  pose proof (get_trades_range_step c0 env0 bound Hbound Hhd) as Hstep. cbv zeta in Hstep.
  cbn [run_calls] in Henv, Henv'.
  destruct i as [|i].
  - cbn in Hc, Henv, Henv'. injection Hc as <-. injection Henv as <-. injection Henv' as <-.
    exact Hstep.
  - cbn [lookup list_lookup] in Hc, Henv, Henv'.
    eapply (IH _ (call_to_timestamp c0)); eauto.
    intros a st e H. destruct (Hstep a) as (_ & Hb & _ & _). eapply Hb, H.
Qed.

(** ** More on the trade derivation *)

Lemma fval_div_done (a b q : FVal) : fval_div a b = Done q <-> b <> ZERO /\ q = (a / b)%Qc.
Proof.
  unfold fval_div. destruct (fval_ne b ZERO) eqn:E.
  - apply fval_ne_spec in E. split; [intros [= <-]; auto | intros [_ ->]; reflexivity].
  - apply fval_ne_false in E. split; [|intros [H _]; contradiction].
    destruct (fval_ne a ZERO); discriminate.
Qed.

Lemma add_trade_loop_done (group : list AMMSwap) (token : Token) (bought : AssetAmount)
    (quote_assets : list (Token * AssetAmount)) :
  forall (trades : list AMMTrade) (i : Z) (st : list AMMTrade * Z),
    for_each (add_trade group token bought) quote_assets (trades, i) = Done st <->
    Forall (fun entry => entry.2 <> ZERO) quote_assets /\
    st = (trades ++ trades_of_legs group token bought i quote_assets,
          i + Z.of_nat (length quote_assets)).
Proof.
  induction quote_assets as [|[q sold] l IH]; intros trades i st.
  - cbn. rewrite app_nil_r, Z.add_0_r. split; [intros [= <-]; auto | intros [_ ->]; reflexivity].
  - cbn [for_each add_trade fst snd]. unfold trades_of_legs. rewrite imap_cons.
    destruct (fval_div bought sold) as [r|e|] eqn:E.
    + apply fval_div_done in E as [Hsold ->]. cbn [mbind outcome_bind]. rewrite IH.
      rewrite Forall_cons. cbn [fst snd length]. rewrite <- app_assoc. cbn [app].
      rewrite Z.add_0_r.
      replace (i + 1 + Z.of_nat (length l)) with (i + Z.of_nat (S (length l))) by lia.
      assert (Heq : trades_of_legs group token bought (i + 1) l =
                    imap ((fun (j : nat) (entry : Token * AssetAmount) =>
                             {| trade_type := BUY; base_asset := token; quote_asset := entry.1;
                                amount := bought; rate := (bought / entry.2)%Qc;
                                swaps := group; trade_index := i + Z.of_nat j |}) ∘ S) l).
      { unfold trades_of_legs. apply imap_ext. intros j x _. cbn. f_equal. lia. }
      rewrite Heq. split; [intros [H1 H2]; auto | intros [[_ H1] H2]; auto].
    + cbn [mbind outcome_bind]. split; [discriminate|].
      intros [H _]. apply Forall_cons in H as [H _]. cbn in H.
      assert (fval_div bought sold = Done (bought / sold)%Qc) by (apply fval_div_done; auto).
      congruence.
    + unfold fval_div in E. destruct (fval_ne sold ZERO), (fval_ne bought ZERO); discriminate.
Qed.

Lemma add_trades_from_swaps_iff (swaps : list AMMSwap) (trades : list AMMTrade)
    (both_in : bool) (quote_assets : list (Token * AssetAmount))
    (token_amount : AssetAmount) (token : Token) (trade_index : Z) (r : list AMMTrade) :
  add_trades_from_swaps swaps trades both_in quote_assets token_amount token trade_index
    = Done r <->
  Forall (fun entry => entry.2 <> ZERO) quote_assets /\
  r = trades ++ trades_of_legs swaps token
                  (if both_in then fval_half token_amount else token_amount)
                  trade_index quote_assets.
Proof.
  unfold add_trades_from_swaps.
  set (bought := if both_in then fval_half token_amount else token_amount).
  destruct (for_each (add_trade swaps token bought) quote_assets (trades, trade_index))
    as [st|e|] eqn:E; cbn [mbind outcome_bind].
  - apply add_trade_loop_done in E as [Hall ->]. cbn [fst].
    split; [intros [= <-]; auto | intros [_ ->]; reflexivity].
  - split; [discriminate|]. intros [Hall _].
    assert (exists st, for_each (add_trade swaps token bought) quote_assets (trades, trade_index)
                       = Done st) as [st Hst]
      by (eexists; apply add_trade_loop_done; eauto).
    congruence.
  - split; [discriminate|]. intros [Hall _].
    assert (exists st, for_each (add_trade swaps token bought) quote_assets (trades, trade_index)
                       = Done st) as [st Hst]
      by (eexists; apply add_trade_loop_done; eauto).
    congruence.
Qed.

(** X1: what [add_trades_from_swaps] returns.  When it returns, no quote leg
    has a zero sold amount, and the result is the trades it was given followed
    by one BUY trade per quote leg, in the order of the legs, numbered from
    [trade_index] on, each buying [token_amount] (halved when [both_in]) of
    [token] at the rate bought over sold and carrying the swaps it was given. *)
Theorem add_trades_from_swaps_done (swaps : list AMMSwap) (trades : list AMMTrade)
    (both_in : bool) (quote_assets : list (Token * AssetAmount))
    (token_amount : AssetAmount) (token : Token) (trade_index : Z) (r : list AMMTrade) :
  add_trades_from_swaps swaps trades both_in quote_assets token_amount token trade_index
    = Done r ->
  Forall (fun entry => entry.2 <> ZERO) quote_assets /\
  r = trades ++ trades_of_legs swaps token
                  (if both_in then fval_half token_amount else token_amount)
                  trade_index quote_assets.
Proof. apply add_trades_from_swaps_iff. Qed.



Lemma trades_of_legs_Forall group token bought (i : Z) legs (P : Token * AssetAmount -> Prop) :
  Forall P legs ->
  Forall (fun t => trade_type t = BUY /\ base_asset t = token /\ amount t = bought /\
                   swaps t = group /\
                   exists entry, P entry /\ quote_asset t = entry.1 /\
                                 rate t = (bought / entry.2)%Qc)
    (trades_of_legs group token bought i legs).
Proof.
  unfold trades_of_legs. intros H. revert i. induction H as [|e legs He _ IH]; intros i.
  - constructor.
  - rewrite imap_cons. constructor.
    + cbn. repeat split; eauto.
    + specialize (IH (i + 1)).
      erewrite imap_ext; [exact IH|]. intros j x _. cbn. f_equal. lia.
Qed.





(** X3: the edges of [_tx_swaps_to_trades].  It raises [IndexError] exactly on
    the empty list.  On a group whose first swap has no positive [amount0_in]
    and a zero [amount1_in], and whose last swap has a positive outbound
    amount, it raises [DivisionByZero].  On a group whose last swap has no
    positive outbound amount it returns the empty list, whatever the inbound
    amounts. *)
Theorem tx_swaps_to_trades_failures (group : list AMMSwap) :
  (_tx_swaps_to_trades group = Raise IndexError <-> group = []) /\
  (forall first last_,
      head group = Some first -> last group = Some last_ ->
      ~ (0 < amount0_in first)%Qc -> amount1_in first = ZERO ->
      (0 < amount0_out last_)%Qc \/ (0 < amount1_out last_)%Qc ->
      _tx_swaps_to_trades group = Raise DivisionByZero) /\
  (forall last_,
      last group = Some last_ ->
      ~ (0 < amount0_out last_)%Qc -> ~ (0 < amount1_out last_)%Qc ->
      _tx_swaps_to_trades group = Done []).
Proof.
  split; [apply tx_swaps_index_error|]. split.
  - intros first last_ Hf Hl Hn0 Hz Hout.
    rewrite (tx_swaps_to_trades_unfold group first last_ Hf Hl). cbv zeta.
    assert (I0 : fval_gt (amount0_in first) ZERO = false).
    { destruct (fval_gt (amount0_in first) ZERO) eqn:E; [|reflexivity].
      apply fval_gt_spec in E. contradiction. }
    unfold quote_legs. rewrite I0, Hz. cbn [andb].
    replace (fval_gt ZERO ZERO) with false by reflexivity.
    destruct (fval_gt (amount0_out last_) ZERO) eqn:E0.
    + rewrite add_trades_zero_sold by assumption. reflexivity.
    + destruct Hout as [H|H]; apply fval_gt_spec in H; [unfold ZERO in E0; congruence|].
      cbn [mbind outcome_bind]. unfold ZERO. rewrite H.
      apply add_trades_zero_sold. exact H.
  - intros last_ Hl H0 H1.
    destruct group as [|x l]; [discriminate Hl|].
    rewrite (tx_swaps_to_trades_unfold (x :: l) x last_ eq_refl Hl). cbv zeta.
    destruct (fval_gt (amount0_out last_) ZERO) eqn:E0;
      [apply fval_gt_spec in E0; contradiction|].
    destruct (fval_gt (amount1_out last_) ZERO) eqn:E1;
      [apply fval_gt_spec in E1; contradiction|].
    reflexivity.
Qed.

(** ** More on the grouping *)

Lemma distinct_neighbours_cons (g : list AMMSwap) (groups : list (list AMMSwap)) :
  (forall g2, head groups = Some g2 ->
     forall s1 s2, s1 ∈ g -> s2 ∈ g2 -> tx_hash s1 <> tx_hash s2) ->
  distinct_neighbours groups ->
  distinct_neighbours (g :: groups).
Proof.
  intros Hhead Hrest [|i] g1 g2 H1 H2.
  - injection H1 as <-. apply Hhead. destruct groups; [discriminate | exact H2].
  - exact (Hrest i g1 g2 H1 H2).
Qed.

(** The loop run with the recording callee: the groups handed over and the
    pending swaps are the pending swaps and the list, cut where the hash
    changes. *)
Lemma record_loop (l : list AMMSwap) :
  forall (acc : list (list AMMSwap)) (cur : list AMMSwap) (h : string),
    Forall (fun s => tx_hash s = h) cur ->
    exists (gs : list (list AMMSwap)) (cur' : list AMMSwap) (h' : string),
      for_each (group_step (fun g => Done [g])) l (acc, cur, h) = Done (acc ++ gs, cur', h') /\
      concat gs ++ cur' = cur ++ l /\
      Forall one_transaction (gs ++ [cur']) /\
      distinct_neighbours (gs ++ [cur']) /\
      (exists rest, head (gs ++ [cur']) = Some (cur ++ rest)) /\
      (cur <> [] \/ l <> [] -> cur' <> []).
Proof.
  induction l as [|swap l IH]; intros acc cur h Hcur.
  - exists [], cur, h. rewrite !app_nil_r. cbn. split_and!.
    + reflexivity.
    + reflexivity.
    + constructor; [|constructor]. now exists h.
    + intros [|i] g1 g2 H1 H2; discriminate.
    + exists []. now rewrite app_nil_r.
    + intros [H | H]; [exact H | contradiction].
  - cbn [for_each]. destruct (decide (tx_hash swap = h)) as [Heq | Hne].
    + rewrite group_step_same by assumption. cbn [mbind outcome_bind].
      destruct (IH acc (cur ++ [swap]) (tx_hash swap))
        as (gs & cur' & h' & Hrun & Hcat & Hone & Hnb & [rest Hhead] & Hnonempty).
      { rewrite Heq. apply Forall_app. split; [exact Hcur|]. now repeat constructor. }
      exists gs, cur', h'. rewrite Hrun, Hcat, <- app_assoc. split_and!.
      * reflexivity.
      * reflexivity.
      * exact Hone.
      * exact Hnb.
      * exists (swap :: rest). now rewrite Hhead, <- app_assoc.
      * intros _. apply Hnonempty. left. now destruct cur.
    + rewrite group_step_new by assumption. cbn [mbind outcome_bind].
      destruct (IH (acc ++ [cur]) [swap] (tx_hash swap))
        as (gs & cur' & h' & Hrun & Hcat & Hone & Hnb & [rest Hhead] & Hnonempty).
      { now repeat constructor. }
      exists (cur :: gs), cur', h'. rewrite Hrun, <- app_assoc. cbn [app concat].
      rewrite <- app_assoc, Hcat. split_and!.
      * reflexivity.
      * reflexivity.
      * constructor; [now exists h | exact Hone].
      * apply distinct_neighbours_cons; [|exact Hnb].
        intros g2 Hg2 s1 s2 Hs1 Hs2. rewrite Hhead in Hg2. injection Hg2 as <-.
        assert (Hin : (swap :: rest) ∈ gs ++ [cur']).
        { destruct (gs ++ [cur']); [discriminate|]. injection Hhead as ->. apply list_elem_of_here. }
        rewrite Forall_forall in Hone. destruct (Hone _ Hin) as [h2 Hh2].
        rewrite Forall_forall in Hh2, Hcur.
        rewrite (Hcur _ Hs1), (Hh2 _ Hs2), <- (Hh2 swap) by apply list_elem_of_here.
        congruence.
      * exists []. now rewrite app_nil_r.
      * intros _. apply Hnonempty. left. discriminate.
Qed.

(** The groups of [swaps_to_trades]: the sorted swaps cut into non-empty runs
    of one transaction hash each, a run ending where the hash changes. *)
Lemma tx_groups_runs (swaps : list AMMSwap) :
  exists groups : list (list AMMSwap),
    tx_groups swaps = Done groups /\
    concat groups = sort_reverse swaps /\
    Forall (fun g => g <> [] /\ one_transaction g) groups /\
    distinct_neighbours groups /\
    (forall (T : Type) (f : list AMMSwap -> Outcome (list T)),
        swaps_to_trades_with f swaps = extend_all f groups).
Proof.
  destruct (swaps_to_trades_with_groups swaps) as (groups & Hg & Hne & Hnil & Hrun).
  exists groups. split; [exact Hg|].
  destruct swaps as [|s0 swaps'].
  { rewrite (Hnil eq_refl). repeat split; auto. intros [|i] g1 g2 H1 H2; discriminate. }
  set (swaps := s0 :: swaps') in *.
  destruct (sort_reverse swaps) as [|x sorted] eqn:Hs.
  { pose proof (sort_reverse_length swaps) as Hlen. rewrite Hs in Hlen. discriminate. }
  destruct (record_loop (x :: sorted) [] [] (tx_hash x))
    as (gs & cur' & h' & Hloop & Hcat & Hone & Hnb & _ & Hnonempty); [constructor|].
  assert (Hgroups : groups = gs ++ [cur']).
  { unfold tx_groups, swaps_to_trades_with, swaps in Hg. fold swaps in Hg. rewrite Hs in Hg.
    rewrite (py_index_head (x :: sorted) x eq_refl) in Hg. cbn [mbind outcome_bind] in Hg.
    rewrite Hloop in Hg. cbn [mbind outcome_bind app] in Hg.
    destruct cur' as [|c cur']; [exfalso; apply Hnonempty; [right; discriminate | reflexivity]|].
    cbn in Hg. now injection Hg as <-. }
  subst groups. repeat split; auto.
  - rewrite concat_app. cbn [concat]. now rewrite app_nil_r.
  - rewrite Forall_forall in Hne, Hone |- *. intros g Hg'. split; auto.
Qed.

(** X4: the groups [swaps_to_trades] derives trades from.  Put end to end they
    are the swaps in sorted order, none lost or repeated; each group is
    non-empty and holds swaps of one transaction hash, and the next group
    starts where the hash changes: no swap of a group has the hash of a swap of
    the group that follows it. *)
Theorem tx_groups_partition (swaps : list AMMSwap) :
  exists groups : list (list AMMSwap),
    tx_groups swaps = Done groups /\
    swaps_to_trades swaps = extend_all _tx_swaps_to_trades groups /\
    concat groups = sort_reverse swaps /\
    Forall (fun g => g <> [] /\ one_transaction g) groups /\
    distinct_neighbours groups.
Proof.
  destruct (tx_groups_runs swaps) as (groups & Hg & Hcat & Hone & Hnb & Hrun).
  exists groups. repeat split; auto. apply Hrun.
Qed.

Lemma StronglySorted_weaken {A : Type} (R R' : A -> A -> Prop) (l : list A) :
  (forall a b, R a b -> R' a b) -> StronglySorted R l -> StronglySorted R' l.
Proof.
  intros HR. induction 1 as [|x l Hs IH Hx]; constructor; [exact IH|].
  eapply Forall_impl; [exact Hx|]. auto.
Qed.

(** X5: the order in which [swaps_to_trades] goes through the swaps.  The
    groups put end to end hold the swaps it was given, each once; they are in
    non-increasing order of [(timestamp, -log_index)], so later timestamps come
    first and, at one timestamp, lower log indices first; and swaps of equal
    timestamp and log index keep the order they were given in. *)
Theorem tx_groups_order (swaps : list AMMSwap) :
  exists groups : list (list AMMSwap),
    tx_groups swaps = Done groups /\
    concat groups ≡ₚ swaps /\
    StronglySorted (fun a b =>
        timestamp b < timestamp a \/
        (timestamp a = timestamp b /\ log_index a <= log_index b))
      (concat groups) /\
    (forall k : Z * Z,
        filter (fun s => (timestamp s, log_index s) = k) (concat groups)
        = filter (fun s => (timestamp s, log_index s) = k) swaps).
Proof.
  destruct (tx_groups_runs swaps) as (groups & Hg & Hcat & _).
  exists groups. split; [exact Hg|]. rewrite Hcat.
  split; [apply sort_reverse_perm|]. split.
  - eapply StronglySorted_weaken; [|apply sort_reverse_sorted].
    intros a b H. unfold not_below in H. apply key_lt_false in H. unfold sort_key in H.
    cbn in H. lia.
  - intros [t lg].
    pose proof (sort_reverse_stable (t, - lg) swaps) as Hst.
    assert (Hext : forall l : list AMMSwap,
               filter (fun s => (timestamp s, log_index s) = (t, lg)) l
               = filter (fun s => sort_key s = (t, - lg)) l).
    { intros l. apply list_filter_iff. intros s. unfold sort_key. split.
      - intros [= <- <-]. reflexivity.
      - intros [= <- H]. f_equal. lia. }
    now rewrite !Hext.
Qed.

(** X6: the swaps of one transaction.  When all the swaps given (at least one)
    have the same transaction hash, [swaps_to_trades] derives the trades of the
    single group made of the swaps in sorted order. *)
Theorem swaps_to_trades_one_transaction (swaps : list AMMSwap) (h : string) :
  swaps <> [] ->
  Forall (fun s => tx_hash s = h) swaps ->
  tx_groups swaps = Done [sort_reverse swaps] /\
  swaps_to_trades swaps = _tx_swaps_to_trades (sort_reverse swaps).
Proof.
  intros Hne Hall.
  destruct (tx_groups_runs swaps) as (groups & Hg & Hcat & Hone & Hnb & Hrun).
  assert (Hsorted : Forall (fun s => tx_hash s = h) (sort_reverse swaps))
    by (now rewrite sort_reverse_perm).
  assert (Hgroups : groups = [sort_reverse swaps]).
  { destruct groups as [|g1 [|g2 groups]].
    - cbn in Hcat. pose proof (sort_reverse_length swaps) as Hlen. rewrite <- Hcat in Hlen.
      destruct swaps; [contradiction | discriminate].
    - cbn in Hcat. rewrite app_nil_r in Hcat. now rewrite Hcat.
    - exfalso. rewrite <- Hcat in Hsorted. cbn [concat] in Hsorted.
      apply Forall_app in Hsorted as [H1 H2]. apply Forall_app in H2 as [H2 _].
      apply Forall_cons in Hone as [[Hg1 _] Hone]. apply Forall_cons in Hone as [[Hg2 _] _].
      destruct g1 as [|s1 g1]; [contradiction|]. destruct g2 as [|s2 g2]; [contradiction|].
      apply Forall_cons in H1 as [H1 _]. apply Forall_cons in H2 as [H2 _].
      apply (Hnb 0%nat (s1 :: g1) (s2 :: g2) eq_refl eq_refl s1 s2);
        [apply list_elem_of_here | apply list_elem_of_here | congruence]. }
  subst groups. split; [exact Hg|].
  unfold swaps_to_trades. rewrite Hrun. cbn [extend_all].
  destruct (_tx_swaps_to_trades (sort_reverse swaps)); cbn; [now rewrite app_nil_r | auto..].
Qed.

(** ** More on the used query ranges *)

Lemma entry_name_inj (a b : ChecksumEthAddress) : entry_name a = entry_name b -> a = b.
Proof.
  unfold entry_name. intros H.
  apply (inj (String.app UNISWAP_TRADES_PREFIX)) in H.
  now apply (inj (String.app "_")) in H.
Qed.

Lemma classify_addresses_spec (addresses : list ChecksumEthAddress) :
  forall new existing (m : Timestamp) (env : Env World SwapStore),
    for_each_p classify_address addresses (new, existing, m) env
    = (env, Done (new ++ new_addresses_of env addresses,
                  existing ++ existing_addresses_of env addresses,
                  min_end_ts_of env m addresses)).
Proof.
  unfold new_addresses_of, existing_addresses_of, min_end_ts_of.
  induction addresses as [|a addresses IH]; intros new existing m env.
  - cbn. now rewrite !app_nil_r.
  - cbn [for_each_p foldl]. unfold mbind at 1, prog_bind.
    unfold classify_address at 1. unfold mbind at 1, prog_bind, get_used_query_range.
    rewrite !filter_cons.
    destruct (used_query_ranges env !! entry_name a) as [range|] eqn:E; cbn [fst snd].
    + assert (Hr : range_of env a = Some range) by exact E.
      rewrite decide_False by (rewrite Hr; discriminate).
      rewrite decide_True by (rewrite Hr; eauto).
      rewrite Hr. cbn. rewrite IH. now rewrite <- app_assoc.
    + assert (Hr : range_of env a = None) by exact E.
      rewrite decide_True by exact Hr.
      rewrite decide_False by (rewrite Hr; intros [? ?]; discriminate).
      rewrite Hr. cbn. rewrite IH. now rewrite <- app_assoc.
Qed.

Lemma min_end_ts_of_le (env : Env World SwapStore) (addresses : list ChecksumEthAddress) :
  forall m : Timestamp,
    min_end_ts_of env m addresses <= m /\
    (forall a start_ts end_ts,
        a ∈ addresses -> range_of env a = Some (start_ts, end_ts) ->
        min_end_ts_of env m addresses <= end_ts) /\
    (min_end_ts_of env m addresses = m \/
     exists a start_ts, a ∈ addresses /\
       range_of env a = Some (start_ts, min_end_ts_of env m addresses)).
Proof.
  unfold min_end_ts_of.
  induction addresses as [|a addresses IH]; intros m; cbn [foldl].
  - split; [lia|]. split; [|now left]. intros a st e Ha. inversion Ha.
  - destruct (range_of env a) as [[st0 e0]|] eqn:E.
    + destruct (IH (Z.min m e0)) as (Hle & Hall & Hex). cbn [snd] in *.
      split; [lia|]. split.
      * intros b st e Hb Hr. apply elem_of_cons in Hb as [-> | Hb]; [|eauto].
        rewrite E in Hr. injection Hr as _ <-. lia.
      * destruct Hex as [Heq | (b & st & Hb & Hr)].
        -- destruct (Z.min_spec m e0) as [[_ Hm] | [_ Hm]].
           ++ left. congruence.
           ++ right. exists a, st0. split; [apply list_elem_of_here|]. now rewrite Heq, Hm.
        -- right. exists b, st. split; [now apply list_elem_of_further | exact Hr].
    + destruct (IH m) as (Hle & Hall & Hex). split; [exact Hle|]. split.
      * intros b st e Hb Hr. apply elem_of_cons in Hb as [-> | Hb]; [congruence | eauto].
      * destruct Hex as [Heq | (b & st & Hb & Hr)]; [now left|].
        right. exists b, st. split; [now apply list_elem_of_further | exact Hr].
Qed.

Lemma keeps_ranges_ret {A : Type} (a : A) : keeps_ranges (mret a).
Proof. now intros env env' o [= <- _]. Qed.

Lemma keeps_ranges_lift {A : Type} (o : Outcome A) : keeps_ranges (lift o).
Proof. now intros env env' o' [= <- _]. Qed.

Lemma keeps_ranges_bind {A B : Type} (m : Prog (Env World SwapStore) A)
    (k : A -> Prog (Env World SwapStore) B) :
  keeps_ranges m -> (forall a, keeps_ranges (k a)) -> keeps_ranges (m ≫= k).
Proof.
  intros Hm Hk env env' o H. unfold mbind, prog_bind in H.
  destruct (m env) as [env1 [a|e|]] eqn:E.
  - rewrite (Hk _ _ _ _ H). eapply Hm, E.
  - injection H as <- _. eapply Hm, E.
  - injection H as <- _. eapply Hm, E.
Qed.

Lemma keeps_ranges_for_each {A S : Type} (body : S -> A -> Prog (Env World SwapStore) S)
    (l : list A) :
  (forall s x, keeps_ranges (body s x)) -> forall s, keeps_ranges (for_each_p body l s).
Proof.
  intros Hbody. induction l as [|x l IH]; intros s; cbn [for_each_p].
  - apply keeps_ranges_ret.
  - apply keeps_ranges_bind; [apply Hbody | exact IH].
Qed.

Lemma keeps_ranges_on_graph {A : Type} (m : Prog World A) : keeps_ranges (on_graph m).
Proof.
  intros env env' o H. unfold on_graph in H.
  destruct (m (graph env)) as [w r]. now injection H as <- _.
Qed.

(** The last part of [_get_trades], from the storing of the swaps on, leaves
    the ranges alone. *)
Lemma keeps_ranges_store_and_read (addresses : list ChecksumEthAddress)
    (from_timestamp to_timestamp : Timestamp) (swaps : list AMMSwap) :
  keeps_ranges
    (db_add_amm_swaps swaps ≫= (fun _ : unit =>
       for_each_p (fun (db_address_trades : AddressTrades) address =>
           db_swaps ← db_get_amm_swaps from_timestamp to_timestamp UNISWAP address;
           db_trades ← lift (swaps_to_trades db_swaps);
           if negb (length db_trades =? 0)%nat
           then mret (<[address := db_trades]> db_address_trades)
           else mret db_address_trades) addresses ∅)).
Proof.
  apply keeps_ranges_bind; [now intros env env' o [= <- _]|]. intros _.
  apply keeps_ranges_for_each. intros acc a.
  apply keeps_ranges_bind; [now intros env env' o [= <- _]|]. intros db_swaps.
  apply keeps_ranges_bind; [apply keeps_ranges_lift|]. intros db_trades.
  destruct (negb (length db_trades =? 0)%nat); apply keeps_ranges_ret.
Qed.

(** The commit loop writes [(start_ts, to_ts)] under the names of its
    addresses and nothing else. *)
Lemma commit_ranges_lookup (addresses : list ChecksumEthAddress) (start_ts to_ts : Timestamp) :
  forall (env env' : Env World SwapStore) o,
    commit_ranges addresses start_ts to_ts env = (env', o) ->
    o = Done tt /\ graph env' = graph env /\ amm_swaps env' = amm_swaps env /\
    forall name : string,
      (name ∈ (entry_name <$> addresses) ->
         used_query_ranges env' !! name = Some (start_ts, to_ts)) /\
      (name ∉ (entry_name <$> addresses) ->
         used_query_ranges env' !! name = used_query_ranges env !! name).
Proof.
  induction addresses as [|x addresses IH]; intros env env' o H.
  - injection H as <- <-. split_and!; auto. intros name. split; [|auto].
    intros Hn. inversion Hn.
  - unfold commit_ranges in H. cbn [for_each_p] in H.
    unfold mbind at 1, prog_bind, update_used_query_range at 1 in H.
    fold (commit_ranges addresses start_ts to_ts) in H.
    pose proof (commit_ranges_keeps _ _ _ (entry_name x) _ _ _ H) as Hkeep.
    apply IH in H as (-> & Hg & Hs & Hlook). cbn in Hg, Hs, Hkeep.
    split_and!; auto. intros name. cbn [fmap list_fmap]. split.
    + intros Hn. apply elem_of_cons in Hn as [-> | Hn].
      * apply Hkeep. apply lookup_insert_eq.
      * now apply Hlook.
    + intros Hn. apply not_elem_of_cons in Hn as [Hne Hn].
      destruct (Hlook name) as [_ Hout]. rewrite (Hout Hn). cbn.
      now apply lookup_insert_ne.
Qed.

Lemma get_trades_phases (fuel : nat) (addresses : list ChecksumEthAddress)
    (from_timestamp to_timestamp : Timestamp) (env : Env World SwapStore) :
  _get_trades fuel addresses from_timestamp to_timestamp env =
    (let new_addresses := new_addresses_of env addresses in
     let existing_addresses := existing_addresses_of env addresses in
     let min_end_ts := min_end_ts_of env to_timestamp addresses in
     (address_amm_trades ←
        (if negb (length new_addresses =? 0)%nat then
           new_address_trades ←
             on_graph (_get_trades_graph fuel new_addresses 0 to_timestamp);
           _ ← commit_ranges new_addresses 0 to_timestamp;
           mret (new_address_trades ∪ ∅)
         else mret ∅);
      address_amm_trades ←
        (if negb (length existing_addresses =? 0)%nat && (min_end_ts <=? to_timestamp) then
           address_new_trades ←
             on_graph (_get_trades_graph fuel existing_addresses min_end_ts to_timestamp);
           _ ← commit_ranges existing_addresses min_end_ts to_timestamp;
           mret (address_new_trades ∪ address_amm_trades)
         else mret address_amm_trades);
      _ ← db_add_amm_swaps (list_of_set (fetched_swaps addresses address_amm_trades));
      for_each_p (fun (db_address_trades : AddressTrades) address =>
          db_swaps ← db_get_amm_swaps from_timestamp to_timestamp UNISWAP address;
          db_trades ← lift (swaps_to_trades db_swaps);
          if negb (length db_trades =? 0)%nat
          then mret (<[address := db_trades]> db_address_trades)
          else mret db_address_trades) addresses ∅) env).
Proof.
  unfold _get_trades. unfold mbind at 1, prog_bind at 1.
  rewrite classify_addresses_spec. reflexivity.
Qed.

Lemma fetch_and_commit_lookup (fuel : nat) (batch : list ChecksumEthAddress)
    (start_ts to_ts : Timestamp) (t0 t : AddressTrades) (env env' : Env World SwapStore) :
  (trades ← on_graph (_get_trades_graph fuel batch start_ts to_ts);
   _ ← commit_ranges batch start_ts to_ts;
   mret (trades ∪ t0)) env = (env', Done t) ->
  forall name : string,
    (name ∈ (entry_name <$> batch) ->
       used_query_ranges env' !! name = Some (start_ts, to_ts)) /\
    (name ∉ (entry_name <$> batch) ->
       used_query_ranges env' !! name = used_query_ranges env !! name).
Proof.
  intros H name.
  apply prog_bind_done in H as (trades & env1 & Hfetch & H).
  apply prog_bind_done in H as ([] & env2 & Hcommit & Hret). injection Hret as <- _.
  apply keeps_ranges_on_graph in Hfetch.
  apply commit_ranges_lookup in Hcommit as (_ & _ & _ & Hlook).
  destruct (Hlook name) as [Hin Hout]. split; [exact Hin|].
  intros Hn. now rewrite (Hout Hn), Hfetch.
Qed.

(** X7: the ranges a returning call of [_get_trades] leaves.  An address of
    the call that had no recorded range has [(0, to_timestamp)]; one that had a
    range has [(min_end_ts, to_timestamp)], where [min_end_ts] is the least of
    [to_timestamp] and the ends recorded, before the call, for the addresses of
    the call; a name that is not the entry name of an address of the call
    keeps what it had.  So [min_end_ts] is not after [to_timestamp] nor after
    the end an address of the call had. *)
Theorem get_trades_ranges_after (fuel : nat) (addresses : list ChecksumEthAddress)
    (from_timestamp to_timestamp : Timestamp) (env env' : Env World SwapStore)
    (r : AddressTrades) :
  _get_trades fuel addresses from_timestamp to_timestamp env = (env', Done r) ->
  let min_end_ts := min_end_ts_of env to_timestamp addresses in
  (forall a, a ∈ addresses -> range_of env a = None ->
     range_of env' a = Some (0, to_timestamp)) /\
  (forall a, a ∈ addresses -> is_Some (range_of env a) ->
     range_of env' a = Some (min_end_ts, to_timestamp)) /\
  (forall name : string, name ∉ (entry_name <$> addresses) ->
     used_query_ranges env' !! name = used_query_ranges env !! name) /\
  min_end_ts <= to_timestamp /\
  (forall a start_ts end_ts, a ∈ addresses -> range_of env a = Some (start_ts, end_ts) ->
     min_end_ts <= end_ts).
Proof.
  intros H. cbv zeta.
  destruct (min_end_ts_of_le env addresses to_timestamp) as (Hle & Hmin & _).
  rewrite get_trades_phases in H. cbv zeta in H.
  set (new := new_addresses_of env addresses) in *.
  set (existing := existing_addresses_of env addresses) in *.
  set (m := min_end_ts_of env to_timestamp addresses) in *.
  apply prog_bind_done in H as (t1 & env1 & Hnew & H).
  apply prog_bind_done in H as (t2 & env2 & Hexisting & H).
  apply keeps_ranges_store_and_read in H.
  assert (Hnew' : forall name : string,
             (name ∈ (entry_name <$> new) ->
                used_query_ranges env1 !! name = Some (0, to_timestamp)) /\
             (name ∉ (entry_name <$> new) ->
                used_query_ranges env1 !! name = used_query_ranges env !! name)).
  { destruct (negb (length new =? 0)%nat) eqn:E.
    - exact (fetch_and_commit_lookup _ _ _ _ _ _ _ _ Hnew).
    - injection Hnew as <- _. intros name. split; [|reflexivity].
      destruct new; [intros Hn; inversion Hn | discriminate]. }
  assert (Hexisting' : forall name : string,
             (name ∈ (entry_name <$> existing) ->
                used_query_ranges env2 !! name = Some (m, to_timestamp)) /\
             (name ∉ (entry_name <$> existing) ->
                used_query_ranges env2 !! name = used_query_ranges env1 !! name)).
  { assert (Hguard : (m <=? to_timestamp) = true) by now apply Z.leb_le.
    rewrite Hguard, andb_true_r in Hexisting.
    destruct (negb (length existing =? 0)%nat) eqn:E.
    - exact (fetch_and_commit_lookup _ _ _ _ _ _ _ _ Hexisting).
    - injection Hexisting as <- _. intros name. split; [|reflexivity].
      destruct existing; [intros Hn; inversion Hn | discriminate]. }
  assert (Hin_new : forall a, a ∈ new <-> a ∈ addresses /\ range_of env a = None).
  { intros a. unfold new, new_addresses_of. rewrite list_elem_of_filter. split; intros [? ?]; split; assumption. }
  assert (Hin_ex : forall a, a ∈ existing <-> a ∈ addresses /\ is_Some (range_of env a)).
  { intros a. unfold existing, existing_addresses_of. rewrite list_elem_of_filter. split; intros [? ?]; split; assumption. }
  unfold range_of. rewrite H. split_and!.
  - intros a Ha Hnone.
    destruct (Hexisting' (entry_name a)) as [_ Hout]. rewrite Hout.
    + apply Hnew'. apply list_elem_of_fmap. exists a. split; [reflexivity|]. now apply Hin_new.
    + intros Hn. apply list_elem_of_fmap in Hn as (b & Hb & Hbin).
      apply entry_name_inj in Hb as <-. apply Hin_ex in Hbin as [_ [x Hx]].
      unfold range_of in Hx. congruence.
  - intros a Ha Hsome. apply Hexisting'.
    apply list_elem_of_fmap. exists a. split; [reflexivity|]. now apply Hin_ex.
  - intros name Hn.
    destruct (Hexisting' name) as [_ Hout2]. destruct (Hnew' name) as [_ Hout1].
    rewrite Hout2, Hout1; [reflexivity | |].
    + intros Hc. apply Hn. apply list_elem_of_fmap in Hc as (b & -> & Hb).
      apply list_elem_of_fmap. exists b. split; [reflexivity|]. now apply Hin_new in Hb.
    + intros Hc. apply Hn. apply list_elem_of_fmap in Hc as (b & -> & Hb).
      apply list_elem_of_fmap. exists b. split; [reflexivity|]. now apply Hin_ex in Hb.
  - exact Hle.
  - exact Hmin.
Qed.

(** X8: a request that fails commits nothing.  When the request for the new
    addresses does not return, [_get_trades] ends with that failure and the
    range store and the swaps table are as before.  When it returns (or there
    is no new address) and the request for the existing addresses does not,
    [_get_trades] ends with that failure, the ranges of the existing addresses
    are as before and only the new addresses have their range
    [(0, to_timestamp)]. *)
Theorem get_trades_failed_fetch (fuel : nat) (addresses : list ChecksumEthAddress)
    (from_timestamp to_timestamp : Timestamp) (env : Env World SwapStore) :
  let new_addresses := new_addresses_of env addresses in
  let existing_addresses := existing_addresses_of env addresses in
  let min_end_ts := min_end_ts_of env to_timestamp addresses in
  (forall w o,
      new_addresses <> [] ->
      _get_trades_graph fuel new_addresses 0 to_timestamp (graph env) = (w, o) ->
      (forall t, o <> Done t) ->
      _get_trades fuel addresses from_timestamp to_timestamp env
      = ({| graph := w; used_query_ranges := used_query_ranges env;
            amm_swaps := amm_swaps env |}, o)) /\
  (forall w1 t1 w2 o,
      (new_addresses = [] /\ w1 = graph env \/
       new_addresses <> [] /\
       _get_trades_graph fuel new_addresses 0 to_timestamp (graph env) = (w1, Done t1)) ->
      existing_addresses <> [] ->
      _get_trades_graph fuel existing_addresses min_end_ts to_timestamp w1 = (w2, o) ->
      (forall t, o <> Done t) ->
      exists env',
        _get_trades fuel addresses from_timestamp to_timestamp env = (env', o) /\
        graph env' = w2 /\ amm_swaps env' = amm_swaps env /\
        (forall a, a ∈ existing_addresses -> range_of env' a = range_of env a) /\
        (forall a, a ∈ new_addresses -> range_of env' a = Some (0, to_timestamp)) /\
        (forall name : string, name ∉ (entry_name <$> new_addresses) ->
           used_query_ranges env' !! name = used_query_ranges env !! name)).
Proof.
  cbv zeta. split.
  - intros w o Hne Hfetch Hfail. rewrite get_trades_phases. cbv zeta.
    destruct (new_addresses_of env addresses) as [|n0 new] eqn:En; [contradiction|].
    cbn [length Nat.eqb negb]. unfold mbind at 1, prog_bind at 1.
    unfold mbind at 1, prog_bind at 1, on_graph at 1. rewrite Hfetch.
    destruct o as [t|e|]; [now destruct (Hfail t) | reflexivity..].
  - intros w1 t1 w2 o Hnew Hne Hfetch Hfail. rewrite get_trades_phases. cbv zeta.
    destruct (min_end_ts_of_le env addresses to_timestamp) as (Hle & _ & _).
    apply Z.leb_le in Hle.
    set (new := new_addresses_of env addresses) in *.
    set (existing := existing_addresses_of env addresses) in *.
    set (m := min_end_ts_of env to_timestamp addresses) in *.
    assert (Hphase1 : exists env1 t,
               (if negb (length new =? 0)%nat then
                  new_address_trades ← on_graph (_get_trades_graph fuel new 0 to_timestamp);
                  _ ← commit_ranges new 0 to_timestamp;
                  mret (new_address_trades ∪ (∅ : AddressTrades))
                else mret ∅) env = (env1, Done t) /\
               graph env1 = w1 /\ amm_swaps env1 = amm_swaps env /\
               forall name : string,
                 (name ∈ (entry_name <$> new) ->
                    used_query_ranges env1 !! name = Some (0, to_timestamp)) /\
                 (name ∉ (entry_name <$> new) ->
                    used_query_ranges env1 !! name = used_query_ranges env !! name)).
    { destruct Hnew as [[Hnil ->] | [Hnn Hf]].
      - rewrite Hnil. exists env, ∅. split_and!; auto. intros name. split; [|auto].
        intros Hn. inversion Hn.
      - destruct new as [|n0 new'] eqn:En; [contradiction|]. rewrite <- En in *.
        assert (Hlen : negb (length new =? 0)%nat = true) by (rewrite En; reflexivity).
        rewrite Hlen.
        destruct (commit_ranges new 0 to_timestamp
                    {| graph := w1; used_query_ranges := used_query_ranges env;
                       amm_swaps := amm_swaps env |}) as [env1 oc] eqn:Hc.
        pose proof (commit_ranges_lookup _ _ _ _ _ _ Hc) as (-> & Hg & Hs & Hlook).
        exists env1, (t1 ∪ ∅). split_and!; auto.
        unfold mbind at 1, prog_bind at 1, on_graph at 1. rewrite Hf.
        unfold mbind at 1, prog_bind at 1. rewrite Hc. reflexivity. }
    destruct Hphase1 as (env1 & t & Hrun1 & Hg1 & Hs1 & Hlook1).
    exists {| graph := w2; used_query_ranges := used_query_ranges env1;
              amm_swaps := amm_swaps env1 |}.
    split_and!.
    + unfold mbind at 1, prog_bind at 1. rewrite Hrun1.
      unfold mbind at 1, prog_bind at 1.
      assert (Hlen : negb (length existing =? 0)%nat = true)
        by (destruct existing; [contradiction | reflexivity]).
      rewrite Hlen, Hle. cbn [andb].
      unfold mbind at 1, prog_bind at 1, on_graph at 1. rewrite Hg1, Hfetch.
      destruct o as [t'|e|]; [now destruct (Hfail t') | reflexivity..].
    + reflexivity.
    + exact Hs1.
    + intros a Ha. unfold range_of. cbn [used_query_ranges].
      apply Hlook1. intros Hn. apply list_elem_of_fmap in Hn as (b & Hb & Hbin).
      apply entry_name_inj in Hb as <-.
      unfold existing, existing_addresses_of in Ha. apply list_elem_of_filter in Ha as [[x Hx] _].
      unfold new, new_addresses_of in Hbin. apply list_elem_of_filter in Hbin as [Hnone _].
      congruence.
    + intros a Ha. unfold range_of. cbn [used_query_ranges].
      apply Hlook1. apply list_elem_of_fmap. eauto.
    + intros name Hn. cbn [used_query_ranges]. now apply Hlook1.
Qed.

(** ** What [_get_trades] and [_get_trades_graph] return *)

Lemma read_db_trades_loop (from_timestamp to_timestamp : Timestamp)
    (addresses : list ChecksumEthAddress) :
  forall (acc r : AddressTrades) (env env' : Env World SwapStore),
    for_each_p (fun (db_address_trades : AddressTrades) address =>
        db_swaps ← db_get_amm_swaps from_timestamp to_timestamp UNISWAP address;
        db_trades ← lift (swaps_to_trades db_swaps);
        if negb (length db_trades =? 0)%nat
        then mret (<[address := db_trades]> db_address_trades)
        else mret db_address_trades) addresses acc env = (env', Done r) ->
    env' = env /\
    forall a : ChecksumEthAddress,
      (a ∉ addresses -> r !! a = acc !! a) /\
      (a ∈ addresses ->
         exists trades,
           swaps_to_trades (get_amm_swaps from_timestamp to_timestamp UNISWAP a (amm_swaps env))
             = Done trades /\
           r !! a = match trades with [] => acc !! a | _ :: _ => Some trades end).
Proof.
  induction addresses as [|x l IH]; intros acc r env env' H.
  - injection H as <- <-. split; [reflexivity|]. intros a. split; [reflexivity|].
    intros Ha. inversion Ha.
  - cbn [for_each_p] in H. apply prog_bind_done in H as (acc1 & env1 & Hstep & H).
    apply prog_bind_done in Hstep as (db_swaps & env0 & Hget & Hstep).
    injection Hget as <- <-.
    apply prog_bind_done in Hstep as (db_trades & env0 & Hconv & Hstep).
    injection Hconv as <- Hconv.
    assert (Hacc1 : env1 = env /\
              acc1 = match db_trades with [] => acc | _ :: _ => <[x := db_trades]> acc end).
    { destruct db_trades; cbn in Hstep; injection Hstep as <- <-; auto. }
    destruct Hacc1 as [-> Hacc1].
    apply IH in H as [-> Hlook]. split; [reflexivity|]. intros a. split.
    + intros Ha. apply not_elem_of_cons in Ha as [Hne Ha].
      destruct (Hlook a) as [Hout _]. rewrite (Hout Ha), Hacc1.
      destruct db_trades; [reflexivity | now rewrite lookup_insert_ne].
    + intros Ha. destruct (decide (a ∈ l)) as [Hin | Hnin].
      * destruct (Hlook a) as [_ Hinl]. destruct (Hinl Hin) as (trades & Ht & Hr).
        exists trades. split; [exact Ht|]. rewrite Hr.
        destruct trades as [|t trades]; [|reflexivity].
        rewrite Hacc1. destruct db_trades as [|d db_trades]; [reflexivity|].
        destruct (decide (x = a)) as [-> | Hne]; [congruence|].
        now rewrite lookup_insert_ne.
      * apply elem_of_cons in Ha as [-> | Ha]; [|contradiction].
        destruct (Hlook x) as [Hout _]. exists db_trades. split; [exact Hconv|].
        rewrite (Hout Hnin), Hacc1.
        destruct db_trades; [reflexivity | now rewrite lookup_insert_eq].
Qed.

(** One batch of [_get_trades]: the trades come from [_get_trades_graph] run
    on the subgraph as it is, and the swaps table is not touched. *)
Lemma fetch_and_commit_run (fuel : nat) (batch : list ChecksumEthAddress)
    (start_ts to_ts : Timestamp) (t0 t : AddressTrades) (env env' : Env World SwapStore) :
  (trades ← on_graph (_get_trades_graph fuel batch start_ts to_ts);
   _ ← commit_ranges batch start_ts to_ts;
   mret (trades ∪ t0)) env = (env', Done t) ->
  exists trades : AddressTrades,
    _get_trades_graph fuel batch start_ts to_ts (graph env) = (graph env', Done trades) /\
    t = trades ∪ t0 /\
    amm_swaps env' = amm_swaps env.
Proof.
  intros H.
  apply prog_bind_done in H as (trades & env1 & Hfetch & H).
  apply prog_bind_done in H as ([] & env2 & Hcommit & Hret). injection Hret as <- <-.
  apply commit_ranges_lookup in Hcommit as (_ & -> & -> & _).
  unfold on_graph in Hfetch.
  destruct (_get_trades_graph fuel batch start_ts to_ts (graph env)) as [w o] eqn:Hrun.
  injection Hfetch as <- ->. cbn [graph amm_swaps]. eauto.
Qed.

(** X9: what a returning call of [_get_trades] answers.  The trades are not
    those fetched but those derived again from the swaps table.  The trades
    fetched are those [_get_trades_graph] returned for the addresses without a
    recorded range, from timestamp 0, and then, on the subgraph as that run
    left it, for the addresses with one, from [min_end_ts], when there are such
    addresses and [min_end_ts] is not after [to_timestamp]; the second batch
    takes precedence over the first.  After the one call of [add_amm_swaps]
    with the swaps of these trades, each address of the call is mapped to
    [swaps_to_trades] of the swaps the table holds for it in the window asked
    for, when that list is not empty; an address with no trade and every other
    address are absent from the answer. *)
Theorem get_trades_answer (fuel : nat) (addresses : list ChecksumEthAddress)
    (from_timestamp to_timestamp : Timestamp) (env env' : Env World SwapStore)
    (r : AddressTrades) :
  _get_trades fuel addresses from_timestamp to_timestamp env = (env', Done r) ->
  (exists (w1 : World) (new_trades existing_trades : AddressTrades),
      let new_addresses := new_addresses_of env addresses in
      let existing_addresses := existing_addresses_of env addresses in
      let min_end_ts := min_end_ts_of env to_timestamp addresses in
      (if negb (length new_addresses =? 0)%nat
       then _get_trades_graph fuel new_addresses 0 to_timestamp (graph env)
            = (w1, Done new_trades)
       else w1 = graph env /\ new_trades = ∅) /\
      (if negb (length existing_addresses =? 0)%nat && (min_end_ts <=? to_timestamp)
       then _get_trades_graph fuel existing_addresses min_end_ts to_timestamp w1
            = (graph env', Done existing_trades)
       else graph env' = w1 /\ existing_trades = ∅) /\
      amm_swaps env'
      = add_amm_swaps
          (list_of_set (fetched_swaps addresses (existing_trades ∪ new_trades)))
          (amm_swaps env)) /\
  forall a : ChecksumEthAddress,
    (a ∉ addresses -> r !! a = None) /\
    (a ∈ addresses ->
       exists trades,
         swaps_to_trades (get_amm_swaps from_timestamp to_timestamp UNISWAP a (amm_swaps env'))
           = Done trades /\
         r !! a = match trades with [] => None | _ :: _ => Some trades end) /\
    (forall trades, r !! a = Some trades -> a ∈ addresses /\ trades <> []).
Proof.
  intros H. rewrite get_trades_phases in H. cbv zeta in H.
  apply prog_bind_done in H as (t1 & env1 & Hnew & H).
  apply prog_bind_done in H as (t2 & env2 & Hexisting & H).
  apply prog_bind_done in H as ([] & env3 & Hadd & H).
  injection Hadd as <-.
  apply read_db_trades_loop in H as [-> Hlook]. cbn [amm_swaps graph] in *.
  split.
  - exists (graph env1), t1,
      (if negb (length (existing_addresses_of env addresses) =? 0)%nat
          && (min_end_ts_of env to_timestamp addresses <=? to_timestamp)
       then match (_get_trades_graph fuel (existing_addresses_of env addresses)
                     (min_end_ts_of env to_timestamp addresses) to_timestamp (graph env1)).2
            with Done t => t | _ => ∅ end
       else ∅).
    cbv zeta.
    assert (Hs1 : amm_swaps env1 = amm_swaps env /\
              if negb (length (new_addresses_of env addresses) =? 0)%nat
              then _get_trades_graph fuel (new_addresses_of env addresses) 0 to_timestamp
                     (graph env) = (graph env1, Done t1)
              else graph env1 = graph env /\ t1 = ∅).
    { destruct (negb (length (new_addresses_of env addresses) =? 0)%nat).
      - apply fetch_and_commit_run in Hnew as (trades & Hrun & -> & Hs).
        rewrite (right_id_L ∅ (∪)). auto.
      - injection Hnew as <- <-. auto. }
    destruct Hs1 as [Hs1 Hfirst]. split; [exact Hfirst|].
    destruct (negb (length (existing_addresses_of env addresses) =? 0)%nat
              && (min_end_ts_of env to_timestamp addresses <=? to_timestamp)).
    + apply fetch_and_commit_run in Hexisting as (trades & Hrun & -> & Hs).
      rewrite Hrun. cbn [snd]. split; [reflexivity|]. now rewrite Hs, Hs1.
    + injection Hexisting as <- <-. split; [auto|].
      rewrite (left_id_L ∅ (∪)). now rewrite Hs1.
  - intros a. destruct (Hlook a) as [Hout Hin]. split_and!.
    + intros Ha. now rewrite (Hout Ha).
    + intros Ha. destruct (Hin Ha) as (trades & Ht & Hr). exists trades. split; [exact Ht|].
      rewrite Hr. now destruct trades.
    + intros trades Hr. destruct (decide (a ∈ addresses)) as [Ha | Ha].
      * split; [exact Ha|]. destruct (Hin Ha) as (trades' & _ & Hr').
        rewrite Hr in Hr'. destruct trades'; [discriminate|]. now injection Hr' as ->.
      * rewrite (Hout Ha) in Hr. discriminate.
Qed.

Lemma last_nonempty_cons {A : Type} (k : ChecksumEthAddress) (v : list A)
    (items : list (ChecksumEthAddress * list A)) (a : ChecksumEthAddress) :
  last_nonempty ((k, v) :: items) a
  = match last_nonempty items a with
    | Some t => Some t
    | None => if decide (k = a /\ length v <> 0%nat) then Some v else None
    end.
Proof.
  unfold last_nonempty. rewrite filter_cons. cbn [fst snd].
  destruct (decide (k = a /\ length v <> 0%nat)) as [Hk | Hk].
  - rewrite last_cons. destruct (last (filter _ items)); reflexivity.
  - destruct (last (filter _ items)); reflexivity.
Qed.

Lemma last_nonempty_Some {A : Type} (items : list (ChecksumEthAddress * list A))
    (a : ChecksumEthAddress) (t : list A) :
  last_nonempty items a = Some t -> (a, t) ∈ items /\ t <> [].
Proof.
  unfold last_nonempty. intros H. apply fmap_Some in H as ([k v] & Hlast & ->).
  apply last_Some_elem_of, list_elem_of_filter in Hlast as [[Hk Hv] Hin].
  cbn [fst snd] in *. subst k. split; [exact Hin|]. intros ->. now apply Hv.
Qed.

Lemma last_nonempty_None {A : Type} (items : list (ChecksumEthAddress * list A))
    (a : ChecksumEthAddress) :
  (forall t, (a, t) ∈ items -> t = []) -> last_nonempty items a = None.
Proof.
  intros Hall. destruct (last_nonempty items a) as [t|] eqn:H; [|reflexivity].
  apply last_nonempty_Some in H as [Hin Hne]. now apply Hall in Hin.
Qed.

Lemma elem_of_zip_l {A B : Type} (l : list A) (k : list B) (x : A) (y : B) :
  (x, y) ∈ zip l k -> x ∈ l.
Proof.
  revert k. induction l as [|x' l IH]; intros [|y' k] H; cbn in H; try now inversion H.
  apply elem_of_cons in H as [[= -> ->] | H]; [apply list_elem_of_here|].
  apply list_elem_of_further. eauto.
Qed.

Lemma get_trades_graph_loop (fuel : nat) (start_ts end_ts : Timestamp)
    (addresses : list ChecksumEthAddress) :
  forall (acc r : AddressTrades) (w w' : World),
    for_each_p (fun (address_trades : AddressTrades) address =>
        trades ← _get_trades_graph_for_address fuel address start_ts end_ts;
        if negb (length trades =? 0)%nat then mret (<[address := trades]> address_trades)
        else mret address_trades) addresses acc w = (w', Done r) ->
    exists results : list (list AMMTrade),
      length results = length addresses /\
      ask_each (fun address => _get_trades_graph_for_address fuel address start_ts end_ts)
        addresses w = (w', Done <$> results) /\
      forall a, r !! a = match last_nonempty (zip addresses results) a with
                         | Some trades => Some trades
                         | None => acc !! a
                         end.
Proof.
  induction addresses as [|x l IH]; intros acc r w w' H.
  - injection H as <- <-. exists []. split_and!; reflexivity.
  - cbn [for_each_p] in H. apply prog_bind_done in H as (acc1 & w1 & Hstep & H).
    apply prog_bind_done in Hstep as (ts & w0 & Hreq & Hstep).
    assert (Hacc1 : w1 = w0 /\
              acc1 = if decide (x = x /\ length ts <> 0%nat) then <[x := ts]> acc else acc).
    { destruct ts; cbn in Hstep; injection Hstep as <- <-; split; auto;
        destruct (decide _) as [[_ Hn]|Hn]; try reflexivity; cbn in Hn; try lia.
      exfalso. apply Hn. split; [reflexivity | discriminate]. }
    destruct Hacc1 as [-> Hacc1].
    apply IH in H as (results & Hlen & Hask & Hlook).
    exists (ts :: results). split_and!.
    + cbn [length]. now rewrite Hlen.
    + cbn [ask_each]. rewrite Hreq, Hask. reflexivity.
    + intros a. cbn [zip zip_with]. rewrite last_nonempty_cons, Hlook.
      destruct (last_nonempty (zip l results) a); [reflexivity|].
      rewrite Hacc1.
      destruct (decide (x = x /\ length ts <> 0%nat)) as [[_ Hts] | Hts].
      * destruct (decide (x = a /\ length ts <> 0%nat)) as [[-> _] | Hn].
        -- apply lookup_insert_eq.
        -- apply lookup_insert_ne. intros ->. apply Hn. auto.
      * destruct (decide (x = a /\ length ts <> 0%nat)) as [[_ Hn] | _]; [|reflexivity].
        exfalso. apply Hts. auto.
Qed.

(** X10: the entries of [_get_trades_graph].  When it returns, each address
    was asked for in turn, each request starting where the one before left
    the subgraph, and each gave a list of trades; the answer maps an address
    to the last list its requests gave that is not empty.  So an entry holds
    trades its own address was given and is never empty, only addresses asked
    for have entries, and an address whose requests all gave no trade has no
    entry. *)
Theorem get_trades_graph_entries (fuel : nat) (addresses : list ChecksumEthAddress)
    (start_ts end_ts : Timestamp) (w w' : World) (r : AddressTrades) :
  _get_trades_graph fuel addresses start_ts end_ts w = (w', Done r) ->
  exists results : list (list AMMTrade),
    length results = length addresses /\
    ask_each (fun address => _get_trades_graph_for_address fuel address start_ts end_ts)
      addresses w = (w', Done <$> results) /\
    (forall a, r !! a = last_nonempty (zip addresses results) a) /\
    (forall a trades,
       r !! a = Some trades ->
       a ∈ addresses /\ trades <> [] /\ (a, trades) ∈ zip addresses results) /\
    (forall a,
       (forall trades, (a, trades) ∈ zip addresses results -> trades = []) ->
       r !! a = None).
Proof.
  intros H. unfold _get_trades_graph in H.
  apply get_trades_graph_loop in H as (results & Hlen & Hask & Hlook).
  assert (Hlook' : forall a, r !! a = last_nonempty (zip addresses results) a).
  { intros a. rewrite Hlook, lookup_empty. now destruct (last_nonempty _ a). }
  exists results. split_and!; auto.
  - intros a trades Hr. rewrite Hlook' in Hr.
    apply last_nonempty_Some in Hr as [Hin Hne].
    split_and!; auto. eapply elem_of_zip_l, Hin.
  - intros a Hall. rewrite Hlook'. now apply last_nonempty_None.
Qed.

(** ** Failures in the pagination loops *)

Section PaginationFailures.
Context {St X Rec Acc : Type}.
Variable graph_query : ParamValues X -> Prog St (list Rec).
Variable parse : Acc -> Rec -> Outcome Acc.

(** When the source raises after [k] full pages, the loop raises the same
    exception: it made [k + 1] requests and gives no partial result. *)
Lemma paginate_source_raises (pages : list (list Rec)) :
  forall (fuel : nat) (pv : ParamValues X) (acc acc' : Acc) (s s' : St) (e : Exn),
    (length pages < fuel)%nat ->
    ask graph_query (loop_queries (S (length pages)) pv) s
      = (s', (Done <$> pages) ++ [Raise e]) ->
    Forall (fun page => GRAPH_QUERY_LIMIT <= Z.of_nat (length page)) pages ->
    for_each parse (concat pages) acc = Done acc' ->
    paginate graph_query parse fuel pv acc s = (s', Raise e).
Proof.
  induction pages as [|page pages IH]; intros fuel pv acc acc' s s' e Hfuel Hask Hfull Hparse;
    (destruct fuel as [|fuel]; [cbn in Hfuel; lia|]);
    rewrite paginate_step;
    change (loop_queries (S (length ?l)) pv)
      with (pv :: loop_queries (length l) (next_page pv)) in Hask;
    rewrite ask_cons in Hask;
    destruct (graph_query pv s) as [s1 r1].
  - cbn [length loop_queries ask] in Hask. now injection Hask as -> ->.
  - destruct (ask _ _ _) as [s2 rs] eqn:Hrest. injection Hask as -> -> ->.
    cbn [concat] in Hparse. rewrite for_each_app in Hparse.
    destruct (for_each parse page acc) as [acc1|e'|]; [|discriminate..].
    inversion Hfull as [|? ? Hpage Hpages]; subst.
    destruct (Z.ltb_spec (Z.of_nat (length page)) GRAPH_QUERY_LIMIT); [lia|].
    apply (IH fuel (next_page pv) acc1 acc'); auto. cbn [length] in Hfuel. lia.
Qed.

(** When a record of the first page cannot be parsed, the loop raises what the
    parser raised and makes no further request. *)
Lemma paginate_parse_raises (fuel : nat) (pv : ParamValues X) (acc : Acc) (s s1 : St)
    (page : list Rec) (e : Exn) :
  graph_query pv s = (s1, Done page) ->
  for_each parse page acc = Raise e ->
  paginate graph_query parse (S fuel) pv acc s = (s1, Raise e).
Proof. intros Hq Hp. rewrite paginate_step, Hq, Hp. reflexivity. Qed.

End PaginationFailures.

(** X11: a failing request aborts a pagination loop.  In each of the three
    loops, when the source answers [k] pages of at least [GRAPH_QUERY_LIMIT]
    records, all parsed without error, and then raises, the loop raises the
    same exception: nothing of the pages fetched so far is returned, and the
    source is left as these [k + 1] requests left it. *)
Theorem pagination_source_failure :
  (forall (St : Type) graph_query (fuel : nat) (addresses : list ChecksumEthAddress)
          (s s' : St) (pages : list (list LiquidityPosition)) (e : Exn) acc',
      (length pages < fuel)%nat ->
      ask graph_query
        (loop_queries (S (length pages))
           {| limit := GRAPH_QUERY_LIMIT; offset := 0;
              bindings := (lower <$> addresses, "0"%string) |}) s
        = (s', (Done <$> pages) ++ [Raise e]) ->
      Forall (fun page => GRAPH_QUERY_LIMIT <= Z.of_nat (length page)) pages ->
      for_each add_liquidity_position (concat pages)
        {| address_balances := ∅; known_assets := []; unknown_assets := [] |} = Done acc' ->
      _get_balances_graph fuel addresses graph_query s = (s', Raise e)) /\
  (forall (fuel : nat) (address : ChecksumEthAddress) (start_ts end_ts : Timestamp)
          (s s' : World) (pages : list (list (list GraphSwap))) (e : Exn) acc',
      (length pages < fuel)%nat ->
      ask graph_query_swaps
        (loop_queries (S (length pages))
           {| limit := GRAPH_QUERY_LIMIT; offset := 0;
              bindings := (lower address, start_ts, end_ts) |}) s
        = (s', (Done <$> pages) ++ [Raise e]) ->
      Forall (fun page => GRAPH_QUERY_LIMIT <= Z.of_nat (length page)) pages ->
      for_each (add_transaction_trades address) (concat pages) [] = Done acc' ->
      _get_trades_graph_for_address fuel address start_ts end_ts s = (s', Raise e)) /\
  (forall (St : Type) graph_query (fuel : nat) (today_epoch : Z)
          (unknown_assets : list UnknownEthereumToken) (s s' : St)
          (pages : list (list TokenDayData)) (e : Exn),
      (length pages < fuel)%nat ->
      ask graph_query
        (loop_queries (S (length pages))
           {| limit := GRAPH_QUERY_LIMIT; offset := 0;
              bindings := (lower <$> (ut_ethereum_address <$> unknown_assets), today_epoch) |}) s
        = (s', (Done <$> pages) ++ [Raise e]) ->
      Forall (fun page => GRAPH_QUERY_LIMIT <= Z.of_nat (length page)) pages ->
      _get_unknown_asset_price_graph fuel today_epoch unknown_assets graph_query s
        = (s', Raise e)).
Proof.
  split; [|split].
  - intros St q fuel addresses s s' pages e acc' Hfuel Hask Hfull Hparse.
    eapply paginate_source_raises; eauto.
  - intros fuel address start_ts end_ts s s' pages e acc' Hfuel Hask Hfull Hparse.
    eapply paginate_source_raises; eauto.
  - intros St q fuel today unknown s s' pages e Hfuel Hask Hfull.
    assert (Hparse : exists acc', for_each add_token_price (concat pages) (∅ : AssetPrice)
                                  = Done acc').
    { generalize (∅ : AssetPrice). induction (concat pages) as [|tdd l IH]; intros m.
      - now exists m.
      - cbn [for_each add_token_price]. cbn [mbind outcome_bind]. apply IH. }
    destruct Hparse as [acc' Hparse].
    eapply paginate_source_raises; eauto.
Qed.

(** ** Swaps as the subgraph gives them *)

Lemma before_dash_app (h rest : string) :
  (forall a b : string, h <> a +:+ "-" +:+ b) ->
  before_dash (h +:+ "-" +:+ rest) = h.
Proof.
  induction h as [|c h IH]; intros Hnodash; [reflexivity|].
  change (String c h +:+ "-" +:+ rest) with (String c (h +:+ "-" +:+ rest)).
  cbn [before_dash].
  destruct (Ascii.eqb_spec c (Ascii.Ascii true false true true false true false false))
    as [-> | Hc].
  - exfalso. apply (Hnodash "" h). reflexivity.
  - f_equal. apply IH. intros a b ->. apply (Hnodash (String c a) b). reflexivity.
Qed.

(** X12: the transaction hash of a swap.  A swap whose subgraph id is a hash
    without dash, a dash and anything else gets that hash as [tx_hash]; its log
    index, timestamp and amounts are those of the subgraph record and its
    address is the address the trades are fetched for. *)
Theorem swap_of_graph_tx_hash (address_ : ChecksumEthAddress) (swap : GraphSwap)
    (h idx : string) :
  gs_id swap = h +:+ "-" +:+ idx ->
  (forall a b : string, h <> a +:+ "-" +:+ b) ->
  let s := swap_of_graph address_ swap in
  tx_hash s = h /\ address s = address_ /\ location s = UNISWAP /\
  log_index s = gs_logIndex swap /\ timestamp s = gs_timestamp swap /\
  amount0_in s = gs_amount0In swap /\ amount1_in s = gs_amount1In swap /\
  amount0_out s = gs_amount0Out swap /\ amount1_out s = gs_amount1Out swap.
Proof.
  intros Hid Hnodash. cbv zeta. unfold swap_of_graph. cbn.
  rewrite Hid. split_and!; auto. now apply before_dash_app.
Qed.

(** X13: a transaction without swaps.  When the first page of swaps holds an
    entry whose list of swaps is empty, after entries that gave their trades,
    [_get_trades_graph_for_address] raises [IndexError] and asks for no other
    page. *)
Theorem get_trades_graph_for_address_empty_entry (fuel : nat) (address : ChecksumEthAddress)
    (start_ts end_ts : Timestamp) (s s1 : World)
    (before after : list (list GraphSwap)) (trades : list AMMTrade) :
  graph_query_swaps
    {| limit := GRAPH_QUERY_LIMIT; offset := 0; bindings := (lower address, start_ts, end_ts) |} s
    = (s1, Done (before ++ [] :: after)) ->
  for_each (add_transaction_trades address) before [] = Done trades ->
  _get_trades_graph_for_address (S fuel) address start_ts end_ts s = (s1, Raise IndexError).
Proof.
  intros Hq Hbefore. unfold _get_trades_graph_for_address.
  eapply paginate_parse_raises; [exact Hq|].
  rewrite for_each_app, Hbefore. reflexivity.
Qed.

(** ** Liquidity positions *)

Lemma add_pool_asset_done (lp : LiquidityPosition) (token : GraphToken) (reserve : FVal)
    (known_assets : list EthereumToken) (unknown_assets : list UnknownEthereumToken)
    (assets : list LiquidityPoolAsset.t) :
  lp_pair_totalSupply lp <> ZERO ->
  add_pool_asset (lp_liquidityTokenBalance lp) (lp_pair_totalSupply lp)
    (known_assets, unknown_assets, assets) (token, reserve)
  = Done (match token_of_graph token with
          | Known t => set_add t known_assets
          | Unknown _ => known_assets
          end,
          match token_of_graph token with
          | Known _ => unknown_assets
          | Unknown u => set_add u unknown_assets
          end,
          assets ++ [pool_asset_of lp token reserve]).
Proof.
  intros Hsupply. unfold add_pool_asset, pool_asset_of, token_of_graph, fval_div. cbn [fst snd].
  apply fval_ne_spec in Hsupply. rewrite Hsupply.
  destruct (get_ethereum_token _ _ _ _); reflexivity.
Qed.

Lemma add_pool_asset_raises (balance supply : FVal)
    (st : list EthereumToken * list UnknownEthereumToken * list LiquidityPoolAsset.t)
    (token : GraphToken * FVal) :
  supply = ZERO ->
  add_pool_asset balance supply st token
  = Raise (if fval_ne balance ZERO then DivisionByZero else InvalidOperation).
Proof.
  intros ->. destruct st as [[known_assets unknown_assets] assets].
  unfold add_pool_asset, fval_div. rewrite fval_ne_refl.
  destruct (get_ethereum_token _ _ _ _); destruct (fval_ne balance ZERO); reflexivity.
Qed.

Lemma add_liquidity_position_done (acc : ProtocolBalance) (lp : LiquidityPosition) :
  lp_pair_totalSupply lp <> ZERO ->
  add_liquidity_position acc lp
  = Done {| address_balances :=
              <[to_checksum_address (lp_user_id lp) :=
                  default [] (address_balances acc !! to_checksum_address (lp_user_id lp))
                  ++ [pool_of_position lp]]> (address_balances acc);
            known_assets := known_after lp (known_assets acc);
            unknown_assets := unknown_after lp (unknown_assets acc) |}.
Proof.
  intros Hsupply. unfold add_liquidity_position. cbn [for_each].
  rewrite (add_pool_asset_done lp) by assumption. cbn [mbind outcome_bind].
  rewrite (add_pool_asset_done lp) by assumption. cbn [mbind outcome_bind].
  unfold known_after, unknown_after, pool_of_position.
  destruct (token_of_graph (lp_pair_token0 lp)), (token_of_graph (lp_pair_token1 lp));
    reflexivity.
Qed.

Lemma known_after_spec (lp : LiquidityPosition) (known_assets : list EthereumToken)
    (t : EthereumToken) :
  t ∈ known_after lp known_assets <->
  t ∈ known_assets \/ token_of_graph (lp_pair_token0 lp) = Known t
  \/ token_of_graph (lp_pair_token1 lp) = Known t.
Proof.
  unfold known_after.
  destruct (token_of_graph (lp_pair_token0 lp)) as [t0|u0],
           (token_of_graph (lp_pair_token1 lp)) as [t1|u1];
    rewrite ?elem_of_set_add; split; intros H;
    repeat match goal with
           | H : _ \/ _ |- _ => destruct H as [H|H]
           | H : Known _ = Known _ |- _ => injection H as ->
           | H : Unknown _ = Known _ |- _ => discriminate H
           end; subst; auto.
Qed.

Lemma unknown_after_spec (lp : LiquidityPosition) (unknown_assets : list UnknownEthereumToken)
    (u : UnknownEthereumToken) :
  u ∈ unknown_after lp unknown_assets <->
  u ∈ unknown_assets \/ token_of_graph (lp_pair_token0 lp) = Unknown u
  \/ token_of_graph (lp_pair_token1 lp) = Unknown u.
Proof.
  unfold unknown_after.
  destruct (token_of_graph (lp_pair_token0 lp)) as [t0|u0],
           (token_of_graph (lp_pair_token1 lp)) as [t1|u1];
    rewrite ?elem_of_set_add; split; intros H;
    repeat match goal with
           | H : _ \/ _ |- _ => destruct H as [H|H]
           | H : Unknown _ = Unknown _ |- _ => injection H as ->
           | H : Known _ = Unknown _ |- _ => discriminate H
           end; subst; auto.
Qed.

(** A position whose pair has a zero total supply does not get through the
    loop body of [_get_balances_graph]. *)
Lemma add_liquidity_position_zero_supply (acc : ProtocolBalance) (lp : LiquidityPosition) :
  lp_pair_totalSupply lp = ZERO ->
  add_liquidity_position acc lp
  = Raise (if fval_ne (lp_liquidityTokenBalance lp) ZERO
           then DivisionByZero else InvalidOperation).
Proof.
  intros Hzero. unfold add_liquidity_position. cbn [for_each].
  rewrite add_pool_asset_raises by assumption. reflexivity.
Qed.

(** What the loop body leaves when it returns. *)
Lemma add_liquidity_position_inv (acc acc' : ProtocolBalance) (lp : LiquidityPosition) :
  add_liquidity_position acc lp = Done acc' ->
  lp_pair_totalSupply lp <> ZERO /\
  acc' = {| address_balances :=
              <[to_checksum_address (lp_user_id lp) :=
                  default [] (address_balances acc !! to_checksum_address (lp_user_id lp))
                  ++ [pool_of_position lp]]> (address_balances acc);
            known_assets := known_after lp (known_assets acc);
            unknown_assets := unknown_after lp (unknown_assets acc) |}.
Proof.
  intros Hrun. destruct (Qc_eq_dec (lp_pair_totalSupply lp) ZERO) as [Hzero | Hsupply].
  - rewrite add_liquidity_position_zero_supply in Hrun by assumption. discriminate Hrun.
  - split; [exact Hsupply|].
    rewrite add_liquidity_position_done in Hrun by assumption. now injection Hrun as <-.
Qed.

(** X14: one liquidity position.  When the loop body of [_get_balances_graph]
    returns on a position, the pair's total supply is not zero; the body has
    appended one pool to the list of the position's user and left the other
    users' lists alone, and each of the two sets of assets is what it was plus
    the tokens of its kind among the pair's two tokens; the pool has the pair's
    address and total supply, the user's balance, and the two tokens in order,
    each with the share [balance / total_supply * reserve]. *)
Theorem add_liquidity_position_outcome (acc acc' : ProtocolBalance) (lp : LiquidityPosition) :
  add_liquidity_position acc lp = Done acc' ->
  let user := to_checksum_address (lp_user_id lp) in
  lp_pair_totalSupply lp <> ZERO /\
  address_balances acc' !! user
    = Some (default [] (address_balances acc !! user) ++ [pool_of_position lp]) /\
  (forall other, other <> user ->
     address_balances acc' !! other = address_balances acc !! other) /\
  (forall t, t ∈ known_assets acc' <->
     t ∈ known_assets acc \/ token_of_graph (lp_pair_token0 lp) = Known t
     \/ token_of_graph (lp_pair_token1 lp) = Known t) /\
  (forall u, u ∈ unknown_assets acc' <->
     u ∈ unknown_assets acc \/ token_of_graph (lp_pair_token0 lp) = Unknown u
     \/ token_of_graph (lp_pair_token1 lp) = Unknown u).
Proof.
  intros Hrun. cbv zeta. apply add_liquidity_position_inv in Hrun as [Hsupply ->].
  cbn [address_balances known_assets unknown_assets]. split_and!.
  - exact Hsupply.
  - apply lookup_insert_eq.
  - intros other Hother. now apply lookup_insert_ne.
  - apply known_after_spec.
  - apply unknown_after_spec.
Qed.

Lemma unpriced_pool_weaken (known_assets known_assets' : list EthereumToken)
    (unknown_assets unknown_assets' : list UnknownEthereumToken) (lp : LiquidityPool.t) :
  (forall t, t ∈ known_assets -> t ∈ known_assets') ->
  (forall u, u ∈ unknown_assets -> u ∈ unknown_assets') ->
  unpriced_pool known_assets unknown_assets lp ->
  unpriced_pool known_assets' unknown_assets' lp.
Proof.
  intros Hk Hu (Hlen & Hsupply & Hvalue & Hassets). split_and!; auto.
  eapply Forall_impl; [exact Hassets|].
  intros a (Hp & Hv & Ha & Hc). split_and!; auto.
  unfold classified in *. destruct (LiquidityPoolAsset.asset a); auto.
Qed.

Lemma pool_of_position_unpriced (lp : LiquidityPosition) (known_assets : list EthereumToken)
    (unknown_assets : list UnknownEthereumToken) :
  lp_pair_totalSupply lp <> ZERO ->
  unpriced_pool (known_after lp known_assets) (unknown_after lp unknown_assets)
    (pool_of_position lp).
Proof.
  intros Hsupply. unfold unpriced_pool, pool_of_position. cbn.
  split_and!; auto.
  constructor; [|constructor; [|constructor]]; cbn; split_and!; auto; unfold classified.
  - destruct (token_of_graph (lp_pair_token0 lp)) as [t|u] eqn:E.
    + apply known_after_spec. rewrite E. auto.
    + apply unknown_after_spec. rewrite E. auto.
  - destruct (token_of_graph (lp_pair_token1 lp)) as [t|u] eqn:E.
    + apply known_after_spec. rewrite E. auto.
    + apply unknown_after_spec. rewrite E. auto.
Qed.

Lemma add_liquidity_position_invariant (acc acc' : ProtocolBalance) (lp : LiquidityPosition) :
  add_liquidity_position acc lp = Done acc' ->
  positions_invariant acc -> positions_invariant acc'.
Proof.
  intros Hadd (Hpools & Hknown & Hunknown).
  destruct (decide (lp_pair_totalSupply lp = ZERO)) as [Hzero|Hsupply].
  { unfold add_liquidity_position in Hadd. cbn [for_each] in Hadd.
    rewrite add_pool_asset_raises in Hadd by assumption. discriminate Hadd. }
  rewrite add_liquidity_position_done in Hadd by assumption. injection Hadd as <-.
  unfold positions_invariant. cbn [address_balances known_assets unknown_assets].
  split_and!.
  - intros user lps Hlps.
    assert (Hmono : forall lp0,
               unpriced_pool (known_assets acc) (unknown_assets acc) lp0 ->
               unpriced_pool (known_after lp (known_assets acc))
                 (unknown_after lp (unknown_assets acc)) lp0).
    { intros lp0. apply unpriced_pool_weaken.
      - intros t Ht. apply known_after_spec. auto.
      - intros u Hu. apply unknown_after_spec. auto. }
    destruct (decide (user = to_checksum_address (lp_user_id lp))) as [->|Hother].
    + rewrite lookup_insert_eq in Hlps. injection Hlps as <-. split.
      * intros Hnil. apply app_eq_nil in Hnil as [_ Hnil]. discriminate Hnil.
      * apply Forall_app. split.
        -- destruct (address_balances acc !! to_checksum_address (lp_user_id lp))
             as [old|] eqn:Hold; cbn [default]; [|constructor].
           eapply Forall_impl; [exact (proj2 (Hpools _ _ Hold)) | exact Hmono].
        -- constructor; [|constructor]. now apply pool_of_position_unpriced.
    + rewrite lookup_insert_ne in Hlps by congruence.
      destruct (Hpools _ _ Hlps) as [Hne Hall]. split; [exact Hne|].
      eapply Forall_impl; [exact Hall | exact Hmono].
  - intros t Ht. apply known_after_spec in Ht as [Ht|[Ht|Ht]]; eauto.
  - intros u Hu. apply unknown_after_spec in Hu as [Hu|[Hu|Hu]]; eauto.
Qed.

Lemma positions_loop_invariant (lps : list LiquidityPosition) :
  forall acc acc' : ProtocolBalance,
    for_each add_liquidity_position lps acc = Done acc' ->
    positions_invariant acc -> positions_invariant acc'.
Proof.
  induction lps as [|lp lps IH]; intros acc acc' Hloop Hinv; cbn [for_each] in Hloop.
  - now injection Hloop as <-.
  - destruct (add_liquidity_position acc lp) as [acc1|e|] eqn:Hadd; [|discriminate..].
    eapply IH; [exact Hloop|]. eapply add_liquidity_position_invariant; eauto.
Qed.

Lemma get_balances_graph_invariant {St : Type} (fuel : nat)
    (addresses : list ChecksumEthAddress)
    (graph_query : ParamValues (list string * string) -> Prog St (list LiquidityPosition))
    (s s' : St) (protocol_balance : ProtocolBalance) :
  _get_balances_graph fuel addresses graph_query s = (s', Done protocol_balance) ->
  positions_invariant protocol_balance.
Proof.
  intros Hrun. apply paginate_done in Hrun as (k & _ & pages & last_ & _ & _ & _ & _ & Hloop).
  eapply positions_loop_invariant; [exact Hloop|].
  unfold positions_invariant. cbn [address_balances known_assets unknown_assets]. split_and!.
  - intros user lps Hlps. rewrite lookup_empty in Hlps. discriminate Hlps.
  - intros t Ht. now apply elem_of_nil in Ht.
  - intros u Hu. now apply elem_of_nil in Hu.
Qed.

(** X15: the pools [_get_balances_graph] returns.  When it returns, every
    address of its answer has at least one pool, and every pool has a total
    supply that is not zero, exactly two assets, and no price yet: its USD value
    is zero, and each asset has a zero USD price and USD value, the amount
    [pool balance / total supply * asset total amount], and its token in the
    returned set of its kind. *)
Theorem get_balances_graph_pools {St : Type} (fuel : nat)
    (addresses : list ChecksumEthAddress)
    (graph_query : ParamValues (list string * string) -> Prog St (list LiquidityPosition))
    (s s' : St) (protocol_balance : ProtocolBalance) :
  _get_balances_graph fuel addresses graph_query s = (s', Done protocol_balance) ->
  forall user lps,
    address_balances protocol_balance !! user = Some lps ->
    lps <> [] /\
    Forall (unpriced_pool (known_assets protocol_balance) (unknown_assets protocol_balance)) lps.
Proof.
  intros Hrun. exact (proj1 (get_balances_graph_invariant _ _ _ _ _ _ Hrun)).
Qed.

(** ** More on the prices in the balances *)

Lemma update_asset_idem (known unknown : AssetPrice) (a : LiquidityPoolAsset.t) :
  update_asset known unknown (update_asset known unknown a) = update_asset known unknown a.
Proof.
  unfold update_asset.
  destruct (fval_ne (lookup_price known unknown
                       (ethereum_address (LiquidityPoolAsset.asset a))) ZERO) eqn:E.
  - cbn. rewrite E. reflexivity.
  - rewrite E. reflexivity.
Qed.

Lemma update_pool_eq (known unknown : AssetPrice) (lp : LiquidityPool.t) :
  update_pool known unknown lp
  = {| LiquidityPool.address := LiquidityPool.address lp;
       LiquidityPool.assets := update_asset known unknown <$> LiquidityPool.assets lp;
       LiquidityPool.total_supply := LiquidityPool.total_supply lp;
       LiquidityPool.user_balance :=
         {| Balance.amount := Balance.amount (LiquidityPool.user_balance lp);
            Balance.usd_value :=
              sum_usd_values (update_asset known unknown <$> LiquidityPool.assets lp) |} |}.
Proof. unfold update_pool. rewrite update_pool_loop. reflexivity. Qed.

Lemma update_pool_idem (known unknown : AssetPrice) (lp : LiquidityPool.t) :
  update_pool known unknown (update_pool known unknown lp) = update_pool known unknown lp.
Proof.
  rewrite (update_pool_eq known unknown (update_pool known unknown lp)).
  rewrite (update_pool_eq known unknown lp). cbn.
  rewrite <- list_fmap_compose.
  rewrite (list_fmap_ext (update_asset known unknown ∘ update_asset known unknown)
             (update_asset known unknown) (LiquidityPool.assets lp));
    [reflexivity|].
  intros i a _. apply update_asset_idem.
Qed.

(** X16: updating the prices twice.  Running
    [_update_assets_prices_in_address_balances] again with the same two price
    maps changes nothing, and a run never changes the addresses, the number of
    pools of an address, or a pool's address, total supply and balance
    amount. *)
Theorem update_assets_prices_idempotent (address_balances : AddressBalances)
    (known_asset_price unknown_asset_price : AssetPrice) :
  let updated := _update_assets_prices_in_address_balances address_balances
                   known_asset_price unknown_asset_price in
  _update_assets_prices_in_address_balances updated known_asset_price unknown_asset_price
    = updated /\
  (forall user, is_Some (updated !! user) <-> is_Some (address_balances !! user)) /\
  (forall user lps0, address_balances !! user = Some lps0 ->
     exists lps, updated !! user = Some lps /\
       Forall2 (fun lp0 lp =>
                  LiquidityPool.address lp = LiquidityPool.address lp0 /\
                  LiquidityPool.total_supply lp = LiquidityPool.total_supply lp0 /\
                  Balance.amount (LiquidityPool.user_balance lp)
                    = Balance.amount (LiquidityPool.user_balance lp0) /\
                  length (LiquidityPool.assets lp) = length (LiquidityPool.assets lp0))
         lps0 lps).
Proof.
  cbv zeta. unfold _update_assets_prices_in_address_balances. split_and!.
  - rewrite <- map_fmap_compose. apply map_fmap_ext. intros user lps _. cbn.
    rewrite <- list_fmap_compose. apply list_fmap_ext. intros i lp _.
    apply update_pool_idem.
  - intros user. rewrite lookup_fmap. apply fmap_is_Some.
  - intros user lps0 Hlps0. rewrite lookup_fmap, Hlps0. eexists. split; [reflexivity|].
    apply Forall2_fmap_r, Forall_Forall2_diag, Forall_forall. intros lp0 _.
    unfold compose. rewrite update_pool_eq. cbn. now rewrite length_fmap.
Qed.

(** ** Balances by chain queries and [get_balances] *)

Lemma chain_loop_results {St : Type}
    (lp_token_balances :
       ChecksumEthAddress -> list EthereumToken * list UnknownEthereumToken ->
       Prog St (list LiquidityPool.t * (list EthereumToken * list UnknownEthereumToken)))
    (addresses : list ChecksumEthAddress) :
  forall (st st' : AddressBalances * (list EthereumToken * list UnknownEthereumToken))
         (s s' : St),
    for_each_p (add_address_pools lp_token_balances) addresses st s = (s', Done st') ->
    exists results :
        list (list LiquidityPool.t * (list EthereumToken * list UnknownEthereumToken)),
      length results = length addresses /\
      chain_queries lp_token_balances addresses st.2 s = (s', Done <$> results) /\
      st'.2 = default st.2 (snd <$> last results) /\
      forall user,
        st'.1 !! user = match last_nonempty (zip addresses results.*1) user with
                        | Some lps => Some lps
                        | None => st.1 !! user
                        end.
Proof.
  induction addresses as [|a addresses IH]; intros st st' s s' Hloop.
  - cbn in Hloop. injection Hloop as <- <-. exists []. split_and!; reflexivity.
  - cbn [for_each_p] in Hloop. apply prog_bind_done in Hloop as (st1 & s1 & Hbody & Hloop).
    unfold add_address_pools in Hbody.
    apply prog_bind_done in Hbody as ([pool_balances sets] & s2 & Hquery & Hbody).
    assert (Hst1 : s1 = s2 /\
              st1 = (if decide (a = a /\ length pool_balances <> 0%nat)
                     then <[a := pool_balances]> st.1 else st.1, sets)).
    { destruct pool_balances; cbn in Hbody; injection Hbody as <- <-; split; auto;
        destruct (decide _) as [[_ Hn]|Hn]; try reflexivity; cbn in Hn; try lia.
      exfalso. apply Hn. split; [reflexivity | discriminate]. }
    destruct Hst1 as [-> ->].
    apply IH in Hloop as (results & Hlen & Hask & Hsets & Hlook). cbn [fst snd] in *.
    exists ((pool_balances, sets) :: results). split_and!.
    + cbn [length]. now rewrite Hlen.
    + cbn [chain_queries]. rewrite Hquery, Hask. reflexivity.
    + rewrite Hsets, last_cons. now destruct (last results).
    + intros user. cbn [fmap list_fmap fst zip zip_with].
      change (list_fmap _ _ fst results) with (results.*1).
      rewrite last_nonempty_cons, Hlook.
      destruct (last_nonempty (zip addresses results.*1) user); [reflexivity|].
      destruct (decide (a = a /\ length pool_balances <> 0%nat)) as [[_ Hp] | Hp].
      * destruct (decide (a = user /\ length pool_balances <> 0%nat)) as [[-> _] | Hn].
        -- apply lookup_insert_eq.
        -- apply lookup_insert_ne. intros ->. apply Hn. auto.
      * destruct (decide (a = user /\ length pool_balances <> 0%nat)) as [[_ Hn] | _];
          [|reflexivity].
        exfalso. apply Hp. auto.
Qed.

(** X17: the addresses [get_balances_chain] answers for.  When it returns, a
    chain query was made for each address in turn, each given the two sets of
    assets as the query before left them, and each gave a list of pools; the
    answer maps an address to the last list its queries gave that is not
    empty, and holds the sets as the last query left them.  So an entry holds
    pools found for its own address and at least one, only addresses asked for
    have entries, and an address for which no pool was found has no entry. *)
Theorem get_balances_chain_entries {St : Type}
    (lp_token_balances :
       ChecksumEthAddress -> list EthereumToken * list UnknownEthereumToken ->
       Prog St (list LiquidityPool.t * (list EthereumToken * list UnknownEthereumToken)))
    (addresses : list ChecksumEthAddress) (s s' : St) (protocol_balance : ProtocolBalance) :
  get_balances_chain lp_token_balances addresses s = (s', Done protocol_balance) ->
  exists results :
      list (list LiquidityPool.t * (list EthereumToken * list UnknownEthereumToken)),
    length results = length addresses /\
    chain_queries lp_token_balances addresses ([], []) s = (s', Done <$> results) /\
    (known_assets protocol_balance, unknown_assets protocol_balance)
      = default ([], []) (snd <$> last results) /\
    (forall user,
       address_balances protocol_balance !! user
       = last_nonempty (zip addresses results.*1) user) /\
    (forall user lps,
       address_balances protocol_balance !! user = Some lps ->
       user ∈ addresses /\ lps <> [] /\ (user, lps) ∈ zip addresses results.*1) /\
    (forall user,
       (forall lps, (user, lps) ∈ zip addresses results.*1 -> lps = []) ->
       address_balances protocol_balance !! user = None).
Proof.
  intros Hrun. unfold get_balances_chain in Hrun.
  apply prog_bind_done in Hrun as ([address_mapping sets] & s1 & Hloop & Hret).
  cbn in Hret. injection Hret as <- <-.
  apply chain_loop_results in Hloop as (results & Hlen & Hask & Hsets & Hlook).
  cbn [fst snd address_balances known_assets unknown_assets] in *.
  assert (Hlook' : forall user,
             address_mapping !! user = last_nonempty (zip addresses results.*1) user).
  { intros user. rewrite Hlook, lookup_empty. now destruct (last_nonempty _ user). }
  exists results. split_and!; auto.
  - rewrite <- Hsets. now destruct sets.
  - intros user lps Hr. rewrite Hlook' in Hr.
    apply last_nonempty_Some in Hr as [Hin Hne].
    split_and!; auto. eapply elem_of_zip_l, Hin.
  - intros user Hall. rewrite Hlook'. now apply last_nonempty_None.
Qed.

(** What [get_balances] answers: the balances of the mode's query, updated
    with the known prices and the prices of the subgraph. *)
Lemma get_balances_done {St : Type} (is_graph_mode : bool) (fuel : nat) (today_epoch : Z)
    (price_query : EthereumToken -> Price)
    (graph_query_positions :
       ParamValues (list string * string) -> Prog St (list LiquidityPosition))
    (graph_query_prices : ParamValues (list string * Z) -> Prog St (list TokenDayData))
    (lp_token_balances :
       ChecksumEthAddress -> list EthereumToken * list UnknownEthereumToken ->
       Prog St (list LiquidityPool.t * (list EthereumToken * list UnknownEthereumToken)))
    (addresses : list ChecksumEthAddress) (s s' : St) (balances : AddressBalances) :
  get_balances is_graph_mode fuel today_epoch price_query graph_query_positions
    graph_query_prices lp_token_balances addresses s = (s', Done balances) ->
  exists (protocol_balance : ProtocolBalance) (s1 : St) (unknown_asset_price : AssetPrice),
    (if is_graph_mode
     then _get_balances_graph fuel addresses graph_query_positions
     else get_balances_chain lp_token_balances addresses) s = (s1, Done protocol_balance) /\
    (if is_graph_mode
     then _get_unknown_asset_price_graph fuel today_epoch
            (_get_known_asset_price (known_assets protocol_balance)
               (unknown_assets protocol_balance) price_query).2 graph_query_prices
     else mret (∅ : AssetPrice)) s1 = (s', Done unknown_asset_price) /\
    balances = _update_assets_prices_in_address_balances (address_balances protocol_balance)
                 (_get_known_asset_price (known_assets protocol_balance)
                    (unknown_assets protocol_balance) price_query).1
                 unknown_asset_price.
Proof.
  intros Hrun. unfold get_balances in Hrun.
  apply prog_bind_done in Hrun as (protocol_balance & s1 & Hfirst & Hrest).
  destruct (_get_known_asset_price _ _ _) as [known_asset_price unknown_assets'] eqn:Hknown.
  apply prog_bind_done in Hrest as (unknown_asset_price & s2 & Hprices & Hret).
  cbn in Hret. injection Hret as <- <-.
  exists protocol_balance, s1, unknown_asset_price. rewrite Hknown. cbn [fst snd]. auto.
Qed.

(** X18: the pools [get_balances] answers.  In either mode, when
    [get_balances] returns, the USD value of every pool of its answer is the
    sum of the USD values of the pool's assets. *)
Theorem get_balances_pool_values {St : Type} (is_graph_mode : bool) (fuel : nat)
    (today_epoch : Z) (price_query : EthereumToken -> Price)
    (graph_query_positions :
       ParamValues (list string * string) -> Prog St (list LiquidityPosition))
    (graph_query_prices : ParamValues (list string * Z) -> Prog St (list TokenDayData))
    (lp_token_balances :
       ChecksumEthAddress -> list EthereumToken * list UnknownEthereumToken ->
       Prog St (list LiquidityPool.t * (list EthereumToken * list UnknownEthereumToken)))
    (addresses : list ChecksumEthAddress) (s s' : St) (balances : AddressBalances) :
  get_balances is_graph_mode fuel today_epoch price_query graph_query_positions
    graph_query_prices lp_token_balances addresses s = (s', Done balances) ->
  forall user lps,
    balances !! user = Some lps ->
    Forall (fun lp => Balance.usd_value (LiquidityPool.user_balance lp)
                      = sum_usd_values (LiquidityPool.assets lp)) lps.
Proof.
  intros Hrun user lps Hlps.
  apply get_balances_done in Hrun as (protocol_balance & s1 & unknown_asset_price & _ & _ & ->).
  unfold _update_assets_prices_in_address_balances in Hlps. rewrite lookup_fmap in Hlps.
  destruct (address_balances protocol_balance !! user) as [lps0|]; [|discriminate Hlps].
  injection Hlps as <-. apply Forall_fmap, Forall_forall. intros lp0 _.
  apply update_pool_usd_value.
Qed.

(** X19: a known token in the graph mode.  Suppose the resolver never gives two
    different known tokens of one address.  When [get_balances] returns in the
    graph mode, every asset of its answer that is a known token with a price
    other than zero has that price as its USD price, the USD value
    [amount * price], and the amount
    [pool balance / total supply * asset total amount]. *)
Theorem get_balances_graph_known_price {St : Type} (fuel : nat)
    (today_epoch : Z) (price_query : EthereumToken -> Price)
    (graph_query_positions :
       ParamValues (list string * string) -> Prog St (list LiquidityPosition))
    (graph_query_prices : ParamValues (list string * Z) -> Prog St (list TokenDayData))
    (lp_token_balances :
       ChecksumEthAddress -> list EthereumToken * list UnknownEthereumToken ->
       Prog St (list LiquidityPool.t * (list EthereumToken * list UnknownEthereumToken)))
    (addresses : list ChecksumEthAddress) (s s' : St) (balances : AddressBalances) :
  (forall token token' t t',
      token_of_graph token = Known t -> token_of_graph token' = Known t' ->
      et_ethereum_address t = et_ethereum_address t' -> t = t') ->
  get_balances true fuel today_epoch price_query graph_query_positions
    graph_query_prices lp_token_balances addresses s = (s', Done balances) ->
  forall user lps lp a t,
    balances !! user = Some lps -> lp ∈ lps -> a ∈ LiquidityPool.assets lp ->
    LiquidityPoolAsset.asset a = Known t -> price_query t <> ZERO ->
    LiquidityPoolAsset.usd_price a = price_query t /\
    Balance.usd_value (LiquidityPoolAsset.user_balance a)
      = (Balance.amount (LiquidityPoolAsset.user_balance a) * price_query t)%Qc /\
    Balance.amount (LiquidityPoolAsset.user_balance a)
      = (Balance.amount (LiquidityPool.user_balance lp) / LiquidityPool.total_supply lp
         * LiquidityPoolAsset.total_amount a)%Qc.
Proof.
  intros Hresolver Hrun user lps lp a t Hlps Hlp Ha Htoken Hprice.
  apply get_balances_done in Hrun
    as (protocol_balance & s1 & unknown_asset_price & Hgraph & _ & ->).
  destruct (get_balances_graph_invariant _ _ _ _ _ _ Hgraph) as (Hpools & Hknown & _).
  unfold _update_assets_prices_in_address_balances in Hlps. rewrite lookup_fmap in Hlps.
  destruct (address_balances protocol_balance !! user) as [lps0|] eqn:Hlps0;
    [|discriminate Hlps].
  injection Hlps as <-.
  apply list_elem_of_fmap in Hlp as (lp0 & -> & Hlp0).
  rewrite update_pool_eq in Ha. cbn [LiquidityPool.assets] in Ha.
  apply list_elem_of_fmap in Ha as (a0 & -> & Ha0).
  destruct (Hpools _ _ Hlps0) as [_ Hall].
  rewrite Forall_forall in Hall. destruct (Hall _ Hlp0) as (_ & _ & _ & Hassets).
  rewrite Forall_forall in Hassets. destruct (Hassets _ Ha0) as (_ & _ & Hamount & Hclass).
  destruct (update_asset_spec
              (_get_known_asset_price (known_assets protocol_balance)
                 (unknown_assets protocol_balance) price_query).1
              unknown_asset_price a0) as (Hasset & Htotal & Hamt & Hpriced & _).
  rewrite Hasset in Htoken. rewrite Htoken in Hpriced, Hclass.
  cbn [ethereum_address classified] in Hpriced, Hclass.
  assert (Hlookup : lookup_price
                      (_get_known_asset_price (known_assets protocol_balance)
                         (unknown_assets protocol_balance) price_query).1
                      unknown_asset_price (et_ethereum_address t) = price_query t).
  { unfold _get_known_asset_price.
    destruct (price_known_assets_loop price_query (known_assets protocol_balance) ∅
                (unknown_assets protocol_balance)) as (_ & Hfrom & Hsome).
    destruct (Hsome (et_ethereum_address t)) as [p Hp].
    { right. exists t. auto. }
    rewrite lookup_price_spec, Hp.
    destruct (Hfrom _ _ Hp) as [Hempty | (t' & Ht' & Haddr & <- & _)].
    - rewrite lookup_empty in Hempty. discriminate Hempty.
    - destruct (Hknown _ Hclass) as [token Htok], (Hknown _ Ht') as [token' Htok'].
      now rewrite (Hresolver _ _ _ _ Htok Htok' (eq_sym Haddr)). }
  rewrite Hlookup in Hpriced. destruct (Hpriced Hprice) as [Hp Hv].
  rewrite update_pool_eq. cbn [LiquidityPool.user_balance LiquidityPool.total_supply Balance.amount].
  rewrite Hp, Hv, Hamt, Htotal. auto.
Qed.

(** ** What the loops over the subgraph build *)

Lemma transaction_trades_loop (address_ : ChecksumEthAddress) (entries : list (list GraphSwap)) :
  forall trades : list AMMTrade,
    for_each (add_transaction_trades address_) entries trades
    = (new ← extend_all (fun entry => _tx_swaps_to_trades (swap_of_graph address_ <$> entry))
               entries;
       Done (trades ++ new)).
Proof.
  induction entries as [|entry entries IH]; intros trades; cbn [for_each extend_all].
  - cbn. now rewrite app_nil_r.
  - change (add_transaction_trades address_ trades entry)
      with (new ← _tx_swaps_to_trades (swap_of_graph address_ <$> entry);
            Done (trades ++ new)).
    destruct (_tx_swaps_to_trades (swap_of_graph address_ <$> entry)) as [new|e|];
      cbn [mbind outcome_bind]; [|reflexivity..].
    rewrite IH.
    destruct (extend_all _ entries) as [rest|e|]; cbn [mbind outcome_bind]; [|reflexivity..].
    now rewrite app_assoc.
Qed.

Lemma tx_swaps_trades_carry_group (group : list AMMSwap) (trades : list AMMTrade) :
  _tx_swaps_to_trades group = Done trades ->
  group <> [] /\ Forall (fun t => swaps t = group) trades.
Proof.
  intros H. destruct group as [|x l]; [discriminate H|]. split; [discriminate|].
  destruct (last (x :: l)) as [z|] eqn:El; [|apply last_None in El; discriminate].
  rewrite (tx_swaps_to_trades_unfold (x :: l) x z eq_refl El) in H. cbv zeta in H.
  assert (Hlegs : forall token bought i legs,
             Forall (fun t => swaps t = x :: l) (trades_of_legs (x :: l) token bought i legs)).
  { intros token bought i legs.
    eapply Forall_impl;
      [apply (trades_of_legs_Forall _ _ _ _ legs (fun _ => True)), Forall_true; auto|].
    intros t (_ & _ & _ & Hswaps & _). exact Hswaps. }
  destruct (fval_gt (amount0_out z) ZERO).
  - destruct (add_trades_from_swaps (x :: l) [] _ _ (amount0_out z) _ 0) as [first|e|] eqn:E0;
      [|discriminate..].
    apply add_trades_from_swaps_iff in E0 as [_ ->]. cbn [mbind outcome_bind app] in H.
    destruct (fval_gt (amount1_out z) ZERO).
    + apply add_trades_from_swaps_iff in H as [_ ->]. apply Forall_app. auto.
    + injection H as <-. auto.
  - cbn [mbind outcome_bind] in H. destruct (fval_gt (amount1_out z) ZERO).
    + apply add_trades_from_swaps_iff in H as [_ ->]. cbn [app]. auto.
    + injection H as <-. constructor.
Qed.

Lemma extend_all_Forall {A T : Type} (f : A -> Outcome (list T)) (P : A -> T -> Prop)
    (groups : list A) :
  forall r : list T,
    extend_all f groups = Done r ->
    (forall g ts, g ∈ groups -> f g = Done ts -> Forall (P g) ts) ->
    Forall (fun t => exists g, g ∈ groups /\ P g t) r.
Proof.
  induction groups as [|g groups IH]; intros r Hrun HP; cbn [extend_all] in Hrun.
  - injection Hrun as <-. constructor.
  - destruct (f g) as [new|e|] eqn:Hg; cbn [mbind outcome_bind] in Hrun; [|discriminate..].
    destruct (extend_all f groups) as [rest|e|] eqn:Hrest; cbn [mbind outcome_bind] in Hrun;
      [|discriminate..].
    injection Hrun as <-. apply Forall_app. split.
    + eapply Forall_impl; [apply (HP g new); [apply list_elem_of_here | exact Hg]|].
      intros t Ht. exists g. split; [apply list_elem_of_here | exact Ht].
    + eapply Forall_impl.
      * apply (IH rest eq_refl). intros g' ts Hin. apply HP. now apply list_elem_of_further.
      * intros t (g' & Hin & Ht). exists g'. split; [now apply list_elem_of_further | exact Ht].
Qed.

(** X20: the trades of an address.  When [_get_trades_graph_for_address]
    returns, its trades are those [_tx_swaps_to_trades] gives for each
    transaction entry of the pages it fetched, over the entry's swaps made
    [AMMSwap]s of the address, in the order of the entries; every trade carries
    all the swaps of one entry, which is not empty. *)
Theorem get_trades_graph_for_address_trades (fuel : nat) (address_ : ChecksumEthAddress)
    (start_ts end_ts : Timestamp) (s s' : World) (trades : list AMMTrade) :
  _get_trades_graph_for_address fuel address_ start_ts end_ts s = (s', Done trades) ->
  exists pages : list (list (list GraphSwap)),
    ask graph_query_swaps
      (loop_queries (length pages)
         {| limit := GRAPH_QUERY_LIMIT; offset := 0;
            bindings := (lower address_, start_ts, end_ts) |}) s
      = (s', Done <$> pages) /\
    extend_all (fun entry => _tx_swaps_to_trades (swap_of_graph address_ <$> entry))
      (concat pages) = Done trades /\
    Forall (fun t => exists entry,
                entry ∈ concat pages /\ entry <> [] /\
                swaps t = swap_of_graph address_ <$> entry) trades.
Proof.
  intros Hrun. unfold _get_trades_graph_for_address in Hrun.
  apply paginate_done in Hrun as (k & _ & pages & last_ & Hlen & Hask & _ & _ & Hparse).
  exists (pages ++ [last_]).
  rewrite transaction_trades_loop in Hparse.
  destruct (extend_all _ (concat (pages ++ [last_]))) as [new|e|] eqn:Hnew;
    cbn [mbind outcome_bind] in Hparse; [|discriminate..].
  injection Hparse as <-. cbn [app]. split_and!.
  - rewrite length_app, Hlen, Nat.add_1_r. exact Hask.
  - reflexivity.
  - eapply Forall_impl.
    + apply (extend_all_Forall _ (fun entry t => entry <> [] /\
                                    swaps t = swap_of_graph address_ <$> entry) _ _ Hnew).
      intros entry ts _ Hts. apply tx_swaps_trades_carry_group in Hts as [Hne Hall].
      eapply Forall_impl; [exact Hall|]. intros t Ht. split; [|exact Ht].
      intros ->. now apply Hne.
    + intros t (entry & Hin & Hne & Ht). eauto.
Qed.

Lemma token_prices_loop (records : list TokenDayData) :
  forall asset_price : AssetPrice,
    exists asset_price' : AssetPrice,
      for_each add_token_price records asset_price = Done asset_price' /\
      forall a, asset_price' !! a
                = match last_price_of records a with
                  | Some p => Some p
                  | None => asset_price !! a
                  end.
Proof.
  induction records as [|tdd records IH]; intros asset_price.
  - exists asset_price. split; [reflexivity|]. intros a. reflexivity.
  - cbn [for_each add_token_price mbind outcome_bind].
    destruct (IH (<[to_checksum_address (tdd_token_id tdd) := tdd_priceUSD tdd]> asset_price))
      as (m' & Hrun & Hm').
    exists m'. split; [exact Hrun|]. intros a. rewrite Hm'. unfold last_price_of.
    rewrite filter_cons.
    destruct (decide (to_checksum_address (tdd_token_id tdd) = a)) as [<-|Hother].
    + destruct (filter _ records) as [|y l] eqn:Hf.
      * cbn. apply lookup_insert_eq.
      * change (last (tdd :: y :: l)) with (last (y :: l)).
        destruct (last (y :: l)) as [z|] eqn:Hl; [reflexivity|].
        apply last_None in Hl. discriminate Hl.
    + destruct (last (filter _ records)); cbn; [reflexivity|].
      now apply lookup_insert_ne.
Qed.

(** ** Every record of every page *)

(** The positions gone through without an exception: each added its pool to
    the list of its user, in order, and its two tokens to the sets. *)
Lemma positions_loop_content (lps : list LiquidityPosition) :
  forall acc acc' : ProtocolBalance,
    for_each add_liquidity_position lps acc = Done acc' ->
    (forall user,
        address_balances acc' !! user
        = match pool_of_position
                  <$> filter (fun lp => to_checksum_address (lp_user_id lp) = user) lps with
          | [] => address_balances acc !! user
          | pools => Some (default [] (address_balances acc !! user) ++ pools)
          end) /\
    (forall t, t ∈ known_assets acc' <->
       t ∈ known_assets acc \/
       exists lp, lp ∈ lps /\ (token_of_graph (lp_pair_token0 lp) = Known t \/
                               token_of_graph (lp_pair_token1 lp) = Known t)) /\
    (forall u, u ∈ unknown_assets acc' <->
       u ∈ unknown_assets acc \/
       exists lp, lp ∈ lps /\ (token_of_graph (lp_pair_token0 lp) = Unknown u \/
                               token_of_graph (lp_pair_token1 lp) = Unknown u)).
Proof.
  induction lps as [|lp lps IH]; intros acc acc' Hloop; cbn [for_each] in Hloop.
  - injection Hloop as <-. split_and!.
    + intros user. reflexivity.
    + intros t. split; [auto|]. intros [H | (lp & Hin & _)]; [exact H | inversion Hin].
    + intros u. split; [auto|]. intros [H | (lp & Hin & _)]; [exact H | inversion Hin].
  - destruct (add_liquidity_position acc lp) as [acc1|e|] eqn:Hadd; [|discriminate..].
    cbn [mbind outcome_bind] in Hloop.
    apply add_liquidity_position_inv in Hadd as [_ ->].
    apply IH in Hloop as (Hpools & Hknown & Hunknown).
    cbn [address_balances known_assets unknown_assets] in *. split_and!.
    + intros user. rewrite Hpools, filter_cons.
      destruct (decide (to_checksum_address (lp_user_id lp) = user)) as [<- | Hother].
      * rewrite lookup_insert_eq. cbn [fmap list_fmap default].
        destruct (filter _ lps) as [|lp' rest]; [reflexivity|].
        rewrite fmap_cons. unfold id. now rewrite <- app_assoc.
      * now rewrite lookup_insert_ne.
    + intros t. rewrite Hknown, known_after_spec. split.
      * intros [[H | H] | (lp' & Hin & H)]; auto.
        -- right. exists lp. split; [apply list_elem_of_here | exact H].
        -- right. exists lp'. split; [now apply list_elem_of_further | exact H].
      * intros [H | (lp' & Hin & H)]; auto.
        apply elem_of_cons in Hin as [-> | Hin]; [auto|]. right. eauto.
    + intros u. rewrite Hunknown, unknown_after_spec. split.
      * intros [[H | H] | (lp' & Hin & H)]; auto.
        -- right. exists lp. split; [apply list_elem_of_here | exact H].
        -- right. exists lp'. split; [now apply list_elem_of_further | exact H].
      * intros [H | (lp' & Hin & H)]; auto.
        apply elem_of_cons in Hin as [-> | Hin]; [auto|]. right. eauto.
Qed.

(** What [extend_all] returns is the concatenation of what [f] returned on
    each element. *)
Lemma extend_all_concat {A T : Type} (f : A -> Outcome (list T)) (groups : list A) :
  forall r : list T,
    extend_all f groups = Done r ->
    exists per_group : list (list T),
      Forall2 (fun g new => f g = Done new) groups per_group /\ r = concat per_group.
Proof.
  induction groups as [|g gs IH]; intros r H; cbn [extend_all] in H.
  - injection H as <-. exists []. split; [constructor | reflexivity].
  - destruct (f g) as [new|e|] eqn:Hg; [|discriminate..]. cbn [mbind outcome_bind] in H.
    destruct (extend_all f gs) as [rest|e|]; [|discriminate..]. cbn [mbind outcome_bind] in H.
    injection H as <-. destruct (IH rest eq_refl) as (per & Hper & ->).
    exists (new :: per). split; [now constructor | reflexivity].
Qed.

(** C7: the three pagination loops.  The requests of a loop are the first one,
    of offset 0, and then each the one before with its offset moved up by
    [GRAPH_QUERY_LIMIT].  Each loop returns if and only if, for some [k], its
    first [k] requests were answered by pages of at least [GRAPH_QUERY_LIMIT]
    records and request [k + 1] by a page of strictly fewer; it has then made
    exactly these [k + 1] requests and its result is built from every record of
    every page, in order.  So when the source comes to a short page after [k]
    full ones (and no request nor record raises), any fuel above [k] gives the
    result: the loop is total.  And every record of every page fetched is in
    the result: the balances hold, for each user, the pools of all the
    positions of that user, in order, and the sets hold the tokens of all the
    positions; the trades are those of all the transaction entries, in order;
    the prices hold, for each address, the price of the last record naming
    it. *)
Theorem short_page_pagination :
  (forall (X : Type) (n : nat) (pv : ParamValues X),
      loop_queries n pv =
        (fun i : nat => {| limit := limit pv;
                           offset := offset pv + Z.of_nat i * GRAPH_QUERY_LIMIT;
                           bindings := bindings pv |}) <$> seq 0 n) /\
  (forall (St : Type) graph_query (fuel : nat) (addresses : list ChecksumEthAddress)
          (s s' : St) (r : ProtocolBalance),
      _get_balances_graph fuel addresses graph_query s = (s', Done r) <->
      exists k, (k < fuel)%nat /\
        short_page_run graph_query add_liquidity_position
          {| limit := GRAPH_QUERY_LIMIT; offset := 0;
             bindings := (lower <$> addresses, "0"%string) |}
          {| address_balances := ∅; known_assets := []; unknown_assets := [] |}
          s k s' r) /\
  (forall (fuel : nat) (address : ChecksumEthAddress) (start_ts end_ts : Timestamp)
          (s s' : World) (r : list AMMTrade),
      _get_trades_graph_for_address fuel address start_ts end_ts s = (s', Done r) <->
      exists k, (k < fuel)%nat /\
        short_page_run graph_query_swaps (add_transaction_trades address)
          {| limit := GRAPH_QUERY_LIMIT; offset := 0;
             bindings := (lower address, start_ts, end_ts) |}
          [] s k s' r) /\
  (forall (St : Type) graph_query (fuel : nat) (today_epoch : Z)
          (unknown_assets : list UnknownEthereumToken) (s s' : St) (r : AssetPrice),
      _get_unknown_asset_price_graph fuel today_epoch unknown_assets graph_query s
        = (s', Done r) <->
      exists k, (k < fuel)%nat /\
        short_page_run graph_query add_token_price
          {| limit := GRAPH_QUERY_LIMIT; offset := 0;
             bindings := (lower <$> (ut_ethereum_address <$> unknown_assets), today_epoch) |}
          ∅ s k s' r) /\
  (forall (St : Type) graph_query (fuel : nat) (addresses : list ChecksumEthAddress)
          (s s' : St) (r : ProtocolBalance),
      _get_balances_graph fuel addresses graph_query s = (s', Done r) ->
      exists pages : list (list LiquidityPosition),
        ask graph_query
          (loop_queries (length pages)
             {| limit := GRAPH_QUERY_LIMIT; offset := 0;
                bindings := (lower <$> addresses, "0"%string) |}) s
          = (s', Done <$> pages) /\
        (forall user,
            address_balances r !! user
            = match pool_of_position
                      <$> filter (fun lp => to_checksum_address (lp_user_id lp) = user)
                            (concat pages) with
              | [] => None
              | pools => Some pools
              end) /\
        (forall t, t ∈ known_assets r <->
           exists lp, lp ∈ concat pages /\
                      (token_of_graph (lp_pair_token0 lp) = Known t \/
                       token_of_graph (lp_pair_token1 lp) = Known t)) /\
        (forall u, u ∈ unknown_assets r <->
           exists lp, lp ∈ concat pages /\
                      (token_of_graph (lp_pair_token0 lp) = Unknown u \/
                       token_of_graph (lp_pair_token1 lp) = Unknown u))) /\
  (forall (fuel : nat) (address : ChecksumEthAddress) (start_ts end_ts : Timestamp)
          (s s' : World) (r : list AMMTrade),
      _get_trades_graph_for_address fuel address start_ts end_ts s = (s', Done r) ->
      exists (pages : list (list (list GraphSwap))) (per_entry : list (list AMMTrade)),
        ask graph_query_swaps
          (loop_queries (length pages)
             {| limit := GRAPH_QUERY_LIMIT; offset := 0;
                bindings := (lower address, start_ts, end_ts) |}) s
          = (s', Done <$> pages) /\
        Forall2 (fun entry trades =>
                   _tx_swaps_to_trades (swap_of_graph address <$> entry) = Done trades)
          (concat pages) per_entry /\
        r = concat per_entry) /\
  (forall (St : Type) graph_query (fuel : nat) (today_epoch : Z)
          (unknown_assets : list UnknownEthereumToken) (s s' : St) (r : AssetPrice),
      _get_unknown_asset_price_graph fuel today_epoch unknown_assets graph_query s
        = (s', Done r) ->
      exists pages : list (list TokenDayData),
        ask graph_query
          (loop_queries (length pages)
             {| limit := GRAPH_QUERY_LIMIT; offset := 0;
                bindings := (lower <$> (ut_ethereum_address <$> unknown_assets),
                             today_epoch) |}) s
          = (s', Done <$> pages) /\
        (forall a, r !! a = last_price_of (concat pages) a) /\
        (forall tdd, tdd ∈ concat pages ->
                     is_Some (r !! to_checksum_address (tdd_token_id tdd)))).
Proof.
  split; [intros X n pv; apply loop_queries_offsets|].
  split; [intros; apply paginate_returns_iff|].
  split; [intros; apply paginate_returns_iff|].
  split; [intros; apply paginate_returns_iff|].
  split; [|split].
  - intros St graph_query fuel addresses s s' r Hrun. unfold _get_balances_graph in Hrun.
    apply paginate_done in Hrun as (k & _ & pages & last_ & Hlen & Hask & _ & _ & Hparse).
    exists (pages ++ [last_]). split.
    { rewrite length_app, Hlen, Nat.add_1_r. exact Hask. }
    apply positions_loop_content in Hparse as (Hpools & Hknown & Hunknown).
    cbn [address_balances known_assets unknown_assets] in *. split_and!.
    + intros user. rewrite Hpools, lookup_empty. cbn [default app].
      now destruct (pool_of_position <$> _).
    + intros t. rewrite Hknown. split; [|auto].
      intros [H | H]; [inversion H | exact H].
    + intros u. rewrite Hunknown. split; [|auto].
      intros [H | H]; [inversion H | exact H].
  - intros fuel address start_ts end_ts s s' r Hrun.
    unfold _get_trades_graph_for_address in Hrun.
    apply paginate_done in Hrun as (k & _ & pages & last_ & Hlen & Hask & _ & _ & Hparse).
    rewrite transaction_trades_loop in Hparse.
    destruct (extend_all _ (concat (pages ++ [last_]))) as [new|e|] eqn:Hnew;
      cbn [mbind outcome_bind] in Hparse; [|discriminate..].
    injection Hparse as <-. cbn [app].
    apply extend_all_concat in Hnew as (per_entry & Hper & ->).
    exists (pages ++ [last_]), per_entry. split_and!; auto.
    rewrite length_app, Hlen, Nat.add_1_r. exact Hask.
  - intros St graph_query fuel today_epoch unknown_assets s s' r Hrun.
    unfold _get_unknown_asset_price_graph in Hrun.
    apply paginate_done in Hrun as (k & _ & pages & last_ & Hlen & Hask & _ & _ & Hparse).
    exists (pages ++ [last_]).
    assert (Hlook : forall a, r !! a = last_price_of (concat (pages ++ [last_])) a).
    { intros a.
      destruct (token_prices_loop (concat (pages ++ [last_])) ∅) as (m' & Hrun & Hm').
      rewrite Hrun in Hparse. injection Hparse as <-. rewrite Hm', lookup_empty.
      now destruct (last_price_of _ a). }
    split_and!; auto.
    + rewrite length_app, Hlen, Nat.add_1_r. exact Hask.
    + intros tdd Hin. rewrite Hlook. unfold last_price_of.
      apply fmap_is_Some, last_is_Some. intros Hnil.
      assert (Hf : tdd ∈ filter (fun tdd' => to_checksum_address (tdd_token_id tdd')
                                             = to_checksum_address (tdd_token_id tdd))
                         (concat (pages ++ [last_]))).
      { apply list_elem_of_filter. auto. }
      rewrite Hnil in Hf. inversion Hf.
Qed.

(** X21: the prices of the subgraph.  When [_get_unknown_asset_price_graph]
    returns, the price it gives for an address is the [priceUSD] of the last
    record naming that address among the records of the pages it fetched, in
    order; an address that no record names has no price. *)
Theorem unknown_asset_price_last_record {St : Type} (fuel : nat) (today_epoch : Z)
    (unknown_assets : list UnknownEthereumToken)
    (graph_query : ParamValues (list string * Z) -> Prog St (list TokenDayData))
    (s s' : St) (asset_price : AssetPrice) :
  _get_unknown_asset_price_graph fuel today_epoch unknown_assets graph_query s
    = (s', Done asset_price) ->
  exists pages : list (list TokenDayData),
    ask graph_query
      (loop_queries (length pages)
         {| limit := GRAPH_QUERY_LIMIT; offset := 0;
            bindings := (lower <$> (ut_ethereum_address <$> unknown_assets), today_epoch) |}) s
      = (s', Done <$> pages) /\
    forall a, asset_price !! a = last_price_of (concat pages) a.
Proof.
  intros Hrun. unfold _get_unknown_asset_price_graph in Hrun.
  apply paginate_done in Hrun as (k & _ & pages & last_ & Hlen & Hask & _ & _ & Hparse).
  exists (pages ++ [last_]). split.
  - rewrite length_app, Hlen, Nat.add_1_r. exact Hask.
  - intros a. destruct (token_prices_loop (concat (pages ++ [last_])) ∅) as (m' & Hrun & Hm').
    rewrite Hrun in Hparse. injection Hparse as <-. rewrite Hm', lookup_empty.
    now destruct (last_price_of _ a).
Qed.

(** A string without the character [-] is not of the form [a-b]. *)
Lemma no_dash_app (h : string) :
  forallb (fun c => negb (Ascii.eqb c (Ascii.Ascii true false true true false true false false)))
    (String.list_ascii_of_string h) = true ->
  forall a b : string, h <> a +:+ "-" +:+ b.
Proof.
  intros Hno a. revert h Hno. induction a as [|c a IH]; intros h Hno b ->.
  - cbn in Hno. discriminate Hno.
  - change (String c a +:+ "-" +:+ b) with (String c (a +:+ "-" +:+ b)) in Hno.
    cbn [String.list_ascii_of_string forallb] in Hno. apply andb_true_iff in Hno as [_ Hno].
    now apply (IH _ Hno b).
Qed.

(** * The settings of the database *)

Ltac known_setting :=
  unfold KNOWN_SETTINGS; repeat first [ apply list_elem_of_here | apply list_elem_of_further ].

Ltac settings_cases key :=
  repeat match goal with
         | |- context [String.eqb key ?s] => destruct (String.eqb_spec key s) as [->|?]
         end.

Lemma assign_effect (key : string) (c : Checked SettingVal) :
  key ∈ KNOWN_SETTINGS -> key <> "taxfree_after_period"%string ->
  exists new r, setting_effect key (assign key c) new r.
Proof.
  intros Hknown Hkey. exists [], (Some <$> c). unfold setting_effect. split_and!.
  - intros warnings specified_args. rewrite app_nil_r. unfold assign.
    destruct c; reflexivity.
  - intros Hn. contradiction.
  - intros _. split; [destruct c; discriminate | now left].
  - intros ->. contradiction.
Qed.

Lemma taxfree_known : "taxfree_after_period"%string ∈ KNOWN_SETTINGS.
Proof. known_setting. Qed.

(** What one item of the dictionary does: it adds the warnings [new], and it
    either raises, or leaves [specified_args] alone, or sets the entry of its
    key; which of these, and the value set, depend on the item only. *)
Lemma add_setting_effect (key : string) (value : PyVal) :
  exists new r, setting_effect key (add_setting key value) new r.
Proof.
  unfold add_setting. settings_cases key;
    try (apply assign_effect; [known_setting | discriminate]).
  - (* taxfree_after_period *)
    assert (Hnone : exists new r,
               setting_effect "taxfree_after_period"
                 (assign "taxfree_after_period" (Ok (VOptInt None))) new r).
    { exists [], (Ok (Some (VOptInt None))). unfold setting_effect. split_and!.
      - intros warnings specified_args. now rewrite app_nil_r.
      - intros Hn. exfalso. apply Hn, taxfree_known.
      - intros _. split; [discriminate | now left].
      - intros _ v [= <-]. now left. }
    assert (Hint : exists new r,
               setting_effect "taxfree_after_period"
                 (fun warnings specified_args =>
                    match int value with
                    | Fail e => (warnings, Fail e)
                    | Ok int_value =>
                        if int_value <=? 0 then
                          assign "taxfree_after_period" (Ok (VOptInt None))
                            (warnings ++ [NonPositiveTaxfree int_value]) specified_args
                        else
                          assign "taxfree_after_period" (Ok (VOptInt (Some int_value)))
                            warnings specified_args
                    end) new r).
    { unfold setting_effect. destruct (int value) as [int_value|e].
      - destruct (Z.leb_spec int_value 0) as [Hle|Hgt].
        + exists [NonPositiveTaxfree int_value], (Ok (Some (VOptInt None))). split_and!.
          * reflexivity.
          * intros Hn. exfalso. apply Hn, taxfree_known.
          * intros _. split; [discriminate|]. right. exists int_value. auto.
          * intros _ v [= <-]. now left.
        + exists [], (Ok (Some (VOptInt (Some int_value)))). split_and!.
          * intros warnings specified_args. now rewrite app_nil_r.
          * intros Hn. exfalso. apply Hn, taxfree_known.
          * intros _. split; [discriminate | now left].
          * intros _ v [= <-]. right. exists int_value. auto.
      - exists [], (Fail e). split_and!.
        + intros warnings specified_args. now rewrite app_nil_r.
        + intros Hn. exfalso. apply Hn, taxfree_known.
        + intros _. split; [discriminate | now left].
        + intros _ v Hv. discriminate Hv. }
    destruct value; [exact Hnone | exact Hint..].
  - (* a key that is not known *)
    assert (Hunknown : key ∉ KNOWN_SETTINGS).
    { unfold KNOWN_SETTINGS. intros Hin.
      repeat (apply elem_of_cons in Hin as [->|Hin]; [contradiction|]).
      now apply elem_of_nil in Hin. }
    exists [UnknownSetting key], (Ok None). unfold setting_effect. split_and!.
    + reflexivity.
    + auto.
    + intros Hin. contradiction.
    + intros ->. exfalso. apply Hunknown, taxfree_known.
Qed.

Lemma settings_loop_app (d1 d2 : list (string * PyVal)) :
  forall warnings specified_args,
    settings_loop (d1 ++ d2) warnings specified_args
    = (let '(warnings1, r) := settings_loop d1 warnings specified_args in
       match r with
       | Ok specified_args1 => settings_loop d2 warnings1 specified_args1
       | Fail e => (warnings1, Fail e)
       end).
Proof.
  induction d1 as [|[key value] d1 IH]; intros warnings specified_args; [reflexivity|].
  cbn [app settings_loop].
  destruct (add_setting key value warnings specified_args) as [warnings1 [args1|e]];
    [apply IH | reflexivity].
Qed.

(** The loop only adds warnings, and which it adds does not depend on those
    that were there. *)
Lemma settings_loop_warnings (d : list (string * PyVal)) :
  forall specified_args,
  exists new r,
    (forall warnings, settings_loop d warnings specified_args = (warnings ++ new, r)) /\
    (forall w, w ∈ new ->
       (exists key, w = UnknownSetting key /\ key ∈ d.*1 /\ key ∉ KNOWN_SETTINGS) \/
       (exists int_value, w = NonPositiveTaxfree int_value /\ int_value <= 0 /\
                          "taxfree_after_period"%string ∈ d.*1)).
Proof.
  induction d as [|[key value] d IH]; intros specified_args.
  - exists [], (Ok specified_args). split.
    + intros warnings. cbn. now rewrite app_nil_r.
    + intros w Hw. now apply elem_of_nil in Hw.
  - destruct (add_setting_effect key value) as (new & r & Hrun & Hunknown & Hknown & _).
    assert (Hnew : forall w, w ∈ new ->
               (exists key0, w = UnknownSetting key0 /\ key0 ∈ ((key, value) :: d).*1 /\
                             key0 ∉ KNOWN_SETTINGS) \/
               (exists int_value, w = NonPositiveTaxfree int_value /\ int_value <= 0 /\
                                  "taxfree_after_period"%string ∈ ((key, value) :: d).*1)).
    { intros w Hw. destruct (decide (key ∈ KNOWN_SETTINGS)) as [Hin|Hout].
      - destruct (Hknown Hin) as [_ [-> | (n & -> & Hn & -> & _)]].
        + now apply elem_of_nil in Hw.
        + apply list_elem_of_singleton in Hw as ->. right. exists n.
          split_and!; auto. apply list_elem_of_here.
      - destruct (Hunknown Hout) as [-> _].
        apply list_elem_of_singleton in Hw as ->. left. exists key.
        split_and!; auto. apply list_elem_of_here. }
    assert (Hrest : forall args1,
               exists new' r',
                 (forall warnings,
                     settings_loop d (warnings ++ new) args1 = (warnings ++ new ++ new', r')) /\
                 (forall w, w ∈ new ++ new' ->
                    (exists key0, w = UnknownSetting key0 /\ key0 ∈ ((key, value) :: d).*1 /\
                                  key0 ∉ KNOWN_SETTINGS) \/
                    (exists int_value, w = NonPositiveTaxfree int_value /\ int_value <= 0 /\
                                       "taxfree_after_period"%string ∈ ((key, value) :: d).*1))).
    { intros args1. destruct (IH args1) as (new' & r' & Hloop & Hnew').
      exists new', r'. split.
      - intros warnings. now rewrite Hloop, app_assoc.
      - intros w Hw. apply elem_of_app in Hw as [Hw|Hw]; [now apply Hnew|].
        destruct (Hnew' w Hw) as [(k & -> & Hk & Hout) | (n & -> & Hn & Hk)].
        + left. exists k. split_and!; auto. cbn. now apply list_elem_of_further.
        + right. exists n. split_and!; auto. cbn. now apply list_elem_of_further. }
    destruct r as [[v|]|e].
    + destruct (Hrest (<[key := v]> specified_args)) as (new' & r' & Hloop & Hall).
      exists (new ++ new'), r'. split; [|exact Hall].
      intros warnings. cbn [settings_loop]. rewrite Hrun. apply Hloop.
    + destruct (Hrest specified_args) as (new' & r' & Hloop & Hall).
      exists (new ++ new'), r'. split; [|exact Hall].
      intros warnings. cbn [settings_loop]. rewrite Hrun. apply Hloop.
    + exists new, (Fail e). split; [|exact Hnew].
      intros warnings. cbn [settings_loop]. now rewrite Hrun.
Qed.

(** X23: a key that is not known is ignored.  When [db_settings_from_dict]
    returns the settings [s] for a dictionary, it returns the same settings for
    the dictionary with one more item, anywhere, whose key is none of the keys
    it reads; the warnings are the same but for the one about that key, added
    where the item stands. *)
Theorem db_settings_unknown_key (key : string) (value : PyVal)
    (before after : list (string * PyVal)) (warnings warnings' : list Warning)
    (s : DBSettings) :
  key ∉ KNOWN_SETTINGS ->
  db_settings_from_dict (before ++ after) warnings = (warnings', Ok s) ->
  exists new1 new2,
    warnings' = warnings ++ new1 ++ new2 /\
    db_settings_from_dict (before ++ (key, value) :: after) warnings
    = (warnings ++ new1 ++ UnknownSetting key :: new2, Ok s).
Proof.
  intros Hunknown Hrun. unfold db_settings_from_dict in *.
  rewrite settings_loop_app in Hrun. rewrite settings_loop_app.
  destruct (settings_loop_warnings before ∅) as (new1 & r1 & Hloop1 & _).
  rewrite Hloop1 in *. destruct r1 as [args1|e]; [|discriminate Hrun].
  destruct (settings_loop_warnings after args1) as (new2 & r2 & Hloop2 & _).
  rewrite Hloop2 in Hrun. destruct r2 as [args2|e]; [|discriminate Hrun].
  injection Hrun as <- <-. exists new1, new2. split; [now rewrite app_assoc|].
  cbn [settings_loop].
  destruct (add_setting_effect key value) as (new & r & Hadd & Hrule & _).
  destruct (Hrule Hunknown) as [-> ->]. rewrite Hadd, Hloop2.
  cbn. f_equal. rewrite <- !app_assoc. reflexivity.
Qed.

(** The entry of [taxfree_after_period] in [specified_args]: [None] or a
    positive number. *)
Lemma settings_loop_taxfree (d : list (string * PyVal)) :
  forall warnings specified_args warnings' specified_args',
    settings_loop d warnings specified_args = (warnings', Ok specified_args') ->
    (forall v, specified_args !! "taxfree_after_period"%string = Some v ->
               v = VOptInt None \/ exists n, 0 < n /\ v = VOptInt (Some n)) ->
    forall v, specified_args' !! "taxfree_after_period"%string = Some v ->
              v = VOptInt None \/ exists n, 0 < n /\ v = VOptInt (Some n).
Proof.
  induction d as [|[key value] d IH]; intros warnings args warnings' args' Hrun Hargs.
  - cbn in Hrun. now injection Hrun as _ <-.
  - cbn [settings_loop] in Hrun.
    destruct (add_setting_effect key value) as (new & r & Hadd & _ & _ & Htax).
    rewrite Hadd in Hrun. destruct r as [[v1|]|e]; [| |discriminate Hrun].
    + eapply IH; [exact Hrun|]. intros v Hv.
      destruct (decide (key = "taxfree_after_period"%string)) as [->|Hother].
      * rewrite lookup_insert_eq in Hv. injection Hv as <-. now apply Htax.
      * rewrite lookup_insert_ne in Hv by exact Hother. now apply Hargs.
    + eapply IH; eauto.
Qed.

(** X24: the period read for [taxfree_after_period].  Provided the default
    [YEAR_IN_SECONDS] is positive, the settings [db_settings_from_dict] returns
    never hold a period that is zero or negative: the field is [None] or a
    positive number.  Every warning added is one about an unknown key of the
    dictionary, or one about a value of [taxfree_after_period] that is not
    positive. *)
Theorem db_settings_taxfree_positive (settings_dict : list (string * PyVal))
    (warnings warnings' : list Warning) (s : DBSettings) :
  0 < YEAR_IN_SECONDS ->
  db_settings_from_dict settings_dict warnings = (warnings', Ok s) ->
  match taxfree_after_period s with
  | Some n => 0 < n
  | None => True
  end /\
  exists new,
    warnings' = warnings ++ new /\
    forall w, w ∈ new ->
      (exists key, w = UnknownSetting key /\ key ∈ settings_dict.*1 /\ key ∉ KNOWN_SETTINGS) \/
      (exists int_value, w = NonPositiveTaxfree int_value /\ int_value <= 0 /\
                         "taxfree_after_period"%string ∈ settings_dict.*1).
Proof.
  intros Hyear Hrun. unfold db_settings_from_dict in Hrun.
  destruct (settings_loop settings_dict warnings ∅) as [warnings1 [args|e]] eqn:Hloop;
    [|discriminate Hrun].
  injection Hrun as <- <-. split.
  - cbn [DBSettings_of_args taxfree_after_period]. unfold arg_opt_int.
    assert (Htax : forall v, args !! "taxfree_after_period"%string = Some v ->
                             v = VOptInt None \/ exists n, 0 < n /\ v = VOptInt (Some n)).
    { apply (settings_loop_taxfree _ _ _ _ _ Hloop).
      intros v Hv. rewrite lookup_empty in Hv. discriminate Hv. }
    destruct (args !! "taxfree_after_period"%string) as [v|]; [|exact Hyear].
    destruct (Htax v eq_refl) as [-> | (n & Hn & ->)]; [exact I | exact Hn].
  - destruct (settings_loop_warnings settings_dict ∅) as (new & r & Hall & Hnew).
    rewrite Hall in Hloop. injection Hloop as <- _. exists new. auto.
Qed.

(** Two items of different keys can be taken in either order. *)
Lemma add_setting_swap (key1 key2 : string) (value1 value2 : PyVal)
    (warnings : list Warning) (specified_args : gmap string SettingVal)
    (warnings2 : list Warning) (args1 args2 : gmap string SettingVal) (new1 : list Warning) :
  key1 <> key2 ->
  add_setting key1 value1 warnings specified_args = (warnings ++ new1, Ok args1) ->
  add_setting key2 value2 (warnings ++ new1) args1 = (warnings2, Ok args2) ->
  exists new2 args1',
    warnings2 = warnings ++ new1 ++ new2 /\
    add_setting key2 value2 warnings specified_args = (warnings ++ new2, Ok args1') /\
    add_setting key1 value1 (warnings ++ new2) args1' = (warnings ++ new2 ++ new1, Ok args2).
Proof.
  intros Hkeys H1 H2.
  destruct (add_setting_effect key1 value1) as (n1 & r1 & Hadd1 & _).
  destruct (add_setting_effect key2 value2) as (n2 & r2 & Hadd2 & _).
  rewrite Hadd1 in H1. rewrite Hadd2 in H2.
  injection H1 as Hn1 Hr1. apply app_inv_head in Hn1 as ->.
  injection H2 as <- Hr2. exists n2.
  destruct r1 as [[v1|]|e1]; [| |discriminate Hr1]; injection Hr1 as <-;
    (destruct r2 as [[v2|]|e2]; [| |discriminate Hr2]); injection Hr2 as <-.
  - exists (<[key2 := v2]> specified_args). rewrite Hadd2, Hadd1, <- !app_assoc.
    split_and!; try reflexivity. f_equal. f_equal. now apply insert_insert_ne.
  - exists specified_args. rewrite Hadd2, Hadd1, <- !app_assoc. auto.
  - exists (<[key2 := v2]> specified_args). rewrite Hadd2, Hadd1, <- !app_assoc. auto.
  - exists specified_args. rewrite Hadd2, Hadd1, <- !app_assoc. auto.
Qed.

Lemma add_setting_appends (key : string) (value : PyVal) (warnings warnings' : list Warning)
    (specified_args : gmap string SettingVal) (r : Checked (gmap string SettingVal)) :
  add_setting key value warnings specified_args = (warnings', r) ->
  exists new, warnings' = warnings ++ new /\
              forall warnings0, add_setting key value warnings0 specified_args
                                = (warnings0 ++ new, r).
Proof.
  intros H. destruct (add_setting_effect key value) as (new & r0 & Hadd & _).
  rewrite Hadd in H. injection H as <- <-. exists new. split; [reflexivity|].
  intros warnings0. apply Hadd.
Qed.

Lemma settings_loop_appends (d : list (string * PyVal)) (warnings warnings' : list Warning)
    (specified_args : gmap string SettingVal) (r : Checked (gmap string SettingVal)) :
  settings_loop d warnings specified_args = (warnings', r) ->
  exists new, warnings' = warnings ++ new /\
              forall warnings0, settings_loop d warnings0 specified_args
                                = (warnings0 ++ new, r).
Proof.
  intros H. destruct (settings_loop_warnings d specified_args) as (new & r0 & Hloop & _).
  rewrite Hloop in H. injection H as <- <-. exists new. split; [reflexivity|].
  intros warnings0. apply Hloop.
Qed.

Lemma settings_loop_perm (d d' : list (string * PyVal)) :
  d ≡ₚ d' ->
  NoDup d.*1 ->
  forall warnings specified_args new specified_args',
    settings_loop d warnings specified_args = (warnings ++ new, Ok specified_args') ->
    exists new',
      settings_loop d' warnings specified_args = (warnings ++ new', Ok specified_args') /\
      new' ≡ₚ new.
Proof.
  induction 1 as [|[key value] d d' Hperm IH|[key1 value1] [key2 value2] d|d d' d'' H1 IH1 H2 IH2];
    intros Hnodup warnings args new args' Hrun.
  - exists new. auto.
  - cbn [settings_loop] in *. cbn in Hnodup. apply NoDup_cons in Hnodup as [_ Hnodup].
    destruct (add_setting key value warnings args) as [warnings1 [args1|e]] eqn:Hadd.
    + apply add_setting_appends in Hadd as (n1 & -> & _).
      destruct (settings_loop_appends _ _ _ _ _ Hrun) as (n2 & Heq & Hloop).
      rewrite <- app_assoc in Heq. apply app_inv_head in Heq as ->.
      specialize (Hloop (warnings ++ n1)).
      destruct (IH Hnodup _ _ _ _ Hloop) as (n2' & Hloop' & Hp).
      exists (n1 ++ n2'). split.
      * now rewrite Hloop', app_assoc.
      * now rewrite Hp.
    + discriminate Hrun.
  - cbn [settings_loop] in *. cbn in Hnodup.
    apply NoDup_cons in Hnodup as [Hkeys _].
    assert (Hne : key2 <> key1).
    { intros ->. apply Hkeys. apply list_elem_of_here. }
    destruct (add_setting key2 value2 warnings args) as [warnings1 [args1|e]] eqn:Hadd2;
      [|discriminate Hrun].
    destruct (add_setting key1 value1 warnings1 args1) as [warnings2 [args2|e]] eqn:Hadd1;
      [|discriminate Hrun].
    apply add_setting_appends in Hadd2 as Happ. destruct Happ as (n2 & -> & _).
    destruct (add_setting_swap _ _ _ _ _ _ _ _ _ _ Hne Hadd2 Hadd1)
      as (n1 & args1' & -> & Hfirst & Hsecond).
    rewrite Hfirst, Hsecond.
    destruct (settings_loop_appends _ _ _ _ _ Hrun) as (n3 & Heq & Hloop).
    rewrite <- !app_assoc in Heq. apply app_inv_head in Heq as ->.
    exists (n1 ++ n2 ++ n3). split.
    + rewrite Hloop, <- !app_assoc. reflexivity.
    + rewrite !app_assoc. apply Permutation_app_tail, Permutation_app_comm.
  - destruct (IH1 Hnodup _ _ _ _ Hrun) as (n' & Hrun' & Hp').
    assert (Hnodup' : NoDup d'.*1) by now rewrite <- H1.
    destruct (IH2 Hnodup' _ _ _ _ Hrun') as (n'' & Hrun'' & Hp'').
    exists n''. split; [exact Hrun''|]. now rewrite Hp''.
Qed.

(** X25: the order of the items does not matter.  For a dictionary (its keys
    are all different), when [db_settings_from_dict] returns settings, it
    returns the same settings on the items taken in any other order, and it
    adds the same warnings, maybe in another order. *)
Theorem db_settings_items_order (settings_dict settings_dict' : list (string * PyVal))
    (warnings warnings' : list Warning) (s : DBSettings) :
  NoDup settings_dict.*1 ->
  settings_dict ≡ₚ settings_dict' ->
  db_settings_from_dict settings_dict warnings = (warnings', Ok s) ->
  exists new new',
    warnings' = warnings ++ new /\ new' ≡ₚ new /\
    db_settings_from_dict settings_dict' warnings = (warnings ++ new', Ok s).
Proof.
  intros Hnodup Hperm Hrun. unfold db_settings_from_dict in *.
  destruct (settings_loop settings_dict warnings ∅) as [warnings1 [args|e]] eqn:Hloop;
    [|discriminate Hrun].
  injection Hrun as <- <-.
  destruct (settings_loop_appends _ _ _ _ _ Hloop) as (new & -> & _).
  destruct (settings_loop_perm _ _ Hperm Hnodup _ _ _ _ Hloop) as (new' & Hloop' & Hp).
  exists new, new'. rewrite Hloop'. auto.
Qed.

(** ** [ModifiableDBSettings.serialize] *)

Ltac serialized_field H :=
  unfold serialize_bool, serialize_int, serialize_str in H;
  match type of H with
  | context [match ?o with Some _ => _ | None => _ end] =>
      let E := fresh "Efield" in
      destruct o eqn:E; cbn in H;
      [|now apply elem_of_nil in H]
  end.

Lemma serialize_items (self : ModifiableDBSettings) (key : string) (value : PyVal) :
  (key, value) ∈ serialize self ->
  key ∈ MODIFIABLE_SETTINGS /\ key ∈ KNOWN_SETTINGS /\
  (forall b, value <> PBool b) /\
  (key = "taxfree_after_period"%string ->
   exists z, new_taxfree_after_period self = Some z /\
             value = if z =? -1 then PNone else PInt z) /\
  (value = PNone -> key = "taxfree_after_period"%string).
Proof.
  intros Hin. unfold serialize in Hin.
  repeat (apply elem_of_app in Hin as [Hin|Hin]);
    serialized_field Hin;
    try (destruct (Z.eqb_spec z (-1)) as [->|Hz]; cbn in Hin);
    apply list_elem_of_singleton in Hin; injection Hin as -> ->;
    (split; [unfold MODIFIABLE_SETTINGS;
             repeat first [ apply list_elem_of_here | apply list_elem_of_further ]|]);
    (split; [known_setting|]);
    (split; [discriminate|]);
    (split; [try discriminate | try discriminate; try reflexivity]).
  - intros _. exists (-1). auto.
  - intros _. exists z. split; [reflexivity|].
    destruct (Z.eqb_spec z (-1)); [contradiction | reflexivity].
Qed.

Lemma serialize_keys (self : ModifiableDBSettings) :
  (serialize self).*1 `sublist_of` MODIFIABLE_SETTINGS.
Proof.
  unfold serialize, MODIFIABLE_SETTINGS. rewrite !fmap_app.
  repeat match goal with
         | |- sublist (_ ++ _) (?k :: ?l) => apply (sublist_app _ [k] _ l)
         end;
    unfold serialize_bool, serialize_int, serialize_str;
    match goal with
    | |- context [match ?o with Some _ => _ | None => _ end] => destruct o
    end; cbn;
    try match goal with
        | |- context [if ?c then _ else _] => destruct c
        end;
    first [ reflexivity | apply sublist_nil_l ].
Qed.

Lemma serialize_taxfree_item (self : ModifiableDBSettings) (z : Z) :
  new_taxfree_after_period self = Some z ->
  ("taxfree_after_period"%string, if z =? -1 then PNone else PInt z) ∈ serialize self.
Proof.
  intros Hz. unfold serialize. rewrite !elem_of_app. do 4 right. left.
  rewrite Hz. cbn. destruct (z =? -1); apply list_elem_of_here.
Qed.

(** X26: what [serialize] writes.  The keys of the dictionary are names of
    fields of [ModifiableDBSettings], each at most once and in the order of
    the fields, and every one is a key [db_settings_from_dict] reads.  No value
    is a [bool] (booleans are written as strings).  The item of
    [taxfree_after_period], when there is one, holds [None] for a period of
    [-1] and the period itself otherwise, and no other item holds [None]. *)
Theorem serialize_written (self : ModifiableDBSettings) :
  (serialize self).*1 `sublist_of` MODIFIABLE_SETTINGS /\
  NoDup (serialize self).*1 /\
  (forall key value,
      (key, value) ∈ serialize self ->
      key ∈ KNOWN_SETTINGS /\
      (forall b, value <> PBool b) /\
      (value = PNone -> key = "taxfree_after_period"%string)) /\
  (forall value,
      ("taxfree_after_period"%string, value) ∈ serialize self <->
      exists z, new_taxfree_after_period self = Some z /\
                value = if z =? -1 then PNone else PInt z).
Proof.
  split_and!.
  - apply serialize_keys.
  - eapply sublist_NoDup; [|apply serialize_keys].
    unfold MODIFIABLE_SETTINGS. apply (bool_decide_unpack _). vm_compute. exact I.
  - intros key value Hin.
    destruct (serialize_items self key value Hin) as (_ & Hknown & Hbool & _ & Hnone). auto.
  - intros value. split.
    + intros Hin. destruct (serialize_items self _ value Hin) as (_ & _ & _ & Htax & _).
      now apply Htax.
    + intros (z & Hz & ->). now apply serialize_taxfree_item.
Qed.

(** ** [serialize], then [db_settings_from_dict] *)

Lemma add_setting_taxfree_none (warnings : list Warning)
    (specified_args : gmap string SettingVal) :
  add_setting "taxfree_after_period" PNone warnings specified_args
  = (warnings, Ok (<["taxfree_after_period"%string := VOptInt None]> specified_args)).
Proof. reflexivity. Qed.

Lemma add_setting_other_key (key : string) (value : PyVal) (warnings warnings' : list Warning)
    (specified_args specified_args' : gmap string SettingVal) (k : string) :
  key <> k ->
  add_setting key value warnings specified_args = (warnings', Ok specified_args') ->
  specified_args' !! k = specified_args !! k.
Proof.
  intros Hk Hadd. destruct (add_setting_effect key value) as (new & r & Hrun & _).
  rewrite Hrun in Hadd. destruct r as [[v|]|e]; [| |discriminate Hadd];
    injection Hadd as _ <-; [now apply lookup_insert_ne | reflexivity].
Qed.

Lemma add_setting_quiet (key : string) (value : PyVal) (warnings warnings' : list Warning)
    (specified_args : gmap string SettingVal) (r : Checked (gmap string SettingVal)) :
  key ∈ KNOWN_SETTINGS -> key <> "taxfree_after_period"%string ->
  add_setting key value warnings specified_args = (warnings', r) ->
  warnings' = warnings.
Proof.
  intros Hknown Hkey Hadd.
  destruct (add_setting_effect key value) as (new & r0 & Hrun & _ & Hrule & _).
  rewrite Hrun in Hadd. injection Hadd as <- _.
  destruct (Hrule Hknown) as [_ [-> | (n & _ & _ & Hc & _)]];
    [apply app_nil_r | contradiction].
Qed.

(** A dictionary of known keys in which [taxfree_after_period], if it is
    there, holds [None]: no warning is added. *)
Lemma settings_loop_quiet (d : list (string * PyVal)) :
  (forall key value, (key, value) ∈ d ->
     key ∈ KNOWN_SETTINGS /\ (key = "taxfree_after_period"%string -> value = PNone)) ->
  forall warnings specified_args warnings' r,
    settings_loop d warnings specified_args = (warnings', r) ->
    warnings' = warnings.
Proof.
  induction d as [|[key value] d IH]; intros Hd warnings args warnings' r Hrun.
  - cbn in Hrun. now injection Hrun as <- _.
  - cbn [settings_loop] in Hrun.
    destruct (Hd key value (list_elem_of_here _ _)) as [Hknown Hnone].
    assert (Hrest : forall key0 value0, (key0, value0) ∈ d ->
               key0 ∈ KNOWN_SETTINGS /\ (key0 = "taxfree_after_period"%string -> value0 = PNone)).
    { intros key0 value0 Hin. apply Hd. now apply list_elem_of_further. }
    destruct (add_setting key value warnings args) as [warnings1 r1] eqn:Hadd.
    assert (warnings1 = warnings) as ->.
    { destruct (decide (key = "taxfree_after_period"%string)) as [->|Hother].
      - rewrite (Hnone eq_refl), add_setting_taxfree_none in Hadd. now injection Hadd as <- _.
      - eapply add_setting_quiet; eauto. }
    destruct r1 as [args1|e]; [eapply IH; eauto | now injection Hrun as <- _].
Qed.

(** The entry of a key that the dictionary does not hold is left alone. *)
Lemma settings_loop_absent (d : list (string * PyVal)) (k : string) :
  k ∉ d.*1 ->
  forall warnings specified_args warnings' specified_args',
    settings_loop d warnings specified_args = (warnings', Ok specified_args') ->
    specified_args' !! k = specified_args !! k.
Proof.
  induction d as [|[key value] d IH]; intros Hk warnings args warnings' args' Hrun.
  - cbn in Hrun. now injection Hrun as _ <-.
  - cbn [settings_loop] in Hrun. cbn in Hk. apply not_elem_of_cons in Hk as [Hne Hk].
    destruct (add_setting key value warnings args) as [warnings1 [args1|e]] eqn:Hadd;
      [|discriminate Hrun].
    rewrite (IH Hk _ _ _ _ Hrun). eapply add_setting_other_key; eauto.
Qed.

(** A period of [None], wherever it stands in the dictionary, is what the loop
    leaves for [taxfree_after_period], when no other item sets it. *)
Lemma settings_loop_taxfree_none (d : list (string * PyVal)) :
  (forall value, ("taxfree_after_period"%string, value) ∈ d -> value = PNone) ->
  forall warnings specified_args warnings' specified_args',
    settings_loop d warnings specified_args = (warnings', Ok specified_args') ->
    specified_args !! "taxfree_after_period"%string = Some (VOptInt None) \/
    ("taxfree_after_period"%string, PNone) ∈ d ->
    specified_args' !! "taxfree_after_period"%string = Some (VOptInt None).
Proof.
  induction d as [|[key value] d IH]; intros Hd warnings args warnings' args' Hrun Hstart.
  - cbn in Hrun. injection Hrun as _ <-.
    destruct Hstart as [H|H]; [exact H | now apply elem_of_nil in H].
  - cbn [settings_loop] in Hrun.
    assert (Hrest : forall value0, ("taxfree_after_period"%string, value0) ∈ d -> value0 = PNone).
    { intros value0 Hin. apply Hd. now apply list_elem_of_further. }
    destruct (add_setting key value warnings args) as [warnings1 [args1|e]] eqn:Hadd;
      [|discriminate Hrun].
    apply (IH Hrest _ _ _ _ Hrun).
    destruct (decide (key = "taxfree_after_period"%string)) as [->|Hother].
    + left. rewrite (Hd value (list_elem_of_here _ _)), add_setting_taxfree_none in Hadd.
      injection Hadd as _ <-. apply lookup_insert_eq.
    + destruct Hstart as [H|H].
      * left. rewrite <- H. eapply add_setting_other_key; eauto.
      * right. apply elem_of_cons in H as [[= Hc _]|H]; [congruence | exact H].
Qed.

(** X27: the period that disables the setting.  Take the dictionary
    [serialize] writes for some settings and read it with
    [db_settings_from_dict].  When the settings name no
    [taxfree_after_period], no warning is added and the period read, if the
    reading returns, is the default [YEAR_IN_SECONDS].  When they name the
    period [-1], no warning is added either and the period read is [None]: the
    setting is disabled. *)
Theorem serialize_taxfree_disabled (self : ModifiableDBSettings)
    (warnings warnings' : list Warning) (r : Checked DBSettings) :
  db_settings_from_dict (serialize self) warnings = (warnings', r) ->
  (new_taxfree_after_period self = None ->
   warnings' = warnings /\
   forall s, r = Ok s -> taxfree_after_period s = Some YEAR_IN_SECONDS) /\
  (new_taxfree_after_period self = Some (-1) ->
   warnings' = warnings /\
   forall s, r = Ok s -> taxfree_after_period s = None).
Proof.
  intros Hrun. unfold db_settings_from_dict in Hrun.
  destruct (settings_loop (serialize self) warnings ∅) as [warnings1 r1] eqn:Hloop.
  injection Hrun as <- <-.
  assert (Hitems :
             new_taxfree_after_period self = None \/ new_taxfree_after_period self = Some (-1) ->
             forall key value, (key, value) ∈ serialize self ->
               key ∈ KNOWN_SETTINGS /\ (key = "taxfree_after_period"%string -> value = PNone)).
  { intros Hfield key value Hin.
    destruct (serialize_items self key value Hin) as (_ & Hknown & _ & Htax & _).
    split; [exact Hknown|]. intros Hkey. destruct (Htax Hkey) as (z & Hz & ->).
    destruct Hfield as [Hf|Hf]; rewrite Hf in Hz; [discriminate Hz|].
    now injection Hz as <-. }
  split; intros Hfield.
  - split; [eapply settings_loop_quiet; [apply Hitems; auto | exact Hloop]|].
    intros s Hs. destruct r1 as [args|e]; [|discriminate Hs]. injection Hs as <-.
    cbn [DBSettings_of_args taxfree_after_period]. unfold arg_opt_int.
    assert (Habsent : "taxfree_after_period"%string ∉ (serialize self).*1).
    { intros Hin. apply list_elem_of_fmap in Hin as ([key value] & Hkey & Hin).
      cbn in Hkey. subst key.
      destruct (serialize_items self _ value Hin) as (_ & _ & _ & Htax & _).
      destruct (Htax eq_refl) as (z & Hz & _). congruence. }
    rewrite (settings_loop_absent _ _ Habsent _ _ _ _ Hloop), lookup_empty. reflexivity.
  - split; [eapply settings_loop_quiet; [apply Hitems; auto | exact Hloop]|].
    intros s Hs. destruct r1 as [args|e]; [|discriminate Hs]. injection Hs as <-.
    cbn [DBSettings_of_args taxfree_after_period]. unfold arg_opt_int.
    assert (Hnone : forall value,
               ("taxfree_after_period"%string, value) ∈ serialize self -> value = PNone).
    { intros value Hin. now apply (Hitems (or_intror Hfield) _ value Hin). }
    rewrite (settings_loop_taxfree_none _ Hnone _ _ _ _ Hloop); [reflexivity|].
    right. exact (serialize_taxfree_item self (-1) Hfield).
Qed.

End Uniswap.

(** * Worked instances *)

Lemma before_dash_example : before_dash "0xabc-12" = "0xabc"%string.
Proof. reflexivity. Qed.

Lemma single_swap_example :
  exists t, _tx_swaps_to_trades [sample_swap "0xaa" 7 0 100 0 0 40] = Done [t] /\
            this (rate t) = (2 # 5)%Q /\ this (amount t) = (40 # 1)%Q.
Proof. eexists. split; [vm_compute; reflexivity|]. split; reflexivity. Qed.

(** C8 as the claim words it fails: a known asset priced zero is added to the
    unknown assets and stays among the known ones, so its address is in both. *)
Lemma zero_priced_asset_in_both_sets :
  ~ exclusive [DAI_token] (_get_known_asset_price [DAI_token] [] (fun _ => ZERO)).2.
Proof.
  intros H. apply (H "0x6B17"%string); vm_compute; apply list_elem_of_here.
Qed.

(** The module set up over the sample subgraph and database, with pages of
    1000 records. *)
Local Abbreviation sample_get_trades :=
  (_get_trades 1000 "uniswap_trades" id id sample_resolver _ sample_graph_query_swaps
     _ sample_add_amm_swaps sample_get_amm_swaps id).
Local Abbreviation sample_run_calls :=
  (run_calls 1000 "uniswap_trades" id id sample_resolver _ sample_graph_query_swaps
     _ sample_add_amm_swaps sample_get_amm_swaps id).
Local Abbreviation sample_range_of := (range_of "uniswap_trades" _ _).

(** Two calls on a fresh database: first for [0xA] up to 100, then for [0xA]
    and [0xB] up to 200. *)
Lemma sample_calls_ranges :
  let calls := [mkCall 3 ["0xA"] 0 100; mkCall 3 ["0xA"; "0xB"] 0 200]%string in
  (fun env => (sample_range_of env "0xA"%string, sample_range_of env "0xB"%string))
    <$> sample_run_calls sample_env0 calls
  = [ (Some (0, 100), None); (Some (100, 200), Some (0, 200)) ].
Proof. vm_compute. reflexivity. Qed.

Lemma range_monotonicity_witness :
  let c1 := mkCall 3 ["0xA"%string] 0 100 in
  let c2 := mkCall 3 ["0xA"; "0xB"]%string 0 200 in
  let env1 := (sample_get_trades 3%nat ["0xA"%string] 0 100 sample_env0).1 in
  let env2 := (sample_get_trades 3%nat ["0xA"; "0xB"]%string 0 200 env1).1 in
  (sample_range_of env2 "0xA"%string = sample_range_of env1 "0xA"%string \/
   exists start_ts, sample_range_of env2 "0xA"%string = Some (start_ts, 200)) /\
  (forall start_ts end_ts,
      sample_range_of env2 "0xA"%string = Some (start_ts, end_ts) -> end_ts <= 200) /\
  (forall start_ts end_ts,
      sample_range_of env1 "0xA"%string = Some (start_ts, end_ts) ->
      exists start_ts' end_ts',
        sample_range_of env2 "0xA"%string = Some (start_ts', end_ts') /\ end_ts <= end_ts') /\
  (exists start_ts, sample_range_of env2 "0xA"%string = Some (start_ts, 200)).
Proof.
  intros c1 c2 env1 env2.
  assert (Hfresh : forall a start_ts end_ts,
             sample_range_of sample_env0 a = Some (start_ts, end_ts) -> end_ts <= 0).
  { intros a start_ts end_ts H. unfold range_of in H. cbn in H.
    rewrite lookup_empty in H. discriminate H. }
  assert (Hsorted : Sorted Z.le (0 :: (call_to_timestamp <$> [c1; c2]))).
  { repeat constructor; cbn; lia. }
  destruct (range_monotonicity 1000 "uniswap_trades" id id sample_resolver _
              sample_graph_query_swaps _ sample_add_amm_swaps sample_get_amm_swaps id
              [c1; c2] sample_env0 0 Hfresh Hsorted 1%nat c2 env1 env2
              eq_refl eq_refl eq_refl "0xA"%string) as (Hwrite & Hbound & Hmono & Hdone).
  split; [exact Hwrite|]. split; [exact Hbound|]. split; [exact Hmono|].
  apply Hdone.
  - apply list_elem_of_here.
  - eexists. vm_compute. reflexivity.
Defined.

(** C6, the failing input: the range [(0, 100)] is recorded for [0xA] and
    trades are asked for up to 50.  The subgraph is asked for the swaps of
    [0xA] over the window [50, 50], and the recorded range becomes [(50, 50)]. *)
Lemma get_trades_fetches_before_recorded_end :
  let env' := (sample_get_trades 3%nat ["0xA"%string] 0 50 sample_env_synced).1 in
  sample_range_of sample_env_synced "0xA"%string = Some (0, 100) /\
  graph env' = [ {| limit := 1000; offset := 0; bindings := ("0xA"%string, 50, 50) |} ] /\
  sample_range_of env' "0xA"%string = Some (50, 50).
Proof. vm_compute. repeat split. Qed.

(** Three records served by pages of two: the loop asks at the offsets 0 and 2
    and returns the prices of all three. *)
Lemma paginated_prices_example :
  _get_unknown_asset_price_graph 2 id id 5%nat 1600000000 [] sample_graph_query_prices []
  = ([0; 2], Done ({[ "0xa"%string := fval 1; "0xb"%string := fval 2; "0xc"%string := fval 3 ]})).
Proof. vm_compute. reflexivity. Qed.

Lemma paginated_prices_out_of_fuel :
  (_get_unknown_asset_price_graph 2 id id 1%nat 1600000000 [] sample_graph_query_prices []).2
  = OutOfFuel.
Proof. reflexivity. Qed.

Lemma pool_usd_value_is_sum_witness :
  let known : AssetPrice := {[ "0x6B17"%string := fval 1 ]} in
  let unknown : AssetPrice := {[ "0xC02a"%string := fval 2000 ]} in
  let lp := update_pool known unknown sample_pool in
  Balance.usd_value (LiquidityPool.user_balance lp) = sum_usd_values (LiquidityPool.assets lp) /\
  this (Balance.usd_value (LiquidityPool.user_balance lp)) = (4010 # 1)%Q.
Proof.
  intros known unknown lp. split; [|reflexivity].
  exact (proj1 (pool_usd_value_is_sum {[ "0xUser"%string := [sample_pool] ]} known unknown
                  "0xUser"%string [lp] 0%nat lp eq_refl eq_refl)).
Defined.

(** ** Instances of the further properties *)

Lemma add_trades_from_swaps_done_witness :
  let swaps := [sample_swap "0xaa" 7 0 100 0 0 40] in
  let legs := [(DAI, fval 100)] in
  exists r : list AMMTrade,
    add_trades_from_swaps swaps [] false legs (fval 40) WETH 0 = Done r /\
    Forall (fun entry => entry.2 <> ZERO) legs /\
    r = [] ++ trades_of_legs swaps WETH (fval 40) 0 legs.
Proof.
  intros swaps legs.
  destruct (add_trades_from_swaps swaps [] false legs (fval 40) WETH 0) as [r|e|] eqn:Hrun;
    [|exfalso; revert Hrun; vm_compute; discriminate..].
  exists r. split; [reflexivity|].
  exact (add_trades_from_swaps_done swaps [] false legs (fval 40) WETH 0 r Hrun).
Defined.


Lemma swaps_to_trades_one_transaction_witness :
  let swaps := [sample_swap "0xaa" 7 2 0 0 0 40; sample_swap "0xaa" 7 1 100 0 0 0] in
  tx_groups swaps = Done [[sample_swap "0xaa" 7 1 100 0 0 0; sample_swap "0xaa" 7 2 0 0 0 40]] /\
  swaps_to_trades swaps
  = _tx_swaps_to_trades [sample_swap "0xaa" 7 1 100 0 0 0; sample_swap "0xaa" 7 2 0 0 0 40].
Proof.
  intros swaps.
  assert (Hne : swaps <> []) by discriminate.
  assert (Hall : Forall (fun s => tx_hash s = "0xaa"%string) swaps)
    by (constructor; [reflexivity | constructor; [reflexivity | constructor]]).
  exact (swaps_to_trades_one_transaction swaps "0xaa" Hne Hall).
Defined.

(** The range [(0, 100)] is recorded for [0xA] and nothing for [0xB]; trades of
    both are asked for up to 200. *)
Lemma get_trades_ranges_after_witness :
  let env' := (sample_get_trades 3%nat ["0xA"; "0xB"]%string 0 200 sample_env_synced).1 in
  sample_range_of env' "0xB"%string = Some (0, 200) /\
  sample_range_of env' "0xA"%string = Some (100, 200).
Proof.
  intros env'.
  assert (Hrun : sample_get_trades 3%nat ["0xA"; "0xB"]%string 0 200 sample_env_synced
                 = (env', Done ∅)) by (vm_compute; reflexivity).
  destruct (get_trades_ranges_after 1000 "uniswap_trades" id id sample_resolver _
              sample_graph_query_swaps _ sample_add_amm_swaps sample_get_amm_swaps id
              3%nat ["0xA"; "0xB"]%string 0 200 sample_env_synced env' ∅ Hrun)
    as (Hnew & Hexisting & _).
  split.
  - apply Hnew; [apply list_elem_of_further, list_elem_of_here | reflexivity].
  - rewrite Hexisting; [reflexivity | apply list_elem_of_here | eexists; reflexivity].
Defined.

Lemma get_trades_answer_witness :
  let res := _get_trades 1000 "uniswap_trades" id id sample_resolver _
               sample_graph_query_user _ sample_add_amm_swaps sample_get_amm_swaps id
               3%nat ["0xUser"; "0xB"]%string 0 200 sample_env_user in
  let r := match res.2 with Done r => r | _ => ∅ end in
  graph res.1 = ["0xUser"; "0xB"]%string /\
  amm_swaps res.1 = [swap_of_graph id sample_resolver "0xUser" sample_graph_swap] /\
  (exists trades, r !! "0xUser"%string = Some trades /\ trades <> []) /\
  r !! "0xB"%string = None /\
  r !! "0xOther"%string = None.
Proof.
  intros res r.
  assert (Hrun : res = (res.1, Done r)) by (vm_compute; reflexivity).
  destruct (get_trades_answer 1000 "uniswap_trades" id id sample_resolver _
              sample_graph_query_user _ sample_add_amm_swaps sample_get_amm_swaps id
              3%nat ["0xUser"; "0xB"]%string 0 200 sample_env_user res.1 r Hrun)
    as [(w1 & new_trades & existing_trades & Hnew & Hexisting & Hswaps) Hlook].
  vm_compute in Hnew. injection Hnew as <- <-.
  assert (Hgraph : graph res.1 = ["0xUser"; "0xB"]%string) by (vm_compute; reflexivity).
  rewrite Hgraph in Hexisting.
  vm_compute in Hexisting. injection Hexisting as <-.
  split; [exact Hgraph|].
  split; [rewrite Hswaps; vm_compute; reflexivity|].
  split; [|split].
  - destruct (Hlook "0xUser"%string) as (_ & Hin & Hsome).
    destruct Hin as (trades & _ & Hr); [apply (bool_decide_unpack _); vm_compute; exact I|].
    destruct trades as [|t trades].
    + exfalso. revert Hr. vm_compute. discriminate.
    + exists (t :: trades). split; [exact Hr|]. exact (proj2 (Hsome _ Hr)).
  - destruct (Hlook "0xB"%string) as (_ & Hin & _).
    destruct Hin as (trades & Htrades & Hr); [apply (bool_decide_unpack _); vm_compute; exact I|].
    destruct trades; [exact Hr|].
    exfalso. revert Htrades. vm_compute. discriminate.
  - apply (Hlook "0xOther"%string). apply (bool_decide_unpack _). vm_compute. exact I.
Defined.

(** The trades of [0xUser] and [0xNone] from the subgraph that holds one
    transaction: an entry for the first, none for the second. *)
Lemma get_trades_graph_entries_witness :
  let res := _get_trades_graph 1000 id id sample_resolver _ sample_graph_query_user
               3%nat ["0xUser"; "0xOther"]%string 0 100 [] in
  let r := match res.2 with Done r => r | _ => ∅ end in
  res.1 = ["0xUser"; "0xOther"]%string /\
  (exists trades, r !! "0xUser"%string = Some trades /\ trades <> []) /\
  r !! "0xOther"%string = None.
Proof.
  intros res r.
  assert (Hrun : res = (res.1, Done r)) by (vm_compute; reflexivity).
  split; [vm_compute; reflexivity|].
  destruct (get_trades_graph_entries 1000 id id sample_resolver _ sample_graph_query_user
              3%nat ["0xUser"; "0xOther"]%string 0 100 [] res.1 r Hrun)
    as (results & Hlen & Hask & Hlook & Hsome & Hnone).
  destruct results as [|t1 [|t2 [|t3 results]]]; try discriminate Hlen.
  vm_compute in Hask. injection Hask as Ht1 Ht2.
  split.
  - exists t1. assert (Hr : r !! "0xUser"%string = Some t1).
    { rewrite Hlook, <- Ht1, <- Ht2. vm_compute. reflexivity. }
    split; [exact Hr|]. exact (proj1 (proj2 (Hsome _ _ Hr))).
  - apply Hnone. intros trades Hin. cbn [zip zip_with] in Hin.
    apply elem_of_cons in Hin as [Heq | Hin]; [discriminate Heq|].
    apply list_elem_of_singleton in Hin. injection Hin as ->. now symmetry.
Defined.

Lemma swap_of_graph_tx_hash_witness :
  tx_hash (swap_of_graph id sample_resolver "0xUser" sample_graph_swap) = "0xaa"%string /\
  log_index (swap_of_graph id sample_resolver "0xUser" sample_graph_swap) = 0.
Proof.
  destruct (swap_of_graph_tx_hash id sample_resolver "0xUser" sample_graph_swap "0xaa" "0"
              eq_refl (no_dash_app "0xaa" eq_refl))
    as (Hhash & _ & _ & Hlog & _).
  split; [exact Hhash | exact Hlog].
Defined.

Lemma get_trades_graph_for_address_empty_entry_witness :
  _get_trades_graph_for_address 1000 id id sample_resolver _ sample_graph_query_empty_tx
    3%nat "0xUser" 0 100 []
  = ([0], Raise IndexError).
Proof.
  exact (get_trades_graph_for_address_empty_entry 1000 id id sample_resolver _
           sample_graph_query_empty_tx 2%nat "0xUser" 0 100 [] [0] [] [] [] eq_refl eq_refl).
Defined.

(** The balances of [0xUser] from the subgraph that holds the sample position. *)
Lemma get_balances_graph_pools_witness :
  let res := _get_balances_graph 2 id id sample_known_resolver
               3%nat ["0xUser"]%string sample_graph_query_positions [] in
  let protocol_balance :=
    match res.2 with
    | Done r => r
    | _ => {| address_balances := ∅; known_assets := []; unknown_assets := [] |}
    end in
  let lps := default [] (address_balances protocol_balance !! "0xUser"%string) in
  lps = [pool_of_position id sample_known_resolver sample_position] /\
  Forall (unpriced_pool (known_assets protocol_balance) (unknown_assets protocol_balance)) lps.
Proof.
  intros res protocol_balance lps.
  assert (Hrun : res = (res.1, Done protocol_balance)) by (vm_compute; reflexivity).
  assert (Hlps : address_balances protocol_balance !! "0xUser"%string = Some lps)
    by (vm_compute; reflexivity).
  split; [vm_compute; reflexivity|].
  exact (proj2 (get_balances_graph_pools 2 id id sample_known_resolver 3%nat
                  ["0xUser"%string] sample_graph_query_positions [] res.1 protocol_balance
                  Hrun "0xUser"%string lps Hlps)).
Defined.

Lemma get_balances_chain_entries_witness :
  let res := get_balances_chain sample_lp_token_balances ["0xA"; "0xB"]%string [] in
  let protocol_balance :=
    match res.2 with
    | Done r => r
    | _ => {| address_balances := ∅; known_assets := []; unknown_assets := [] |}
    end in
  address_balances protocol_balance !! "0xA"%string = Some [sample_pool] /\
  address_balances protocol_balance !! "0xB"%string = None /\
  known_assets protocol_balance = [DAI_token] /\
  "0xA"%string ∈ ["0xA"; "0xB"]%string /\ [sample_pool] <> [].
Proof.
  intros res protocol_balance.
  assert (Hrun : res = (res.1, Done protocol_balance)) by (vm_compute; reflexivity).
  destruct (get_balances_chain_entries sample_lp_token_balances ["0xA"; "0xB"]%string []
              res.1 protocol_balance Hrun)
    as (results & Hlen & Hask & Hsets & Hlook & Hsome & Hnone).
  destruct results as [|[pools1 sets1] [|[pools2 sets2] [|result3 results]]];
    try discriminate Hlen.
  vm_compute in Hask. injection Hask as Hpools1 Hsets1 Hpools2 Hsets2.
  assert (HA : address_balances protocol_balance !! "0xA"%string = Some [sample_pool]).
  { etransitivity; [apply Hlook|]. rewrite <- Hpools1, <- Hpools2. vm_compute. reflexivity. }
  split; [exact HA|]. split; [|split].
  - apply Hnone. intros lps Hin. cbn [zip zip_with fmap list_fmap fst] in Hin.
    apply elem_of_cons in Hin as [Heq | Hin]; [discriminate Heq|].
    apply list_elem_of_singleton in Hin. injection Hin as ->. now symmetry.
  - change (known_assets protocol_balance)
      with (known_assets protocol_balance, unknown_assets protocol_balance).1.
    rewrite Hsets, <- Hsets2. reflexivity.
  - destruct (Hsome _ _ HA) as (Hin & Hne & _). split; assumption.
Defined.

Lemma add_liquidity_position_outcome_witness :
  let acc := {| address_balances := ∅; known_assets := []; unknown_assets := [] |} in
  let res := add_liquidity_position id sample_known_resolver acc sample_position in
  let acc' := match res with Done r => r | _ => acc end in
  lp_pair_totalSupply sample_position <> ZERO /\
  address_balances acc' !! "0xUser"%string
    = Some [pool_of_position id sample_known_resolver sample_position] /\
  address_balances acc' !! "0xOther"%string = None /\
  DAI_token ∈ known_assets acc'.
Proof.
  intros acc res acc'.
  assert (Hrun : res = Done acc') by (vm_compute; reflexivity).
  destruct (add_liquidity_position_outcome id sample_known_resolver acc acc' sample_position
              Hrun)
    as (Hsupply & Huser & Hother & Hknown & _).
  split; [exact Hsupply|]. split; [exact Huser|]. split.
  - etransitivity; [apply Hother; discriminate|]. reflexivity.
  - apply Hknown. right. left. reflexivity.
Defined.

(** [get_balances] by chain queries, DAI priced 1. *)
Lemma get_balances_pool_values_witness :
  let res := get_balances 2 id id sample_known_resolver false 3%nat 1600000000
               (fun _ => fval 1) sample_graph_query_positions sample_graph_query_prices
               sample_lp_token_balances ["0xA"; "0xB"]%string [] in
  let balances := match res.2 with Done r => r | _ => ∅ end in
  let lps := default [] (balances !! "0xA"%string) in
  length lps = 1%nat /\
  Forall (fun lp => Balance.usd_value (LiquidityPool.user_balance lp)
                    = sum_usd_values (LiquidityPool.assets lp)) lps /\
  Forall (fun lp => this (Balance.usd_value (LiquidityPool.user_balance lp)) = (10 # 1)%Q) lps.
Proof.
  intros res balances lps.
  assert (Hrun : res = (res.1, Done balances)) by (vm_compute; reflexivity).
  assert (Hlps : balances !! "0xA"%string = Some lps) by (vm_compute; reflexivity).
  split; [reflexivity|]. split.
  - exact (get_balances_pool_values 2 id id sample_known_resolver false 3%nat 1600000000
             (fun _ => fval 1) sample_graph_query_positions sample_graph_query_prices
             sample_lp_token_balances ["0xA"; "0xB"]%string [] res.1 balances Hrun
             "0xA"%string lps Hlps).
  - vm_compute. constructor; [reflexivity | constructor].
Defined.

(** [get_balances] over the subgraph, DAI priced 3: the user's share of the
    1000 DAI of the pool is 10, worth 30. *)
Lemma get_balances_graph_known_price_witness :
  let res := get_balances 2 id id sample_known_resolver true 3%nat 1600000000
               (fun _ => fval 3) sample_graph_query_positions sample_graph_query_prices
               sample_lp_token_balances ["0xUser"]%string [] in
  let balances := match res.2 with Done r => r | _ => ∅ end in
  exists lp a rest,
    balances !! "0xUser"%string = Some [lp] /\
    LiquidityPool.assets lp = a :: rest /\
    LiquidityPoolAsset.asset a = DAI /\
    LiquidityPoolAsset.usd_price a = fval 3 /\
    Balance.usd_value (LiquidityPoolAsset.user_balance a)
      = (Balance.amount (LiquidityPoolAsset.user_balance a) * fval 3)%Qc /\
    this (Balance.usd_value (LiquidityPoolAsset.user_balance a)) = (30 # 1)%Q.
Proof.
  intros res balances.
  assert (Hrun : res = (res.1, Done balances)) by (vm_compute; reflexivity).
  assert (Hresolver : forall token token' t t',
             token_of_graph id sample_known_resolver token = Known t ->
             token_of_graph id sample_known_resolver token' = Known t' ->
             et_ethereum_address t = et_ethereum_address t' -> t = t').
  { intros token token' t t' Ht Ht' _.
    unfold token_of_graph, sample_known_resolver in Ht, Ht'.
    destruct (decide _) in Ht; [|discriminate Ht].
    destruct (decide _) in Ht'; [|discriminate Ht'].
    congruence. }
  destruct (default [] (balances !! "0xUser"%string)) as [|lp lps] eqn:Hlps;
    [discriminate Hlps|].
  destruct (LiquidityPool.assets lp) as [|a rest] eqn:Hassets.
  { exfalso. revert Hlps Hassets. vm_compute. intros [= <- _]. discriminate. }
  assert (Hbal : balances !! "0xUser"%string = Some [lp]).
  { revert Hlps. vm_compute. now intros [= <- <-]. }
  assert (Ha : LiquidityPoolAsset.asset a = DAI).
  { revert Hlps Hassets. vm_compute. intros [= <- _] [= <- _]. reflexivity. }
  destruct (get_balances_graph_known_price 2 id id sample_known_resolver 3%nat 1600000000
              (fun _ => fval 3) sample_graph_query_positions sample_graph_query_prices
              sample_lp_token_balances ["0xUser"%string] [] res.1 balances Hresolver Hrun
              "0xUser"%string [lp] lp a DAI_token Hbal)
    as (Hprice & Hvalue & _).
  - apply list_elem_of_here.
  - rewrite Hassets. apply list_elem_of_here.
  - exact Ha.
  - discriminate.
  - exists lp, a, rest. split_and!; auto.
    revert Hlps Hassets. vm_compute. intros [= <- _] [= <- _]. reflexivity.
Defined.

Lemma get_trades_graph_for_address_trades_witness :
  let res := _get_trades_graph_for_address 1000 id id sample_resolver _ sample_graph_query_tx
               3%nat "0xUser" 0 100 [] in
  let trades := match res.2 with Done r => r | _ => [] end in
  length trades = 1%nat /\
  exists pages : list (list (list GraphSwap)),
    ask sample_graph_query_tx
      (loop_queries 1000 (length pages)
         {| limit := 1000; offset := 0; bindings := ("0xUser"%string, 0, 100) |}) []
      = (res.1, Done <$> pages) /\
    extend_all (fun entry =>
                  _tx_swaps_to_trades (swap_of_graph id sample_resolver "0xUser" <$> entry))
      (concat pages) = Done trades /\
    Forall (fun t => exists entry,
                entry ∈ concat pages /\ entry <> [] /\
                swaps t = swap_of_graph id sample_resolver "0xUser" <$> entry) trades.
Proof.
  intros res trades.
  assert (Hrun : res = (res.1, Done trades)) by (vm_compute; reflexivity).
  split; [reflexivity|].
  exact (get_trades_graph_for_address_trades 1000 id id sample_resolver _
           sample_graph_query_tx 3%nat "0xUser" 0 100 [] res.1 trades Hrun).
Defined.

(** The three daily prices served by pages of two. *)
Lemma unknown_asset_price_last_record_witness :
  let res := _get_unknown_asset_price_graph 2 id id 5%nat 1600000000 []
               sample_graph_query_prices [] in
  let asset_price := match res.2 with Done r => r | _ => ∅ end in
  asset_price !! "0xb"%string = Some (fval 2) /\
  exists pages : list (list TokenDayData),
    ask sample_graph_query_prices
      (loop_queries 2 (length pages)
         {| limit := 2; offset := 0; bindings := ([], 1600000000) |}) []
      = (res.1, Done <$> pages) /\
    forall a, asset_price !! a = last_price_of id (concat pages) a.
Proof.
  intros res asset_price.
  assert (Hrun : res = (res.1, Done asset_price)) by (vm_compute; reflexivity).
  split; [vm_compute; reflexivity|].
  exact (unknown_asset_price_last_record 2 id id 5%nat 1600000000 []
           sample_graph_query_prices [] res.1 asset_price Hrun).
Defined.

(** ** Instances for the settings *)

(** [db_settings_from_dict] and [serialize] over the stand-ins, with assets and
    account types given by their names. *)
Local Abbreviation sample_db_settings_from_dict :=
  (db_settings_from_dict string "USD" Ok string "starter" sample_kraken_deserialize
     31536000 [] sample_str_to_bool sample_int sample_str sample_json_loads).
Local Abbreviation sample_serialize :=
  (serialize string id string id sample_json_dumps).

(** A dictionary with a version, a period of zero and, between them, a key
    that is not a setting. *)
Lemma db_settings_unknown_key_witness :
  exists s new1 new2,
    sample_db_settings_from_dict
      [("version"%string, PInt 21); ("taxfree_after_period"%string, PInt 0)] []
    = ([] ++ new1 ++ new2, Ok s) /\
    sample_db_settings_from_dict
      [("version"%string, PInt 21); ("colour"%string, PStr "red");
       ("taxfree_after_period"%string, PInt 0)] []
    = ([] ++ new1 ++ UnknownSetting "colour" :: new2, Ok s).
Proof.
  destruct (sample_db_settings_from_dict
              [("version"%string, PInt 21); ("taxfree_after_period"%string, PInt 0)] []).2
    as [s|e] eqn:Hres; [|discriminate Hres].
  assert (Hunknown : "colour"%string ∉ KNOWN_SETTINGS).
  { apply (bool_decide_unpack _). vm_compute. exact I. }
  assert (Hrun : sample_db_settings_from_dict
                   ([("version"%string, PInt 21)] ++ [("taxfree_after_period"%string, PInt 0)]) []
                 = ([NonPositiveTaxfree 0], Ok s)).
  { rewrite <- Hres. reflexivity. }
  destruct (db_settings_unknown_key string "USD" Ok string "starter" sample_kraken_deserialize
              31536000 [] sample_str_to_bool sample_int sample_str sample_json_loads
              "colour" (PStr "red") [("version"%string, PInt 21)]
              [("taxfree_after_period"%string, PInt 0)] [] [NonPositiveTaxfree 0] s
              Hunknown Hrun)
    as (new1 & new2 & Hnew & Hrun').
  exists s, new1, new2. split; [|exact Hrun'].
  rewrite <- Hnew. exact Hrun.
Defined.

Lemma db_settings_taxfree_positive_witness :
  let res := sample_db_settings_from_dict
               [("taxfree_after_period"%string, PInt (-5)); ("version"%string, PInt 21)] [] in
  exists s,
    res = ([NonPositiveTaxfree (-5)], Ok s) /\
    taxfree_after_period _ _ s = None /\
    match taxfree_after_period _ _ s with
    | Some n => 0 < n
    | None => True
    end.
Proof.
  intros res.
  destruct res.2 as [s|e] eqn:Hres; [|discriminate Hres].
  assert (Hrun : res = ([NonPositiveTaxfree (-5)], Ok s)).
  { rewrite <- Hres. reflexivity. }
  exists s. split; [exact Hrun|]. split.
  - revert Hres. vm_compute. now intros [= <-].
  - exact (proj1 (db_settings_taxfree_positive string "USD" Ok string "starter"
                    sample_kraken_deserialize 31536000 [] sample_str_to_bool sample_int
                    sample_str sample_json_loads
                    [("taxfree_after_period"%string, PInt (-5)); ("version"%string, PInt 21)]
                    [] [NonPositiveTaxfree (-5)] s eq_refl Hrun)).
Defined.

Lemma db_settings_items_order_witness :
  let d := [("taxfree_after_period"%string, PInt (-5)); ("colour"%string, PNone);
            ("version"%string, PInt 21)] in
  let d' := [("version"%string, PInt 21); ("colour"%string, PNone);
             ("taxfree_after_period"%string, PInt (-5))] in
  exists s new new',
    sample_db_settings_from_dict d [] = ([] ++ new, Ok s) /\
    new' ≡ₚ new /\
    sample_db_settings_from_dict d' [] = ([] ++ new', Ok s).
Proof.
  intros d d'.
  destruct (sample_db_settings_from_dict d []).2 as [s|e] eqn:Hres; [|discriminate Hres].
  assert (Hrun : sample_db_settings_from_dict d []
                 = ([NonPositiveTaxfree (-5); UnknownSetting "colour"], Ok s)).
  { rewrite <- Hres. reflexivity. }
  assert (Hnodup : NoDup d.*1) by (apply (bool_decide_unpack _); vm_compute; exact I).
  assert (Hperm : d ≡ₚ d').
  { unfold d, d'. etransitivity; [apply Permutation_swap|].
    etransitivity; [apply Permutation_skip, Permutation_swap|]. apply Permutation_swap. }
  destruct (db_settings_items_order string "USD" Ok string "starter"
              sample_kraken_deserialize 31536000 [] sample_str_to_bool sample_int
              sample_str sample_json_loads d d' [] _ s Hnodup Hperm Hrun)
    as (new & new' & Hnew & Hp & Hrun').
  exists s, new, new'. rewrite <- Hnew. auto.
Defined.

(** Settings to modify that name the period [-1], written and read again. *)
Lemma serialize_taxfree_disabled_witness :
  let self :=
    {| new_premium_should_sync := Some true;
       new_include_crypto2crypto := None;
       new_anonymized_logs := None;
       new_ui_floating_precision := Some 4;
       new_taxfree_after_period := Some (-1);
       new_balance_save_frequency := None;
       new_include_gas_costs := None;
       new_historical_data_start := None;
       new_eth_rpc_endpoint := None;
       new_main_currency := Some "EUR"%string;
       new_date_display_format := None;
       new_thousand_separator := None;
       new_decimal_separator := None;
       new_currency_location := None;
       new_submit_usage_analytics := None;
       new_kraken_account_type := (None : option string);
       new_active_modules := None;
       new_frontend_settings := None |} in
  sample_serialize self
  = [("premium_should_sync"%string, PStr "True"); ("ui_floating_precision"%string, PInt 4);
     ("taxfree_after_period"%string, PNone); ("main_currency"%string, PStr "EUR")] /\
  exists s,
    sample_db_settings_from_dict (sample_serialize self) [] = ([], Ok s) /\
    taxfree_after_period _ _ s = None.
Proof.
  intros self. split; [reflexivity|].
  destruct (sample_db_settings_from_dict (sample_serialize self) []).2 as [s|e] eqn:Hres;
    [|discriminate Hres].
  assert (Hrun : sample_db_settings_from_dict (sample_serialize self) [] = ([], Ok s)).
  { rewrite <- Hres. reflexivity. }
  exists s. split; [exact Hrun|].
  exact (proj2 (proj2 (serialize_taxfree_disabled string "USD" Ok id string "starter"
                         sample_kraken_deserialize id 31536000 [] sample_str_to_bool
                         sample_int sample_str sample_json_loads sample_json_dumps
                         self [] [] (Ok s) Hrun) eq_refl) s eq_refl).
Defined.
